(** * Signature download: duplicate resolution, dependency ordering, caching

    A shallow embedding of [download_signatures] and [_get_cached_signatures]
    from [al_ui/api/v4/signature.py], with the properties of the bundle it
    builds.

    Conventions of the embedding:
    - a signature document is the Python dict the datastore returns; the keys
      the handler reads with [.get(key, default)] ([name], [meta],
      [meta.rule_version]) are optional fields, the keys it only indexes
      ([type], [depends], [meta.rule_id]) are always present;
    - [meta.rule_version] holds an integer (as [add_signature] stores it), so
      [int(...)] is the identity on it;
    - Python dicts are insertion ordered: [rules_map] is an association list
      that keeps the position of a key that is assigned again, [name_map]
      (only ever queried by key) is a [gmap];
    - an exception aborts the handler: computations live in [outcome];
    - the two [while] loops take a fuel argument; the handler passes the
      length of the list they consume. *)

From Stdlib Require Import ZArith String Ascii List Permutation Sorted Lia.
From stdpp Require Import base option list strings pretty gmap.

Local Open Scope string_scope.
Local Open Scope list_scope.
Local Open Scope Z_scope.

(** ** Exceptions and the outcome monad *)

Inductive exn := KeyError | TypeError.

Inductive outcome (A : Type) : Type :=
| Ok (a : A)
| Raise (e : exn)
| OutOfFuel.

Arguments Ok {A} a.
Arguments Raise {A} e.
Arguments OutOfFuel {A}.

#[global] Instance outcome_ret : MRet outcome := λ A a, Ok a.

#[global] Instance outcome_bind : MBind outcome := λ A B f m,
  match m with
  | Ok a => f a
  | Raise e => Raise e
  | OutOfFuel => OutOfFuel
  end.

(** A [for] loop whose body may raise. *)
Fixpoint for_each {A B : Type} (body : B → A → outcome B) (l : list A) (b : B)
  : outcome B :=
  match l with
  | [] => Ok b
  | x :: l' => b' ← body b x; for_each body l' b'
  end.

(** A list comprehension whose element expression may raise. *)
Fixpoint comprehension {A B : Type} (f : A → outcome B) (l : list A)
  : outcome (list B) :=
  match l with
  | [] => Ok []
  | x :: l' => y ← f x; ys ← comprehension f l'; Ok (y :: ys)
  end.

(** ** Signature documents *)

Record sig_meta := SigMeta {
  rule_id : string;
  rule_version : option Z
}.

Record sig := Sig {
  name : option string;
  meta : option sig_meta;
  type : string;
  depends : option (list string)
}.

#[global] Instance sig_meta_eq_dec : EqDecision sig_meta.
Proof. solve_decision. Defined.

#[global] Instance sig_eq_dec : EqDecision sig.
Proof. solve_decision. Defined.

(** [s['name']] *)
Definition get_name (s : sig) : outcome string :=
  match name s with
  | Some n => Ok n
  | None => Raise KeyError
  end.

(** [for d in r['depends']]: iterating [None] raises. *)
Definition iter_depends (s : sig) : outcome (list string) :=
  match depends s with
  | Some ds => Ok ds
  | None => Raise TypeError
  end.

(** [s['depends'] is None or len(s['depends']) == 0] *)
Definition no_depends (s : sig) : bool :=
  match depends s with
  | None => true
  | Some [] => true
  | Some (_ :: _) => false
  end.

Definition is_global (s : sig) : bool := String.prefix "global" (type s).
Definition is_private (s : sig) : bool := String.prefix "private" (type s).

(** ** Duplicate resolution (safe mode), lines 273-290 *)

Fixpoint dict_get (k : string) (m : list (string * sig)) : option sig :=
  match m with
  | [] => None
  | (k', v) :: m' => if decide (k = k') then Some v else dict_get k m'
  end.

Fixpoint dict_set (k : string) (v : sig) (m : list (string * sig))
  : list (string * sig) :=
  match m with
  | [] => [(k, v)]
  | (k', v') :: m' =>
      if decide (k = k') then (k, v) :: m' else (k', v') :: dict_set k v m'
  end.

Definition dict_values (m : list (string * sig)) : list sig := m.*2.

(** [int(s.get('meta', {}).get('rule_version', '1'))] *)
Definition version (s : sig) : Z := default 1 (meta s ≫= rule_version).

(** [int(p.get('meta', {}).get('rule_version', '0'))] for
    [p = rules_map.get(name, {})] *)
Definition pversion (p : option sig) : Z :=
  default 0 ((p ≫= meta) ≫= rule_version).

Definition dedup_step (st : list (string * sig) * list string) (s : sig)
  : list (string * sig) * list string :=
  let '(rules_map, duplicate_rules) := st in
  match name s with
  | None => st
  | Some n =>
      if decide (n = "") then st
      else if version s <? pversion (dict_get n rules_map)
           then (rules_map, duplicate_rules ++ [n])
           else (dict_set n s rules_map, duplicate_rules)
  end.

Definition dedup (signature_list : list sig)
  : list (string * sig) * list string :=
  fold_left dedup_step signature_list ([], []).

(** ** Partition into buckets, lines 292-308 *)

Record buckets := Buckets {
  global_rules : list sig;
  private_rules_no_dep : list sig;
  private_rules_dep : list sig;
  rules_no_dep : list sig;
  rules_dep : list sig
}.

Definition no_buckets : buckets := Buckets [] [] [] [] [].

(** [name_map.get(d, False)] *)
Definition name_map_get (name_map : gmap string bool) (d : string) : bool :=
  default false (name_map !! d).

Definition classify (st : buckets * gmap string bool) (s : sig)
  : outcome (buckets * gmap string bool) :=
  let '(b, name_map) := st in
  if is_global s then
    n ← get_name s;
    Ok (Buckets (global_rules b ++ [s]) (private_rules_no_dep b)
          (private_rules_dep b) (rules_no_dep b) (rules_dep b),
        <[n := true]> name_map)
  else if is_private s then
    if no_depends s then
      n ← get_name s;
      Ok (Buckets (global_rules b) (private_rules_no_dep b ++ [s])
            (private_rules_dep b) (rules_no_dep b) (rules_dep b),
          <[n := true]> name_map)
    else
      Ok (Buckets (global_rules b) (private_rules_no_dep b)
            (private_rules_dep b ++ [s]) (rules_no_dep b) (rules_dep b),
          name_map)
  else
    if no_depends s then
      n ← get_name s;
      Ok (Buckets (global_rules b) (private_rules_no_dep b)
            (private_rules_dep b) (rules_no_dep b ++ [s]) (rules_dep b),
          <[n := true]> name_map)
    else
      Ok (Buckets (global_rules b) (private_rules_no_dep b)
            (private_rules_dep b) (rules_no_dep b) (rules_dep b ++ [s]),
          name_map).

Definition partition (signature_list : list sig)
  : outcome (buckets * gmap string bool) :=
  for_each classify signature_list (no_buckets, ∅).

(** ** [sorted(bucket, key=lambda k: k['meta']['rule_id'])], lines 310-314

    The keys are computed first (a missing [meta] raises), then the list is
    sorted stably on them; strings compare by code point. *)

Definition sort_key (k : sig) : outcome string :=
  match meta k with
  | Some m => Ok (rule_id m)
  | None => Raise KeyError
  end.

Fixpoint insert_by_key (kx : string) (x : sig) (l : list (string * sig))
  : list (string * sig) :=
  match l with
  | [] => [(kx, x)]
  | (ky, y) :: l' =>
      if String.leb kx ky then (kx, x) :: (ky, y) :: l'
      else (ky, y) :: insert_by_key kx x l'
  end.

Fixpoint sort_keyed (l : list (string * sig)) : list (string * sig) :=
  match l with
  | [] => []
  | (kx, x) :: l' => insert_by_key kx x (sort_keyed l')
  end.

Definition sorted_by_rule_id (l : list sig) : outcome (list sig) :=
  keys ← comprehension sort_key l;
  Ok (sort_keyed (zip keys l)).*2.

(** ** Dependency resolution, lines 316-366 *)

Record env := Env {
  name_map : gmap string bool;
  signature_list : list sig;
  error_rules : list string
}.

(** The inner [for d in r['depends']] with its [break]. *)
Fixpoint missing_dep (name_map : gmap string bool) (ds : list string) : bool :=
  match ds with
  | [] => false
  | d :: ds' => if negb (name_map_get name_map d) then true
                else missing_dep name_map ds'
  end.

(** One iteration of [for r in private_rules_dep] ([for r in rules_dep]). *)
Definition scan_step (st : env * list sig) (r : sig) : outcome (env * list sig) :=
  let '(e, new_rules_dep) := st in
  ds ← iter_depends r;
  if missing_dep (name_map e) ds then Ok (e, new_rules_dep ++ [r])
  else
    n ← get_name r;
    Ok (Env (<[n := true]> (name_map e)) (signature_list e ++ [r])
          (error_rules e),
        new_rules_dep).

Definition scan (e : env) (rules : list sig) : outcome (env * list sig) :=
  for_each scan_step rules (e, []).

(** [for s in rules: name_map[s['name']] = True] *)
Definition mark_resolved (name_map : gmap string bool) (s : sig)
  : outcome (gmap string bool) :=
  n ← get_name s; Ok (<[n := true]> name_map).

(** The [if not safe:] block shared by the two loops. *)
Definition force_include (safe : bool) (e : env) (rules : list sig)
  : outcome env :=
  if negb safe then
    name_map' ← for_each mark_resolved rules (name_map e);
    Ok (Env name_map' (signature_list e ++ rules) (error_rules e))
  else Ok e.

(** [while private_rules_dep:], lines 317-341 *)
Fixpoint private_loop (fuel : nat) (safe : bool) (e : env)
    (private_rules_dep : list sig) : outcome env :=
  match private_rules_dep with
  | [] => Ok e
  | _ :: _ =>
      match fuel with
      | O => OutOfFuel
      | S fuel' =>
          '(e1, new_private_rules_dep) ← scan e private_rules_dep;
          if bool_decide (private_rules_dep = new_private_rules_dep) then
            errs ← comprehension iter_depends private_rules_dep;
            let e2 := Env (name_map e1) (signature_list e1)
                        (error_rules e1 ++ concat errs) in
            e3 ← force_include safe e2 private_rules_dep;
            private_loop fuel' safe e3 []
          else private_loop fuel' safe e1 new_private_rules_dep
      end
  end.

(** [while rules_dep:], lines 344-366 *)
Fixpoint general_loop (fuel : nat) (safe : bool) (e : env)
    (rules_dep : list sig) : outcome env :=
  match rules_dep with
  | [] => Ok e
  | _ :: _ =>
      match fuel with
      | O => OutOfFuel
      | S fuel' =>
          '(e1, new_rules_dep) ← scan e rules_dep;
          if bool_decide (rules_dep = new_rules_dep) then
            errs ← comprehension get_name rules_dep;
            let e2 := Env (name_map e1) (signature_list e1)
                        (error_rules e1 ++ errs) in
            e3 ← force_include safe e2 rules_dep;
            general_loop fuel' safe e3 []
          else general_loop fuel' safe e1 new_rules_dep
      end
  end.

(** ** The sort of the fetched signatures, lines 264-367 *)

Record bundle := Bundle {
  bundle_rules : list sig;
  bundle_duplicates : list string;
  bundle_errors : list string
}.

(** The state in which the private loop starts: the duplicate report, the
    sorted buckets and [name_map], with [signature_list] already holding
    [global_rules + private_rules_no_dep]. *)
Definition prepare (safe : bool) (fetched : list sig)
  : outcome (list string * buckets * env) :=
  let '(signature_list, duplicate_rules) :=
    if safe then let '(rules_map, dups) := dedup fetched in
                 (dict_values rules_map, dups)
    else (fetched, []) in
  '(b, name_map) ← partition signature_list;
  global_rules' ← sorted_by_rule_id (global_rules b);
  private_rules_no_dep' ← sorted_by_rule_id (private_rules_no_dep b);
  rules_no_dep' ← sorted_by_rule_id (rules_no_dep b);
  private_rules_dep' ← sorted_by_rule_id (private_rules_dep b);
  rules_dep' ← sorted_by_rule_id (rules_dep b);
  Ok (duplicate_rules,
      Buckets global_rules' private_rules_no_dep' private_rules_dep'
        rules_no_dep' rules_dep',
      Env name_map (global_rules' ++ private_rules_no_dep') []).

Definition sort_rules (safe : bool) (fetched : list sig) : outcome bundle :=
  '(duplicate_rules, b, e) ← prepare safe fetched;
  e ← private_loop (length (private_rules_dep b)) safe e (private_rules_dep b);
  let e := Env (name_map e) (signature_list e ++ rules_no_dep b)
             (error_rules e) in
  e ← general_loop (length (rules_dep b)) safe e (rules_dep b);
  Ok (Bundle (signature_list e) duplicate_rules (error_rules e)).

(** ** The header of the rule file, lines 369-405 *)

Definition nl : string := String (ascii_of_nat 10) EmptyString.
Definition tab : string := String (ascii_of_nat 9) EmptyString.

(** The dedented error template, formatted. *)
Definition error_block (title msg : string) (rules : list string) : string :=
  nl +:+ "// [ERROR] " +:+ title +:+ msg +:+ ":" +:+ nl
     +:+ "//" +:+ nl
     +:+ "//" +:+ tab +:+ String.concat (nl +:+ "//" +:+ tab) rules +:+ nl
     +:+ "//" +:+ nl.

Definition error_text (safe : bool) (duplicate_rules error_rules : list string)
  : string :=
  let error := "" in
  let error :=
    match duplicate_rules with
    | [] => error
    | _ :: _ =>
        error +:+ error_block "Duplicates rules "
                    (if safe then "were skipped" else "exist") duplicate_rules
    end in
  match error_rules with
  | [] => error
  | _ :: _ =>
      error +:+ error_block "Some rules "
                  ((if safe then "were skipped due to" else "are")
                     +:+ " missing dependencies") error_rules
  end.

Definition header (query error last_modified query_hash : string) : string :=
  "// Signatures last updated: " +:+ last_modified +:+ nl
    +:+ "// Yara file unique identifier: " +:+ query_hash +:+ nl
    +:+ "// Query executed to find signatures:" +:+ nl
    +:+ "//" +:+ nl
    +:+ "//" +:+ tab +:+ query +:+ nl
    +:+ "// " +:+ error +:+ nl
    +:+ "// Number of rules in file:" +:+ nl
    +:+ "//" +:+ nl.

(** ** The handler and its cache, lines 206-258 and 407-415

    The collaborators are the cache store (a finite map from fingerprint to
    document), the datastore (its last-modification stamp and the result of
    [search] followed by [multiget]), the digest and the rule serialiser.
    Every call to a collaborator is recorded in a trace. Requests are
    handled one after the other and a read of the cache store does not fail,
    so the lock only leaves its mark in the trace and the [except] branch of
    [_get_cached_signatures] is not taken. *)

Record response := FileResponse {
  body : string;
  filename : string;
  size : nat;
  content_type : string
}.

Inductive event :=
| CacheGet (key : string)
| LockAcquire (lock_name : string)
| Search (query access : string)
| CacheSave (key : string).

Record world := World {
  signature_cache : gmap string string;
  trace : list event
}.

Record storage := Storage {
  get_signature_last_modified : string;
  search_multiget : string → string → list sig
}.

Record request_args := RequestArgs {
  arg_query : option string;
  arg_safe : option string
}.

Definition make_file_response (s query_hash : string) : response :=
  FileResponse s ("al_yara_signatures_" +:+ substring 0 7 query_hash +:+ ".yar")
    (String.length s) "text/yara".

Definition _get_cached_signatures (w : world) (query_hash : string)
  : world * option response :=
  let w' := World (signature_cache w) (trace w ++ [CacheGet query_hash]) in
  match signature_cache w !! query_hash with
  | None => (w', None)
  | Some s => (w', Some (make_file_response s query_hash))
  end.

(** [request.args.get('query', 'meta.al_status:DEPLOYED')] *)
Definition query_of (args : request_args) : string :=
  default "meta.al_status:DEPLOYED" (arg_query args).

Section Download.

Variable sha256_hexdigest : string → string.
Variable dump_rule_file : list sig → string.

Definition fingerprint (query access last_modified : string) : string :=
  sha256_hexdigest (query +:+ "." +:+ access +:+ "." +:+ last_modified).

Definition download_signatures (w : world) (st : storage)
    (args : request_args) (access : string) : world * outcome response :=
  let query := query_of args in
  let safe := bool_decide (default "false" (arg_safe args) = "true") in
  let last_modified := get_signature_last_modified st in
  let query_hash := fingerprint query access last_modified in
  match _get_cached_signatures w query_hash with
  | (w, Some response) => (w, Ok response)
  | (w, None) =>
      let w := World (signature_cache w)
                 (trace w ++ [LockAcquire (query_hash +:+ ".yar")]) in
      match _get_cached_signatures w query_hash with
      | (w, Some response) => (w, Ok response)
      | (w, None) =>
          let w := World (signature_cache w)
                     (trace w ++ [Search query access]) in
          match sort_rules safe (search_multiget st query access) with
          | Ok b =>
              let error :=
                error_text safe (bundle_duplicates b) (bundle_errors b) in
              let rule_file_bin :=
                header query error last_modified query_hash
                  +:+ dump_rule_file (bundle_rules b) in
              (World (<[query_hash := rule_file_bin]> (signature_cache w))
                 (trace w ++ [CacheSave query_hash]),
               Ok (make_file_response rule_file_bin query_hash))
          | Raise e => (w, Raise e)
          | OutOfFuel => (w, OutOfFuel)
          end
      end
  end.

End Download.

(** * The other handlers: services and signature documents

    The datastore is a key-value store: [get(key)] returns the stored
    document or [None], [save(key, doc)] binds the key and answers [True],
    [delete(key)] removes the binding and answers [True]. A handler returns
    the arguments it gives to [make_api_response]: the data, the error
    message and the status code (200 when the handler gives none). *)

Inductive json :=
| JNull
| JBool (b : bool)
| JNum (z : Z)
| JStr (s : string)
| JList (l : list json)
| JDict (m : list (string * json)).

Record user := User {
  uname : string;
  user_classification : string;
  is_admin : bool
}.

(** The keys of a signature document that [change_status], [get_signature]
    and [delete_signature] read or assign. *)
Record document := Document {
  doc_name : string;
  doc_type : string;
  doc_classification : option string;     (* meta.classification *)
  doc_rule_id : string;                   (* meta.rule_id *)
  doc_rule_version : Z;                   (* meta.rule_version *)
  doc_al_status : string;                 (* meta.al_status *)
  doc_state_change_date : option string;  (* meta_extra.al_state_change_date *)
  doc_state_change_user : option string   (* meta_extra.al_state_change_user *)
}.

Inductive payload :=
| NoData                               (* "" *)
| Success (b : bool)                   (* {"success": b} *)
| ServiceData (d : gmap string json)
| SignatureData (d : document).

Record api_response := ApiResponse {
  api_data : payload;
  api_error : string;
  api_status : nat
}.

(** ** service.py *)

(** [servicename != data['name']] *)
Definition differs_from (servicename : string) (v : json) : bool :=
  match v with
  | JStr s => bool_decide (servicename ≠ s)
  | _ => true
  end.

(** The truth value of a dict read with [as_obj=False]: [None] and the empty
    dict are false. *)
Definition dict_truthy (d : option (gmap string json)) : bool :=
  match d with
  | Some d => bool_decide (d ≠ ∅)
  | None => false
  end.

(** [add_service], lines 16-64: [get] without [as_obj=False] returns a model
    object, which is true, or [None]. *)
Definition add_service (store : gmap string (gmap string json))
    (servicename : string) (data : gmap string json)
  : gmap string (gmap string json) * api_response :=
  match store !! servicename with
  | None => (<[servicename := data]> store, ApiResponse (Success true) "" 200)
  | Some _ =>
      (store,
       ApiResponse (Success false)
         "You cannot add a service that already exists..." 400)
  end.

(** [get_service], lines 104-151 *)
Definition get_service (store : gmap string (gmap string json))
    (servicename : string) : api_response :=
  let service := store !! servicename in
  if dict_truthy service then ApiResponse (ServiceData (default ∅ service)) "" 200
  else ApiResponse NoData (servicename +:+ " service does not exist") 404.

(** [remove_service], lines 227-251 *)
Definition remove_service (store : gmap string (gmap string json))
    (servicename : string) : gmap string (gmap string json) * api_response :=
  match store !! servicename with
  | Some _ => (delete servicename store, ApiResponse (Success true) "" 200)
  | None =>
      (store,
       ApiResponse (Success false)
         ("Service " +:+ servicename +:+ " does not exist") 404)
  end.

(** [set_service], lines 254-308; [current_service.update(data)] lets the
    keys of [data] win. *)
Definition set_service (store : gmap string (gmap string json))
    (servicename : string) (data : gmap string json)
  : gmap string (gmap string json) * api_response :=
  let current_service := store !! servicename in
  if negb (dict_truthy current_service) then
    (store,
     ApiResponse (Success false)
       "The service you are trying to modify does not exist" 404)
  else
    match data !! "name" with
    | Some v =>
        if differs_from servicename v then
          (store,
           ApiResponse (Success false) "You cannot change the service name" 400)
        else
          (<[servicename := data ∪ default ∅ current_service]> store,
           ApiResponse (Success true) "" 200)
    | None =>
        (<[servicename := data ∪ default ∅ current_service]> store,
         ApiResponse (Success true) "" 200)
    end.

(** ** signature.py: [change_status], [delete_signature], [get_signature] *)

(** [f"{sid}r.{rev}"] *)
Definition signature_key (sid rev : string) : string := sid +:+ "r." +:+ rev.

(** ["%sr.%s" % (other_sid, other_rev)], the revision being an integer *)
Definition document_key (d : document) : string :=
  signature_key (doc_rule_id d) (pretty (doc_rule_version d)).

(** The result of the query
    ["meta.al_status:{status} AND id:{sid}* AND NOT id:{key}"] with
    [fl="id"]: the ids of the stored documents in that status whose id starts
    with [sid], the id [key] excepted. *)
Definition search_other_revisions (store : gmap string document)
    (status sid key : string) : list string :=
  (filter (λ kd : string * document,
             doc_al_status kd.2 = status ∧ String.prefix sid kd.1 = true
             ∧ kd.1 ≠ key)
     (map_to_list store)).*1.

Definition multiget (store : gmap string document) (keys : list string)
  : list document :=
  omap (λ k, store !! k) keys.

Definition set_status (today uname status : string) (d : document) : document :=
  Document (doc_name d) (doc_type d) (doc_classification d) (doc_rule_id d)
    (doc_rule_version d) status (Some today) (Some uname).

(** The body of [for other in STORAGE.signature.multiget(keys, ...)] *)
Definition disable_other (today uname : string) (store : gmap string document)
    (other : document) : gmap string document :=
  <[document_key other := set_status today uname "DISABLED" other]> store.

Section SignatureHandlers.

Variable DEPLOYED_STATUSES STALE_STATUSES DRAFT_STATUSES : list string.
Variable UNRESTRICTED : string.
Variable is_accessible : string → string → bool.

(** [Classification.is_accessible(user['classification'],
    data['meta'].get('classification', Classification.UNRESTRICTED))] *)
Definition may_access (u : user) (d : document) : bool :=
  is_accessible (user_classification u)
    (default UNRESTRICTED (doc_classification d)).

(** [change_status], lines 97-172; [today] is [now_as_iso()]. *)
Definition change_status (store : gmap string document) (u : user)
    (today sid rev status : string) : gmap string document * api_response :=
  let possible_statuses := DEPLOYED_STATUSES ++ DRAFT_STATUSES in
  if bool_decide (status ∉ possible_statuses) then
    (store,
     ApiResponse NoData
       ("You cannot apply the status " +:+ status +:+ " on yara rules.") 403)
  else if negb (is_admin u) && bool_decide (status ∈ DEPLOYED_STATUSES) then
    (store,
     ApiResponse NoData
       "Only admins are allowed to change the signature status to a deployed status."
       403)
  else
    let key := signature_key sid rev in
    match store !! key with
    | Some data =>
        if negb (may_access u data) then
          (store,
           ApiResponse NoData
             "You are not allowed change status on this signature" 403)
        else if bool_decide (doc_al_status data ∈ STALE_STATUSES)
                && bool_decide (status ∉ DRAFT_STATUSES) then
          (store,
           ApiResponse NoData
             ("Only action available while signature in "
                +:+ doc_al_status data
                +:+ " status is to change signature to a DRAFT status. ("
                +:+ String.concat ", " DRAFT_STATUSES +:+ ")") 403)
        else if bool_decide (doc_al_status data ∈ DEPLOYED_STATUSES)
                && bool_decide (status ∈ DRAFT_STATUSES) then
          (store,
           ApiResponse NoData
             ("You cannot change the status of signature " +:+ sid +:+ " r."
                +:+ rev +:+ " from " +:+ doc_al_status data +:+ " to "
                +:+ status +:+ ".") 403)
        else
          let store :=
            if bool_decide (status ∉ ["DISABLED"; "INVALID"; "TESTING"]) then
              let keys := search_other_revisions store status sid key in
              foldl (disable_other today (uname u)) store (multiget store keys)
            else store in
          (<[key := set_status today (uname u) status data]> store,
           ApiResponse (Success true) "" 200)
    | None =>
        (store,
         ApiResponse NoData
           ("Signature not found. (" +:+ sid +:+ " r." +:+ rev +:+ ")") 404)
    end.

(** [delete_signature], lines 175-202 *)
Definition delete_signature (store : gmap string document) (u : user)
    (sid rev : string) : gmap string document * api_response :=
  match store !! signature_key sid rev with
  | Some data =>
      if negb (may_access u data) then
        (store,
         ApiResponse NoData "Your are not allowed to delete this signature." 403)
      else
        (delete (signature_key sid rev) store, ApiResponse (Success true) "" 200)
  | None =>
      (store,
       ApiResponse NoData
         ("Signature not found. (" +:+ sid +:+ " r." +:+ rev +:+ ")") 404)
  end.

(** [get_signature], lines 418-454 *)
Definition get_signature (store : gmap string document) (u : user)
    (sid rev : string) : api_response :=
  match store !! signature_key sid rev with
  | Some data =>
      if negb (may_access u data) then
        ApiResponse NoData "Your are not allowed to view this signature." 403
      else ApiResponse (SignatureData data) "" 200
  | None =>
      ApiResponse NoData
        ("Signature not found. (" +:+ sid +:+ " r." +:+ rev +:+ ")") 404
  end.

End SignatureHandlers.

(** * Vocabulary of the properties *)

(** The truth value of [name] in [if not name: continue]. *)
Definition named (s : sig) : bool :=
  match name s with
  | Some n => bool_decide (n ≠ "")
  | None => false
  end.

(** Every entry of [rules_map] is filed under the non-empty name of its
    value, and no key occurs twice. *)
Definition well_keyed (m : list (string * sig)) : Prop :=
  NoDup m.*1 ∧ Forall (λ kv, name kv.2 = Some kv.1 ∧ kv.1 ≠ "") m.

(** What [rules_map] holds for the name [n] after the records of [l]. *)
Definition holder_of (n : string) (l : list sig) (h : option sig) : Prop :=
  match h with
  | None => ∀ s, s ∈ l → name s ≠ Some n
  | Some r =>
      ∃ l1 l2, l = l1 ++ r :: l2 ∧ name r = Some n
        ∧ (∀ s, s ∈ l1 → name s = Some n → version s ≤ version r)
        ∧ (∀ s, s ∈ l2 → name s = Some n → version s < version r)
  end.

(** A name is resolved when [name_map.get] answers [True] for it. *)
Definition resolved (name_map : gmap string bool) (n : string) : Prop :=
  name_map_get name_map n = true.

(** The names carried by the records of a list. *)
Definition names_of (l : list sig) : list string := omap name l.

Definition depends_of (r : sig) : list string := default [] (depends r).

(** Every dependency name of every record of [out] is a seed or the name of
    a record that precedes it in [out]. *)
Definition dependencies_precede (seed : string → Prop) (out : list sig) : Prop :=
  ∀ pre r post d,
    out = pre ++ r :: post → d ∈ depends_of r → seed d ∨ d ∈ names_of pre.

(** A record one of whose dependency names is neither a seed nor the name of
    a placed record. *)
Definition unresolvable (seed : string → Prop) (placed : list sig) (r : sig)
  : Prop :=
  ∃ d, d ∈ depends_of r ∧ ¬ (seed d ∨ d ∈ names_of placed).

(** The bucket a record is filed in, lines 294-308. *)
Definition in_private_no_dep (s : sig) : bool :=
  negb (is_global s) && is_private s && no_depends s.
Definition in_private_dep (s : sig) : bool :=
  negb (is_global s) && is_private s && negb (no_depends s).
Definition in_no_dep (s : sig) : bool :=
  negb (is_global s) && negb (is_private s) && no_depends s.
Definition in_dep (s : sig) : bool :=
  negb (is_global s) && negb (is_private s) && negb (no_depends s).

(** The two loops differ in what a stalled round reports only. *)
Definition report_depends (rules : list sig) : outcome (list string) :=
  errs ← comprehension iter_depends rules; Ok (concat errs).

Definition report_names (rules : list sig) : outcome (list string) :=
  comprehension get_name rules.

Fixpoint dep_loop (report : list sig → outcome (list string)) (fuel : nat)
    (safe : bool) (e : env) (rules : list sig) : outcome env :=
  match rules with
  | [] => Ok e
  | _ :: _ =>
      match fuel with
      | O => OutOfFuel
      | S fuel' =>
          '(e1, new_rules) ← scan e rules;
          if bool_decide (rules = new_rules) then
            errs ← report rules;
            let e2 := Env (name_map e1) (signature_list e1)
                        (error_rules e1 ++ errs) in
            e3 ← force_include safe e2 rules;
            dep_loop report fuel' safe e3 []
          else dep_loop report fuel' safe e1 new_rules
      end
  end.

(** A record the loops can handle without raising: it has a name and a
    dependency list. *)
Definition well_formed (r : sig) : Prop :=
  is_Some (name r) ∧ is_Some (depends r).

(** The records that are partitioned: the values of [rules_map] in safe
    mode, the fetched records otherwise (lines 290-293). *)
Definition resolution_input (safe : bool) (fetched : list sig) : list sig :=
  if safe then dict_values (dedup fetched).1 else fetched.

(** The dependency names of [r] that [name_map] does not resolve. *)
Definition unsatisfied_depends (name_map : gmap string bool) (r : sig)
  : list string :=
  filter (λ d, name_map_get name_map d = false) (depends_of r).

(** The sort key of a record that has a meta block. *)
Definition rule_id_of (r : sig) : string := default "" (rule_id <$> meta r).

(** [request.args.get('safe', "false") == 'true'] *)
Definition safe_of (args : request_args) : bool :=
  bool_decide (default "false" (arg_safe args) = "true").

(** Every stored service configuration that has a [name] has its own key
    as name. *)
Definition name_consistent (store : gmap string (gmap string json)) : Prop :=
  ∀ n d v, store !! n = Some d → d !! "name" = Some v → v = JStr n.

(** Every signature document is stored under the key made of its rule id
    and its revision. *)
Definition keyed_by_revision (store : gmap string document) : Prop :=
  ∀ k d, store !! k = Some d → k = document_key d.

(** Sample documents for the concrete runs below. *)
Definition sample (n id : string) (v : Z) (ty : string)
    (deps : option (list string)) : sig :=
  Sig (Some n) (Some (SigMeta id (Some v))) ty deps.

Definition rule_x1 : sig := sample "X" "ORG_000001" 1 "rule" None.
Definition rule_x2 : sig := sample "X" "ORG_000002" 3 "rule" None.
Definition rule_x3 : sig := sample "X" "ORG_000003" 2 "rule" None.
Definition rule_a : sig := sample "A" "ORG_000004" 1 "rule" (Some ["B"]).
Definition rule_b : sig := sample "B" "ORG_000005" 1 "rule" (Some ["C"]).
Definition rule_c : sig := sample "C" "ORG_000006" 1 "rule" None.
Definition global_g : sig := sample "G" "ORG_000007" 1 "global rule" None.
Definition private_a : sig :=
  sample "A" "ORG_000008" 1 "private rule" (Some ["G"; "B"]).
Definition unnamed_rule : sig :=
  Sig None (Some (SigMeta "ORG_000009" (Some 1))) "rule" None.
Definition empty_named_rule : sig := sample "" "ORG_000010" 1 "rule" None.
Definition private_p : sig :=
  sample "P" "ORG_000011" 1 "private rule" (Some ["Q"]).
Definition private_q : sig :=
  sample "Q" "ORG_000012" 1 "private rule" (Some ["G"]).

(** A fetched list with records in every bucket, and the states in which
    the handler enters its two loops on it. *)
Definition mixed_fetched : list sig :=
  [global_g; private_p; private_q; rule_a; rule_b; rule_c].
Definition private_start : env :=
  Env (<["C" := true]> (<["G" := true]> ∅)) [global_g] [].
Definition general_start : env :=
  Env (<["P" := true]> (<["Q" := true]> (<["C" := true]> (<["G" := true]> ∅))))
    [global_g; private_q; private_p; rule_c] [].

Definition admin : user := User "admin" "U" true.
Definition analyst : user := User "analyst" "U" false.
Definition revision_1 : document :=
  Document "X" "rule" None "ORG_000001" 1 "DEPLOYED" None None.
Definition revision_2 : document :=
  Document "X" "rule" None "ORG_000001" 2 "TESTING" None None.
Definition two_revisions : gmap string document :=
  <["ORG_000001r.1" := revision_1]> (<["ORG_000001r.2" := revision_2]> ∅).
Definition two_revisions_deployed : gmap string document :=
  <["ORG_000001r.1" := Document "X" "rule" None "ORG_000001" 1 "DISABLED"
                          (Some "2020-01-01") (Some "admin")]>
    (<["ORG_000001r.2" := Document "X" "rule" None "ORG_000001" 2 "DEPLOYED"
                            (Some "2020-01-01") (Some "admin")]> ∅).

(** * Properties *)

(** ** The outcome monad *)

Lemma bind_Ok {A B} (m : outcome A) (f : A → outcome B) (b : B) :
  m ≫= f = Ok b → ∃ a, m = Ok a ∧ f a = Ok b.
Proof. destruct m; simpl; intros H; try discriminate. eauto. Qed.

Lemma bind_not_out_of_fuel {A B} (m : outcome A) (f : A → outcome B) :
  m ≠ OutOfFuel → (∀ a, m = Ok a → f a ≠ OutOfFuel) → m ≫= f ≠ OutOfFuel.
Proof. destruct m; simpl; intros H1 H2; auto; discriminate. Qed.

Ltac inv_bind H :=
  let a := fresh "a" in
  let Ha := fresh "Hrun" in
  apply bind_Ok in H; destruct H as (a & Ha & H).

Lemma for_each_app {A B} (body : B → A → outcome B) (l1 l2 : list A) (b : B) :
  for_each body (l1 ++ l2) b = (for_each body l1 b ≫= for_each body l2).
Proof.
  revert b; induction l1 as [|x l1 IH]; intros b; simpl; [done|].
  destruct (body b x); simpl; auto.
Qed.

Lemma comprehension_length {A B} (f : A → outcome B) (l : list A) (ys : list B) :
  comprehension f l = Ok ys → length ys = length l.
Proof.
  revert ys; induction l as [|x l IH]; intros ys H; simpl in H.
  - by inversion H.
  - inv_bind H. inv_bind H. inversion H; subst. simpl. f_equal. eauto.
Qed.

Lemma comprehension_Ok {A B} (f : A → outcome B) (g : A → B) (l : list A) :
  (∀ x, x ∈ l → f x = Ok (g x)) → comprehension f l = Ok (g <$> l).
Proof.
  induction l as [|x l IH]; intros H; simpl; [done|].
  rewrite (H x) by left. simpl. rewrite IH; [done|].
  intros y Hy. apply H. by right.
Qed.

Lemma comprehension_inv {A B} (f : A → outcome B) (l : list A) (ys : list B) :
  comprehension f l = Ok ys → Forall2 (λ x y, f x = Ok y) l ys.
Proof.
  revert ys; induction l as [|x l IH]; intros ys H; simpl in H.
  - inversion H. constructor.
  - inv_bind H. inv_bind H. inversion H; subst. constructor; eauto.
Qed.

Lemma for_each_not_out_of_fuel {A B} (body : B → A → outcome B) (l : list A) :
  (∀ b x, body b x ≠ OutOfFuel) → ∀ b, for_each body l b ≠ OutOfFuel.
Proof.
  intros Hbody. induction l as [|x l IH]; intros b; simpl; [done|].
  apply bind_not_out_of_fuel; auto.
Qed.

Lemma comprehension_not_out_of_fuel {A B} (f : A → outcome B) (l : list A) :
  (∀ x, f x ≠ OutOfFuel) → comprehension f l ≠ OutOfFuel.
Proof.
  intros Hf. induction l as [|x l IH]; simpl; [done|].
  apply bind_not_out_of_fuel; [done|]. intros y _.
  apply bind_not_out_of_fuel; [done|]. done.
Qed.

Lemma for_each_total {A B} (body : B → A → outcome B) (P : A → Prop)
    (l : list A) :
  (∀ b x, P x → ∃ b', body b x = Ok b') → Forall P l →
  ∀ b, ∃ b', for_each body l b = Ok b'.
Proof.
  intros Hbody. induction 1 as [|x l Hx Hl IH]; intros b; simpl; [eauto|].
  destruct (Hbody b x Hx) as [b' ->]. simpl. apply IH.
Qed.

Lemma comprehension_total {A B} (f : A → outcome B) (P : A → Prop)
    (l : list A) :
  (∀ x, P x → ∃ y, f x = Ok y) → Forall P l → ∃ ys, comprehension f l = Ok ys.
Proof.
  intros Hf. induction 1 as [|x l Hx Hl IH]; simpl; [eauto|].
  destruct (Hf x Hx) as [y ->]. destruct IH as [ys ->]. simpl. eauto.
Qed.

(** ** Duplicate resolution *)

#[local] Arguments dedup_step : simpl never.

Lemma named_spec s : named s = true ↔ ∃ n, name s = Some n ∧ n ≠ "".
Proof.
  unfold named. destruct (name s) as [n|].
  - rewrite bool_decide_eq_true. naive_solver.
  - naive_solver.
Qed.

Lemma dedup_step_unnamed st s : named s = false → dedup_step st s = st.
Proof.
  unfold named, dedup_step. destruct st as [rm dups].
  destruct (name s) as [n|]; [|done].
  rewrite bool_decide_eq_false. intros Hn.
  destruct (decide (n = "")); [done|]. by destruct Hn.
Qed.

Lemma dedup_step_named rm dups s n :
  name s = Some n → n ≠ "" →
  dedup_step (rm, dups) s =
    if version s <? pversion (dict_get n rm) then (rm, dups ++ [n])
    else (dict_set n s rm, dups).
Proof.
  intros Hn Hne. unfold dedup_step. rewrite Hn.
  destruct (decide (n = "")); [done|]. done.
Qed.

Lemma fold_dedup_filter l st :
  fold_left dedup_step l st = fold_left dedup_step (filter (λ s, named s) l) st.
Proof.
  revert st; induction l as [|s l IH]; intros st; [done|].
  rewrite filter_cons. simpl. destruct (decide (named s)) as [H|H].
  - simpl. apply IH.
  - rewrite dedup_step_unnamed; [apply IH|]. by destruct (named s).
Qed.

Lemma dict_get_set_eq k v m : dict_get k (dict_set k v m) = Some v.
Proof.
  induction m as [|[k' v'] m IH]; simpl.
  - by rewrite decide_True.
  - destruct (decide (k = k')); simpl.
    + by rewrite decide_True.
    + by rewrite decide_False.
Qed.

Lemma dict_get_set_ne k k' v m :
  k' ≠ k → dict_get k' (dict_set k v m) = dict_get k' m.
Proof.
  intros Hne. induction m as [|[k0 v0] m IH]; simpl.
  - by rewrite decide_False.
  - destruct (decide (k = k0)) as [->|]; simpl.
    + by rewrite !decide_False.
    + by rewrite IH.
Qed.

Lemma dict_set_keys k v m k' :
  k' ∈ (dict_set k v m).*1 ↔ k' = k ∨ k' ∈ m.*1.
Proof.
  induction m as [|[k0 v0] m IH]; simpl.
  - set_solver.
  - destruct (decide (k = k0)) as [->|]; simpl; set_solver.
Qed.

Lemma dict_set_NoDup k v m : NoDup m.*1 → NoDup (dict_set k v m).*1.
Proof.
  induction m as [|[k0 v0] m IH]; simpl; intros Hnd.
  - apply NoDup_singleton.
  - inversion Hnd as [|? ? Hnotin Hnd']; subst.
    destruct (decide (k = k0)) as [->|Hne]; simpl.
    + by constructor.
    + constructor; [|by apply IH].
      rewrite dict_set_keys. naive_solver.
Qed.

Lemma dict_set_values k v m s :
  s ∈ dict_values (dict_set k v m) → s = v ∨ s ∈ dict_values m.
Proof.
  unfold dict_values. induction m as [|[k0 v0] m IH]; simpl.
  - set_solver.
  - destruct (decide (k = k0)) as [->|]; simpl; set_solver.
Qed.

Lemma dict_get_None k m : dict_get k m = None ↔ k ∉ m.*1.
Proof.
  induction m as [|[k0 v0] m IH]; simpl.
  - set_solver.
  - destruct (decide (k = k0)) as [->|]; set_solver.
Qed.

Lemma well_keyed_nil : well_keyed [].
Proof. split; constructor. Qed.

Lemma dict_set_Forall (P : string * sig → Prop) k v m :
  P (k, v) → Forall P m → Forall P (dict_set k v m).
Proof.
  intros Hkv. induction m as [|[k0 v0] m IH]; simpl; intros Hm.
  - by constructor.
  - inversion Hm; subst. destruct (decide (k = k0)); constructor; auto.
Qed.

Lemma dict_set_well_keyed k v m :
  name v = Some k → k ≠ "" → well_keyed m → well_keyed (dict_set k v m).
Proof.
  intros Hn Hne [Hnd Hall]. split.
  - by apply dict_set_NoDup.
  - by apply dict_set_Forall.
Qed.

Lemma dedup_step_well_keyed st s :
  well_keyed st.1 → well_keyed (dedup_step st s).1.
Proof.
  destruct st as [rm dups]. simpl. intros Hwk.
  destruct (named s) eqn:Hs.
  - apply named_spec in Hs as (n & Hn & Hne).
    rewrite (dedup_step_named _ _ _ n) by done.
    destruct (_ <? _); simpl; [done|]. by apply dict_set_well_keyed.
  - by rewrite dedup_step_unnamed.
Qed.

Lemma fold_dedup_well_keyed l st :
  well_keyed st.1 → well_keyed (fold_left dedup_step l st).1.
Proof.
  revert st; induction l as [|s l IH]; intros st H; simpl; [done|].
  apply IH. by apply dedup_step_well_keyed.
Qed.

Lemma dedup_well_keyed l : well_keyed (dedup l).1.
Proof. apply fold_dedup_well_keyed. apply well_keyed_nil. Qed.

(** The records of a given name among the values of a well-keyed map. *)
Lemma well_keyed_get m k v :
  well_keyed m → (k, v) ∈ m → dict_get k m = Some v.
Proof.
  intros [Hnd _]. induction m as [|[k0 v0] m IH]; simpl; intros Hin.
  - by apply elem_of_nil in Hin.
  - inversion Hnd as [|? ? Hnotin Hnd']; subst.
    apply elem_of_cons in Hin as [Heq|Hin].
    + inversion Heq; subst. by rewrite decide_True.
    + destruct (decide (k = k0)) as [->|]; [|by apply IH].
      destruct Hnotin. apply list_elem_of_fmap. by exists (k0, v).
Qed.

Lemma dict_get_elem k v m : dict_get k m = Some v → (k, v) ∈ m.
Proof.
  induction m as [|[k0 v0] m IH]; simpl; [done|].
  destruct (decide (k = k0)) as [->|]; intros H.
  - inversion H; subst. left.
  - right. auto.
Qed.

Lemma well_keyed_values m s n :
  well_keyed m → s ∈ dict_values m → name s = Some n →
  dict_get n m = Some s ∧ n ≠ "".
Proof.
  intros Hwk Hin Hn. unfold dict_values in Hin.
  apply list_elem_of_fmap in Hin as ([k v] & -> & Hin). simpl in Hn.
  destruct Hwk as [Hnd Hall]. pose proof Hall as Hall'.
  rewrite Forall_forall in Hall'. destruct (Hall' _ Hin) as [Hk Hne].
  simpl in Hk, Hne. rewrite Hn in Hk. inversion Hk; subst.
  split; [|done]. apply well_keyed_get; [by split|done].
Qed.

Lemma well_keyed_values_named m s :
  well_keyed m → s ∈ dict_values m → named s = true.
Proof.
  intros [_ Hall] Hin. unfold dict_values in Hin.
  apply list_elem_of_fmap in Hin as ([k v] & -> & Hin).
  rewrite Forall_forall in Hall. destruct (Hall _ Hin) as [Hk Hne].
  apply named_spec. eauto.
Qed.

(** The revision a holder is compared at agrees with the revision it came in
    with, as soon as that one is positive. *)
Lemma pversion_holder (h : sig) (v : Z) :
  1 ≤ version h → v < pversion (Some h) → v < version h.
Proof.
  unfold version, pversion. simpl.
  destruct (meta h) as [m|]; simpl; [|lia].
  destruct (rule_version m); simpl; lia.
Qed.

Lemma pversion_le_version (h : sig) : pversion (Some h) ≤ version h.
Proof.
  unfold version, pversion. simpl.
  destruct (meta h) as [m|]; simpl; [|lia].
  destruct (rule_version m); simpl; lia.
Qed.

Lemma holder_of_snoc_other n l h s :
  name s ≠ Some n → holder_of n l h → holder_of n (l ++ [s]) h.
Proof.
  intros Hs. destruct h as [r|]; simpl.
  - intros (l1 & l2 & -> & Hr & H1 & H2).
    exists l1, (l2 ++ [s]). split; [by rewrite <- app_assoc|].
    split; [done|]. split; [done|].
    intros s' Hin Hn. apply elem_of_app in Hin as [Hin|Hin]; [by apply H2|].
    apply list_elem_of_singleton in Hin. by subst.
  - intros H s' Hin. apply elem_of_app in Hin as [Hin|Hin]; [by apply H|].
    apply list_elem_of_singleton in Hin. by subst.
Qed.

Lemma holder_of_snoc_lower n l r s :
  name s = Some n → version s < version r →
  holder_of n l (Some r) → holder_of n (l ++ [s]) (Some r).
Proof.
  intros Hs Hlt (l1 & l2 & -> & Hr & H1 & H2).
  exists l1, (l2 ++ [s]). split; [by rewrite <- app_assoc|].
  split; [done|]. split; [done|].
  intros s' Hin Hn. apply elem_of_app in Hin as [Hin|Hin]; [by apply H2|].
  apply list_elem_of_singleton in Hin. by subst.
Qed.

Lemma holder_of_snoc_replace n l h s :
  name s = Some n → (∀ r, h = Some r → version r ≤ version s) →
  holder_of n l h → holder_of n (l ++ [s]) (Some s).
Proof.
  intros Hs Hle Hh. exists l, []. split; [done|]. split; [done|].
  split; [|intros s' Hin; by apply elem_of_nil in Hin].
  intros s' Hin Hn. destruct h as [r|]; simpl in Hh.
  - destruct Hh as (l1 & l2 & -> & Hr & H1 & H2).
    specialize (Hle r eq_refl).
    apply elem_of_app in Hin as [Hin|Hin]; [specialize (H1 _ Hin Hn); lia|].
    apply elem_of_cons in Hin as [->|Hin]; [lia|].
    specialize (H2 _ Hin Hn); lia.
  - by destruct (Hh _ Hin).
Qed.

Lemma fold_dedup_holder (l : list sig) (n : string) :
  (∀ s, s ∈ l → 1 ≤ version s) → n ≠ "" →
  holder_of n l (dict_get n (fold_left dedup_step l ([], [])).1).
Proof.
  intros Hpos Hne. induction l as [|s l IH] using rev_ind.
  - simpl. intros s Hin. by apply elem_of_nil in Hin.
  - rewrite fold_left_app. simpl.
    assert (Hl : ∀ s, s ∈ l → 1 ≤ version s).
    { intros s' Hin. apply Hpos. apply elem_of_app. by left. }
    assert (Hs : 1 ≤ version s).
    { apply Hpos. apply elem_of_app. right. left. }
    specialize (IH Hl).
    destruct (fold_left dedup_step l ([], [])) as [rm dups]. simpl in IH.
    destruct (named s) eqn:Hnamed.
    + apply named_spec in Hnamed as (k & Hk & Hkne).
      rewrite (dedup_step_named _ _ _ k) by done.
      destruct (decide (k = n)) as [->|Hkn].
      * destruct (Z.ltb_spec (version s) (pversion (dict_get n rm))) as [Hlt|Hge];
          simpl.
        -- destruct (dict_get n rm) as [h|] eqn:Hget.
           ++ apply holder_of_snoc_lower; [done| |done].
              apply pversion_holder; [|done].
              destruct IH as (l1 & l2 & -> & _). apply Hl.
              apply elem_of_app. right. left.
           ++ unfold pversion in Hlt. simpl in Hlt. lia.
        -- rewrite dict_get_set_eq.
           apply (holder_of_snoc_replace n l (dict_get n rm)); [done| |done].
           intros r Hr. rewrite Hr in Hge.
           assert (1 ≤ version r).
           { rewrite Hr in IH. destruct IH as (l1 & l2 & -> & _). apply Hl.
             apply elem_of_app. right. left. }
           unfold version, pversion in *. simpl in *.
           destruct (meta r) as [m|]; simpl in *; [|lia].
           destruct (rule_version m); simpl in *; lia.
      * assert (Hother : name s ≠ Some n) by congruence.
        destruct (_ <? _); simpl.
        -- by apply holder_of_snoc_other.
        -- rewrite dict_get_set_ne by done. by apply holder_of_snoc_other.
    + rewrite dedup_step_unnamed by done. simpl.
      apply holder_of_snoc_other; [|done].
      intros Hn. assert (named s = true); [|congruence].
      apply named_spec. eauto.
Qed.

(** In a well-keyed map the records named [n] are the holder of [n] alone. *)
Lemma well_keyed_sole_holder m n r :
  well_keyed m → dict_get n m = Some r →
  ∀ s, s ∈ dict_values m → name s = Some n → s = r.
Proof.
  intros Hwk Hget s Hin Hn.
  destruct (well_keyed_values m s n Hwk Hin Hn) as [Hs _]. congruence.
Qed.

(** C6. In safe mode, for every input whose records have positive revisions
    and every non-empty rule name occurring in it, the record that
    [rules_map] holds for that name after duplicate resolution is a record of
    the input with that name, no record of that name before it has a higher
    revision and every record of that name after it has a strictly lower one
    (so it has the maximal revision and is the last seen among those that
    share it); it is the only record of that name passed on; and a record
    whose revision is strictly lower than the holder's leaves the map as it
    is. *)
Theorem dedup_keeps_last_maximal (l : list sig) (n : string) :
  (∀ s, s ∈ l → 1 ≤ version s) → n ≠ "" →
  (∃ s, s ∈ l ∧ name s = Some n) →
  (∃ r l1 l2,
      dict_get n (dedup l).1 = Some r
      ∧ l = l1 ++ r :: l2 ∧ name r = Some n
      ∧ (∀ s, s ∈ l1 → name s = Some n → version s ≤ version r)
      ∧ (∀ s, s ∈ l2 → name s = Some n → version s < version r)
      ∧ (∀ s, s ∈ dict_values (dedup l).1 → name s = Some n → s = r))
  ∧ (∀ rules_map dups h s,
        dict_get n rules_map = Some h → name s = Some n →
        1 ≤ version s → version s < version h →
        (dedup_step (rules_map, dups) s).1 = rules_map).
Proof.
  intros Hpos Hne (s0 & Hs0 & Hn0). split.
  - pose proof (fold_dedup_holder l n Hpos Hne) as Hh.
    pose proof (dedup_well_keyed l) as Hwk.
    unfold dedup in *.
    destruct (dict_get n (fold_left dedup_step l ([], [])).1) as [r|] eqn:Hget;
      simpl in Hh.
    + destruct Hh as (l1 & l2 & Hl & Hr & H1 & H2).
      exists r, l1, l2. repeat split; try done.
      intros s Hin Hs. by eapply well_keyed_sole_holder.
    + by destruct (Hh s0 Hs0).
  - intros rm dups h s Hget Hs Hh Hlt.
    rewrite (dedup_step_named _ _ _ n) by done. rewrite Hget.
    destruct (Z.ltb_spec (version s) (pversion (Some h))) as [|Hge]; [done|].
    pose proof (pversion_le_version h).
    unfold version, pversion in *. simpl in *.
    destruct (meta h) as [m|]; simpl in *; [|lia].
    destruct (rule_version m); simpl in *; lia.
Qed.

(** Records of other names neither touch the holder of [x] nor report [x]. *)
Lemma dedup_step_other x rm dups s :
  name s ≠ Some x →
  dict_get x (dedup_step (rm, dups) s).1 = dict_get x rm
  ∧ filter (λ n, n = x) (dedup_step (rm, dups) s).2 = filter (λ n, n = x) dups.
Proof.
  intros Hs. destruct (named s) eqn:Hnamed.
  - apply named_spec in Hnamed as (k & Hk & Hkne).
    rewrite (dedup_step_named _ _ _ k) by done.
    assert (x ≠ k) by congruence.
    destruct (_ <? _); simpl.
    + split; [done|]. rewrite filter_app, filter_cons_False by congruence.
      by rewrite filter_nil, app_nil_r.
    + by rewrite dict_get_set_ne.
  - by rewrite dedup_step_unnamed.
Qed.

Lemma fold_dedup_others x l rm dups :
  (∀ s, s ∈ l → name s ≠ Some x) →
  dict_get x (fold_left dedup_step l (rm, dups)).1 = dict_get x rm
  ∧ filter (λ n, n = x) (fold_left dedup_step l (rm, dups)).2
    = filter (λ n, n = x) dups.
Proof.
  revert rm dups. induction l as [|s l IH]; intros rm dups Hl; [done|].
  simpl. destruct (dedup_step_other x rm dups s) as [H1 H2].
  { apply Hl. left. }
  destruct (dedup_step (rm, dups) s) as [rm' dups']. simpl in *.
  destruct (IH rm' dups') as [H3 H4].
  { intros s' Hin. apply Hl. by right. }
  split; congruence.
Qed.

Lemma pversion_explicit (h : sig) : version h ≠ 1 → pversion (Some h) = version h.
Proof.
  unfold version, pversion. simpl.
  destruct (meta h) as [m|]; simpl; [|done].
  by destruct (rule_version m).
Qed.

Lemma dedup_app (a b : list sig) :
  dedup (a ++ b) = fold_left dedup_step b (dedup a).
Proof. unfold dedup. apply fold_left_app. Qed.

Lemma dedup_snoc (l : list sig) (s : sig) :
  dedup (l ++ [s]) = dedup_step (dedup l) s.
Proof. by rewrite dedup_app. Qed.

Lemma dedup_others_after x (a b : list sig) :
  (∀ s, s ∈ b → name s ≠ Some x) →
  dict_get x (dedup (a ++ b)).1 = dict_get x (dedup a).1
  ∧ filter (λ n, n = x) (dedup (a ++ b)).2 = filter (λ n, n = x) (dedup a).2.
Proof.
  intros Hb. rewrite dedup_app. destruct (dedup a) as [rm dups].
  by apply fold_dedup_others.
Qed.

(** A record that is not lower than the holder is stored and nothing is
    reported; a record that is lower is reported and the map is left as it
    is. *)
Lemma dedup_step_store st s n :
  name s = Some n → n ≠ "" → pversion (dict_get n st.1) ≤ version s →
  dedup_step st s = (dict_set n s st.1, st.2).
Proof.
  intros Hn Hne Hle. destruct st as [rm dups]. simpl in *.
  rewrite (dedup_step_named _ _ _ n) by done.
  by destruct (Z.ltb_spec (version s) (pversion (dict_get n rm))); [lia|].
Qed.

Lemma dedup_step_skip st s n :
  name s = Some n → n ≠ "" → version s < pversion (dict_get n st.1) →
  dedup_step st s = (st.1, st.2 ++ [n]).
Proof.
  intros Hn Hne Hlt. destruct st as [rm dups]. simpl in *.
  rewrite (dedup_step_named _ _ _ n) by done.
  by destruct (Z.ltb_spec (version s) (pversion (dict_get n rm))); [|lia].
Qed.

(** C3 (amended). In safe mode, for an input that holds three records of the
    same non-empty name, seen in the order R1 (revision 1), R2 (revision 3),
    R3 (revision 2), among records of other names, duplicate resolution keeps
    R2 as the holder of the name and as the only record of that name passed
    on, and the duplicate report holds the name once. That entry is made
    when R3 is skipped: R3 leaves the map as it is and appends the name to
    the report, which held no entry for the name before. Storing R1 and
    replacing R1 by R2 report nothing: each step leaves the report as it
    was. *)
Theorem dedup_three_revisions (l0 l1 l2 l3 : list sig) (r1 r2 r3 : sig)
    (x : string) :
  x ≠ "" →
  name r1 = Some x → name r2 = Some x → name r3 = Some x →
  version r1 = 1 → version r2 = 3 → version r3 = 2 →
  (∀ s, s ∈ l0 ++ l1 ++ l2 ++ l3 → name s ≠ Some x) →
  dict_get x (dedup (l0 ++ r1 :: l1 ++ r2 :: l2 ++ r3 :: l3)).1 = Some r2
  ∧ (∀ s, s ∈ dict_values (dedup (l0 ++ r1 :: l1 ++ r2 :: l2 ++ r3 :: l3)).1 →
          name s = Some x → s = r2)
  ∧ filter (λ n, n = x) (dedup (l0 ++ r1 :: l1 ++ r2 :: l2 ++ r3 :: l3)).2 = [x]
  ∧ dedup (l0 ++ [r1]) = (dict_set x r1 (dedup l0).1, (dedup l0).2)
  ∧ dict_get x (dedup (l0 ++ r1 :: l1)).1 = Some r1
  ∧ dedup ((l0 ++ r1 :: l1) ++ [r2])
    = (dict_set x r2 (dedup (l0 ++ r1 :: l1)).1, (dedup (l0 ++ r1 :: l1)).2)
  ∧ dict_get x (dedup (l0 ++ r1 :: l1 ++ r2 :: l2)).1 = Some r2
  ∧ filter (λ n, n = x) (dedup (l0 ++ r1 :: l1 ++ r2 :: l2)).2 = []
  ∧ dedup ((l0 ++ r1 :: l1 ++ r2 :: l2) ++ [r3])
    = ((dedup (l0 ++ r1 :: l1 ++ r2 :: l2)).1,
       (dedup (l0 ++ r1 :: l1 ++ r2 :: l2)).2 ++ [x]).
Proof.
  intros Hx Hn1 Hn2 Hn3 Hv1 Hv2 Hv3 Hothers.
  assert (E1 : l0 ++ r1 :: l1 = (l0 ++ [r1]) ++ l1)
    by (repeat first [rewrite <- app_assoc | progress simpl]; reflexivity).
  assert (E2 : l0 ++ r1 :: l1 ++ r2 :: l2 = ((l0 ++ r1 :: l1) ++ [r2]) ++ l2)
    by (repeat first [rewrite <- app_assoc | progress simpl]; reflexivity).
  assert (E3 : l0 ++ r1 :: l1 ++ r2 :: l2 ++ r3 :: l3
               = ((l0 ++ r1 :: l1 ++ r2 :: l2) ++ [r3]) ++ l3)
    by (repeat first [rewrite <- app_assoc | progress simpl]; reflexivity).
  (* before R1 *)
  destruct (dedup_others_after x [] l0) as [G0 D0].
  { intros s Hin. apply Hothers. set_solver. }
  simpl in G0, D0.
  assert (S1 : dedup (l0 ++ [r1]) = (dict_set x r1 (dedup l0).1, (dedup l0).2)).
  { rewrite dedup_snoc. apply dedup_step_store; [done|done|].
    rewrite G0, Hv1. unfold pversion. simpl. lia. }
  (* between R1 and R2 *)
  destruct (dedup_others_after x (l0 ++ [r1]) l1) as [G1 D1].
  { intros s Hin. apply Hothers. set_solver. }
  rewrite <- E1, S1 in G1, D1. simpl in G1, D1.
  rewrite dict_get_set_eq in G1. rewrite D0 in D1.
  assert (S2 : dedup ((l0 ++ r1 :: l1) ++ [r2])
               = (dict_set x r2 (dedup (l0 ++ r1 :: l1)).1,
                  (dedup (l0 ++ r1 :: l1)).2)).
  { rewrite dedup_snoc. apply dedup_step_store; [done|done|].
    rewrite G1, Hv2. pose proof (pversion_le_version r1). lia. }
  (* between R2 and R3 *)
  destruct (dedup_others_after x ((l0 ++ r1 :: l1) ++ [r2]) l2) as [G2 D2].
  { intros s Hin. apply Hothers. set_solver. }
  rewrite <- E2, S2 in G2, D2. simpl in G2, D2.
  rewrite dict_get_set_eq in G2. rewrite D1 in D2.
  assert (S3 : dedup ((l0 ++ r1 :: l1 ++ r2 :: l2) ++ [r3])
               = ((dedup (l0 ++ r1 :: l1 ++ r2 :: l2)).1,
                  (dedup (l0 ++ r1 :: l1 ++ r2 :: l2)).2 ++ [x])).
  { rewrite dedup_snoc. apply dedup_step_skip; [done|done|].
    rewrite G2, Hv3, pversion_explicit, Hv2; lia. }
  (* after R3 *)
  destruct (dedup_others_after x ((l0 ++ r1 :: l1 ++ r2 :: l2) ++ [r3]) l3)
    as [G3 D3].
  { intros s Hin. apply Hothers. set_solver. }
  rewrite <- E3, S3 in G3, D3. simpl in G3, D3.
  rewrite G2 in G3.
  rewrite filter_app, D2, filter_cons_True, filter_nil in D3 by done.
  simpl in D3.
  repeat split; try done.
  intros s Hin Hs.
  by eapply well_keyed_sole_holder; [apply dedup_well_keyed| | |].
Qed.

(** ** Resolved names and dependency order *)

Lemma resolved_insert name_map n d :
  resolved (<[n := true]> name_map) d ↔ d = n ∨ resolved name_map d.
Proof.
  unfold resolved, name_map_get. destruct (decide (n = d)) as [->|Hne].
  - rewrite lookup_insert_eq. simpl. naive_solver.
  - rewrite lookup_insert_ne by done. naive_solver.
Qed.

Lemma resolved_empty d : ¬ resolved ∅ d.
Proof. unfold resolved, name_map_get. by rewrite lookup_empty. Qed.

Lemma missing_dep_false name_map ds :
  missing_dep name_map ds = false ↔ ∀ d, d ∈ ds → resolved name_map d.
Proof.
  unfold resolved. induction ds as [|d ds IH]; simpl.
  - split; [|done]. intros _ d Hd. by apply elem_of_nil in Hd.
  - destruct (name_map_get name_map d) eqn:Hd; simpl.
    + rewrite IH. split.
      * intros H d' Hin. apply elem_of_cons in Hin as [->|Hin]; auto.
      * intros H d' Hin. apply H. by right.
    + split; [done|]. intros H. specialize (H d). rewrite Hd in H.
      discriminate H. left.
Qed.

Lemma missing_dep_true name_map ds :
  missing_dep name_map ds = true ↔ ∃ d, d ∈ ds ∧ ¬ resolved name_map d.
Proof.
  unfold resolved. induction ds as [|d ds IH]; simpl.
  - split; [done|]. intros (d & Hd & _). by apply elem_of_nil in Hd.
  - destruct (name_map_get name_map d) eqn:Hd; simpl.
    + rewrite IH. split.
      * intros (d' & Hin & Hn). exists d'. split; [by right|done].
      * intros (d' & Hin & Hn). exists d'. split; [|done].
        apply elem_of_cons in Hin as [->|Hin]; [|done]. by destruct Hn.
    + split; [|done]. intros _. exists d. split; [left|]. congruence.
Qed.

Lemma names_of_app l1 l2 : names_of (l1 ++ l2) = names_of l1 ++ names_of l2.
Proof. apply omap_app. Qed.

Lemma elem_of_names_of n l : n ∈ names_of l ↔ ∃ s, s ∈ l ∧ name s = Some n.
Proof. apply list_elem_of_omap. Qed.

Lemma names_of_perm l1 l2 : l1 ≡ₚ l2 → names_of l1 ≡ₚ names_of l2.
Proof. intros H. unfold names_of. by rewrite H. Qed.

Lemma dependencies_precede_nil seed : dependencies_precede seed [].
Proof. intros pre r post d H. by destruct pre. Qed.

Lemma elem_of_names_of_cons d a l :
  d ∈ names_of (a :: l) ↔ d ∈ names_of [a] ∨ d ∈ names_of l.
Proof.
  change (a :: l) with ([a] ++ l). rewrite names_of_app. apply elem_of_app.
Qed.

Lemma dependencies_precede_cons seed r out :
  (∀ d, d ∈ depends_of r → seed d) →
  dependencies_precede (λ d, seed d ∨ d ∈ names_of [r]) out →
  dependencies_precede seed (r :: out).
Proof.
  intros Hr Hout pre r0 post d Heq Hd. destruct pre as [|p pre]; simpl in Heq.
  - injection Heq as <- _. left. auto.
  - injection Heq as <- Heq.
    destruct (Hout pre r0 post d Heq Hd) as [[Hs|Hn]|Hn].
    + by left.
    + right. apply elem_of_names_of_cons. by left.
    + right. apply elem_of_names_of_cons. by right.
Qed.

Lemma dependencies_precede_weaken (seed seed' : string → Prop) out :
  (∀ d, seed d → seed' d) →
  dependencies_precede seed out → dependencies_precede seed' out.
Proof.
  intros Hs H pre r post d Heq Hd.
  destruct (H pre r post d Heq Hd); auto.
Qed.

Lemma dependencies_precede_tail seed a out :
  dependencies_precede seed (a :: out) →
  (∀ d, d ∈ depends_of a → seed d)
  ∧ dependencies_precede (λ d, seed d ∨ d ∈ names_of [a]) out.
Proof.
  intros H. split.
  - intros d Hd. destruct (H [] a out d eq_refl Hd) as [?|Hn]; [done|].
    by apply elem_of_nil in Hn.
  - intros pre r post d -> Hd.
    destruct (H (a :: pre) r post d eq_refl Hd) as [?|Hn]; [by left; left|].
    apply elem_of_names_of_cons in Hn as [?|?]; [left; by right|by right].
Qed.

Lemma dependencies_precede_app seed out1 out2 :
  dependencies_precede seed out1 →
  dependencies_precede (λ d, seed d ∨ d ∈ names_of out1) out2 →
  dependencies_precede seed (out1 ++ out2).
Proof.
  revert seed. induction out1 as [|a out1 IH]; intros seed H1 H2; simpl.
  - eapply dependencies_precede_weaken; [|exact H2].
    intros d [?|Hn]; [done|]. by apply elem_of_nil in Hn.
  - apply dependencies_precede_tail in H1 as [Ha H1].
    apply dependencies_precede_cons; [done|].
    apply IH; [done|].
    eapply dependencies_precede_weaken; [|exact H2].
    intros d [?|Hn]; [by left; left|].
    apply elem_of_names_of_cons in Hn as [?|?]; [left; by right|by right].
Qed.

Lemma unresolvable_weaken (seed seed' : string → Prop) placed placed' r :
  (∀ d, seed' d ∨ d ∈ names_of placed' → seed d ∨ d ∈ names_of placed) →
  unresolvable seed placed r → unresolvable seed' placed' r.
Proof. intros H (d & Hd & Hn). exists d. split; [done|]. naive_solver. Qed.

(** ** One scan of the remaining records *)

Lemma elem_of_names_of_singleton d r n :
  name r = Some n → d ∈ names_of [r] ↔ d = n.
Proof.
  intros Hn. rewrite elem_of_names_of. split.
  - intros (s & Hs & Hd). apply list_elem_of_singleton in Hs. subst. congruence.
  - intros ->. exists r. split; [left|done].
Qed.

Lemma for_each_scan_spec rules : ∀ e new0 e' new',
  for_each scan_step rules (e, new0) = Ok (e', new') →
  ∃ placed kept,
    new' = new0 ++ kept
    ∧ signature_list e' = signature_list e ++ placed
    ∧ error_rules e' = error_rules e
    ∧ placed ++ kept ≡ₚ rules
    ∧ (∀ n, resolved (name_map e') n
            ↔ resolved (name_map e) n ∨ n ∈ names_of placed)
    ∧ dependencies_precede (resolved (name_map e)) placed
    ∧ Forall (unresolvable (resolved (name_map e)) []) kept
    ∧ (placed = [] → e' = e).
Proof.
  induction rules as [|r rules IH]; intros e new0 e' new' H; simpl in H.
  - inversion H; subst. exists [], []. rewrite !app_nil_r.
    repeat split; try done.
    + by left.
    + intros [?|Hn]; [done|]. by apply elem_of_nil in Hn.
    + apply dependencies_precede_nil.
  - inv_bind H. destruct a as [e1 new1]. unfold scan_step in Hrun.
    unfold iter_depends in Hrun. destruct (depends r) as [ds|] eqn:Hds;
      simpl in Hrun; [|discriminate].
    destruct (missing_dep (name_map e) ds) eqn:Hmiss.
    + inversion Hrun; subst. clear Hrun.
      destruct (IH _ _ _ _ H) as (placed & kept & -> & Hsl & Herr & Hperm
                                   & Hres & Hdp & Hkept & Hnil).
      exists placed, (r :: kept). rewrite <- app_assoc.
      repeat split; try done.
      * by rewrite <- Permutation_middle, Hperm.
      * apply Hres.
      * apply Hres.
      * constructor; [|done]. apply missing_dep_true in Hmiss as (d & Hd & Hn).
        exists d. split; [unfold depends_of; by rewrite Hds|].
        intros [?|Hin]; [done|]. by apply elem_of_nil in Hin.
    + unfold get_name in Hrun. destruct (name r) as [n|] eqn:Hn;
        simpl in Hrun; [|discriminate].
      inversion Hrun; subst. clear Hrun.
      destruct (IH _ _ _ _ H) as (placed & kept & -> & Hsl & Herr & Hperm
                                   & Hres & Hdp & Hkept & Hnil).
      simpl in *. exists (r :: placed), kept.
      assert (Hmap : ∀ d, resolved (<[n:=true]> (name_map e)) d
                          ↔ resolved (name_map e) d ∨ d ∈ names_of [r]).
      { intros d. rewrite resolved_insert, (elem_of_names_of_singleton d r n)
          by done. tauto. }
      repeat split; try done.
      * by rewrite Hsl, <- app_assoc.
      * simpl. by rewrite Hperm.
      * intros Hr. apply Hres in Hr as [Hr|Hr].
        -- apply Hmap in Hr as [?|?]; [by left|].
           right. apply elem_of_names_of_cons. by left.
        -- right. apply elem_of_names_of_cons. by right.
      * intros [Hr|Hr]; apply Hres.
        -- left. apply Hmap. by left.
        -- apply elem_of_names_of_cons in Hr as [?|?]; [|by right].
           left. apply Hmap. by right.
      * apply dependencies_precede_cons.
        -- intros d Hd. unfold depends_of in Hd. rewrite Hds in Hd.
           simpl in Hd. by apply (proj1 (missing_dep_false _ _) Hmiss).
        -- eapply dependencies_precede_weaken; [|exact Hdp].
           intros d. apply Hmap.
      * eapply Forall_impl; [exact Hkept|]. intros k.
        apply unresolvable_weaken. intros d [Hd|Hd]; [|by right].
        left. apply Hmap. by left.
Qed.

Lemma scan_spec e rules e' new :
  scan e rules = Ok (e', new) →
  ∃ placed,
    signature_list e' = signature_list e ++ placed
    ∧ error_rules e' = error_rules e
    ∧ placed ++ new ≡ₚ rules
    ∧ (∀ n, resolved (name_map e') n
            ↔ resolved (name_map e) n ∨ n ∈ names_of placed)
    ∧ dependencies_precede (resolved (name_map e)) placed
    ∧ Forall (unresolvable (resolved (name_map e)) []) new
    ∧ (placed = [] → e' = e).
Proof.
  intros H. apply for_each_scan_spec in H
    as (placed & kept & -> & H). exists placed. apply H.
Qed.

(** A round that keeps every record has placed none and changed nothing. *)
Lemma scan_no_progress e rules e' :
  scan e rules = Ok (e', rules) →
  e' = e ∧ Forall (unresolvable (resolved (name_map e)) []) rules.
Proof.
  intros H. apply scan_spec in H
    as (placed & _ & _ & Hperm & _ & _ & Hkept & Hnil).
  split; [|done]. apply Hnil.
  apply Permutation_length in Hperm. rewrite length_app in Hperm.
  destruct placed; [done|]. simpl in Hperm. lia.
Qed.

(** A round whose kept list is as long as its input kept the input. *)
Lemma for_each_scan_full rules : ∀ e new0 e' new',
  for_each scan_step rules (e, new0) = Ok (e', new') →
  length new' = (length new0 + length rules)%nat → new' = new0 ++ rules.
Proof.
  induction rules as [|r rules IH]; intros e new0 e' new' H Hlen; simpl in H.
  - inversion H. by rewrite app_nil_r.
  - inv_bind H. destruct a as [e1 new1]. unfold scan_step in Hrun.
    destruct (iter_depends r); simpl in Hrun; try discriminate.
    destruct (missing_dep _ _).
    + inversion Hrun; subst. rewrite (IH _ _ _ _ H).
      * by rewrite <- app_assoc.
      * rewrite length_app. simpl in *. lia.
    + destruct (get_name r); simpl in Hrun; try discriminate.
      inversion Hrun; subst.
      apply for_each_scan_spec in H
        as (placed & kept & -> & _ & _ & Hperm & _).
      apply Permutation_length in Hperm.
      rewrite !length_app in *. simpl in Hlen. lia.
Qed.

(** A round either keeps every record or leaves strictly fewer. *)
Lemma scan_progress e rules e' new :
  scan e rules = Ok (e', new) →
  new = rules ∨ (length new < length rules)%nat.
Proof.
  intros H. pose proof H as H'. apply scan_spec in H'
    as (placed & _ & _ & Hperm & _).
  apply Permutation_length in Hperm. rewrite length_app in Hperm.
  destruct (decide (length new = length rules)) as [Heq|Hne]; [left|right; lia].
  by apply (for_each_scan_full _ _ _ _ _ H).
Qed.

(** ** The fix-point loops *)

Lemma for_each_mark_resolved rules : ∀ name_map name_map',
  for_each mark_resolved rules name_map = Ok name_map' →
  ∀ n, resolved name_map' n ↔ resolved name_map n ∨ n ∈ names_of rules.
Proof.
  induction rules as [|r rules IH]; intros nm nm' H n; simpl in H.
  - inversion H; subst. split; [by left|].
    intros [?|Hn]; [done|]. by apply elem_of_nil in Hn.
  - inv_bind H. unfold mark_resolved, get_name in Hrun.
    destruct (name r) as [k|] eqn:Hk; simpl in Hrun; [|discriminate].
    inversion Hrun; subst. rewrite (IH _ _ H), resolved_insert.
    rewrite elem_of_names_of_cons, (elem_of_names_of_singleton n r k) by done.
    tauto.
Qed.

Lemma force_include_spec safe e rules e' :
  force_include safe e rules = Ok e' →
  signature_list e' = signature_list e ++ (if safe then [] else rules)
  ∧ error_rules e' = error_rules e
  ∧ (∀ n, resolved (name_map e') n
          ↔ resolved (name_map e) n
            ∨ n ∈ names_of (if safe then [] else rules)).
Proof.
  unfold force_include. destruct safe; simpl; intros H.
  - inversion H; subst. rewrite app_nil_r. repeat split; try done.
    + by left.
    + intros [?|Hn]; [done|]. by apply elem_of_nil in Hn.
  - inv_bind H. inversion H; subst. simpl. repeat split.
    + by apply for_each_mark_resolved.
    + by apply for_each_mark_resolved.
Qed.

#[local] Arguments comprehension : simpl never.
#[local] Arguments scan : simpl never.
#[local] Arguments force_include : simpl never.

Lemma dep_loop_nil report fuel safe e : dep_loop report fuel safe e [] = Ok e.
Proof. by destruct fuel. Qed.

Lemma private_loop_dep_loop fuel : ∀ safe e rules,
  private_loop fuel safe e rules = dep_loop report_depends fuel safe e rules.
Proof.
  induction fuel as [|fuel IH]; intros safe e rules; destruct rules; try done.
  simpl. destruct (scan e (s :: rules)) as [[e1 new]| |]; simpl; try done.
  destruct (bool_decide _); [|apply IH].
  unfold report_depends.
  destruct (comprehension iter_depends (s :: rules)); simpl; try done.
  destruct (force_include _ _ _); simpl; auto.
Qed.

Lemma general_loop_dep_loop fuel : ∀ safe e rules,
  general_loop fuel safe e rules = dep_loop report_names fuel safe e rules.
Proof.
  induction fuel as [|fuel IH]; intros safe e rules; destruct rules; try done.
  simpl. destruct (scan e (s :: rules)) as [[e1 new]| |]; simpl; try done.
  destruct (bool_decide _); [|apply IH].
  unfold report_names.
  destruct (comprehension get_name (s :: rules)); simpl; try done.
  destruct (force_include _ _ _); simpl; auto.
Qed.

Lemma dep_loop_spec_base (report : list sig → outcome (list string))
    (safe : bool) (e : env) :
  signature_list e = signature_list e ++ [] ++ (if safe then [] else [])
  ∧ @nil sig ++ [] ≡ₚ []
  ∧ dependencies_precede (resolved (name_map e)) []
  ∧ Forall (unresolvable (resolved (name_map e)) []) []
  ∧ (∀ n, resolved (name_map e) n
          ↔ resolved (name_map e) n
            ∨ n ∈ names_of ([] ++ if safe then [] else []))
  ∧ error_rules e = error_rules e ++ []
  ∧ (@nil sig = [] → @nil string = [])
  ∧ (@nil sig ≠ [] → report [] = Ok []).
Proof.
  assert (Hnil : (if safe then @nil sig else []) = []) by by destruct safe.
  rewrite Hnil, !app_nil_r. repeat split; try done.
  - apply dependencies_precede_nil.
  - by left.
  - intros [?|Hn]; [done|]. by apply elem_of_nil in Hn.
Qed.

(** What a finished loop has done: the records it [placed] in dependency
    order, the records it found [stalled], and the report [errs] of the
    stalled round. *)
Lemma dep_loop_spec report fuel : ∀ safe e rules e',
  dep_loop report fuel safe e rules = Ok e' →
  ∃ placed stalled errs,
    signature_list e'
      = signature_list e ++ placed ++ (if safe then [] else stalled)
    ∧ placed ++ stalled ≡ₚ rules
    ∧ dependencies_precede (resolved (name_map e)) placed
    ∧ Forall (unresolvable (resolved (name_map e)) placed) stalled
    ∧ (∀ n, resolved (name_map e') n
            ↔ resolved (name_map e) n
              ∨ n ∈ names_of (placed ++ if safe then [] else stalled))
    ∧ error_rules e' = error_rules e ++ errs
    ∧ (stalled = [] → errs = [])
    ∧ (stalled ≠ [] → report stalled = Ok errs).
Proof.
  induction fuel as [|fuel IH]; intros safe e rules e' H.
  all: destruct rules as [|r rs].
  1, 3: rewrite dep_loop_nil in H; inversion H; subst;
    exists [], [], []; apply dep_loop_spec_base.
  - discriminate.
  - simpl in H. inv_bind H. destruct a as [e1 new].
    destruct (bool_decide_reflect (r :: rs = new)) as [<-|Hne].
    + inv_bind H. rename a into errs. inv_bind H. rename a into e3.
      rewrite dep_loop_nil in H. inversion H; subst. clear H.
      apply scan_no_progress in Hrun as [-> Hstalled].
      apply force_include_spec in Hrun1 as (Hsl & Herr & Hres). simpl in *.
      exists [], (r :: rs), errs. simpl. repeat split; try done.
      * apply dependencies_precede_nil.
      * apply Hres.
      * apply Hres.
    + apply IH in H as (placed2 & stalled & errs & Hsl & Hperm & Hdp & Hst
                        & Hres & Herr & Hnil & Hrep).
      apply scan_spec in Hrun as (placed1 & Hsl1 & Herr1 & Hperm1 & Hres1
                                  & Hdp1 & _).
      exists (placed1 ++ placed2), stalled, errs. repeat split; try done.
      * by rewrite Hsl, Hsl1, <- !app_assoc.
      * by rewrite <- app_assoc, Hperm.
      * apply dependencies_precede_app; [done|].
        eapply dependencies_precede_weaken; [|exact Hdp]. intros d. apply Hres1.
      * eapply Forall_impl; [exact Hst|]. intros k.
        apply unresolvable_weaken. intros d [Hd|Hd].
        -- left. apply Hres1. by left.
        -- rewrite names_of_app in Hd. apply elem_of_app in Hd as [Hd|Hd].
           ++ left. apply Hres1. by right.
           ++ by right.
      * intros Hn. apply Hres in Hn as [Hn|Hn].
        -- apply Hres1 in Hn as [?|?]; [by left|].
           right. rewrite <- app_assoc, names_of_app. apply elem_of_app. by left.
        -- right. rewrite <- app_assoc, names_of_app. apply elem_of_app.
           by right.
      * intros [Hn|Hn]; apply Hres.
        -- left. apply Hres1. by left.
        -- rewrite <- app_assoc, names_of_app in Hn.
           apply elem_of_app in Hn as [?|?]; [|by right].
           left. apply Hres1. by right.
      * by rewrite Herr, Herr1.
Qed.

(** ** Termination of the loops *)

Lemma get_name_not_out_of_fuel r : get_name r ≠ OutOfFuel.
Proof. unfold get_name. by destruct (name r). Qed.

Lemma iter_depends_not_out_of_fuel r : iter_depends r ≠ OutOfFuel.
Proof. unfold iter_depends. by destruct (depends r). Qed.

Lemma scan_step_not_out_of_fuel st r : scan_step st r ≠ OutOfFuel.
Proof.
  destruct st as [e new]. unfold scan_step.
  apply bind_not_out_of_fuel; [apply iter_depends_not_out_of_fuel|].
  intros ds _. destruct (missing_dep _ _); [done|].
  apply bind_not_out_of_fuel; [apply get_name_not_out_of_fuel|done].
Qed.

Lemma scan_not_out_of_fuel e rules : scan e rules ≠ OutOfFuel.
Proof.
  unfold scan. apply for_each_not_out_of_fuel, scan_step_not_out_of_fuel.
Qed.

Lemma force_include_not_out_of_fuel safe e rules :
  force_include safe e rules ≠ OutOfFuel.
Proof.
  unfold force_include. destruct safe; simpl; [done|].
  apply bind_not_out_of_fuel; [|done].
  apply for_each_not_out_of_fuel. intros nm r. unfold mark_resolved.
  apply bind_not_out_of_fuel; [apply get_name_not_out_of_fuel|done].
Qed.

Lemma report_depends_not_out_of_fuel l : report_depends l ≠ OutOfFuel.
Proof.
  unfold report_depends. apply bind_not_out_of_fuel; [|done].
  apply comprehension_not_out_of_fuel, iter_depends_not_out_of_fuel.
Qed.

Lemma report_names_not_out_of_fuel l : report_names l ≠ OutOfFuel.
Proof. apply comprehension_not_out_of_fuel, get_name_not_out_of_fuel. Qed.

Lemma dep_loop_terminates report fuel :
  (∀ l, report l ≠ OutOfFuel) →
  ∀ safe e rules, (length rules ≤ fuel)%nat →
    dep_loop report fuel safe e rules ≠ OutOfFuel.
Proof.
  intros Hrep. induction fuel as [|fuel IH]; intros safe e rules Hlen.
  all: destruct rules as [|r rs]; [by rewrite dep_loop_nil|].
  - simpl in Hlen. lia.
  - simpl. apply bind_not_out_of_fuel; [apply scan_not_out_of_fuel|].
    intros [e1 new] Hscan.
    destruct (bool_decide_reflect (r :: rs = new)) as [<-|Hne].
    + apply bind_not_out_of_fuel; [apply Hrep|]. intros errs _.
      apply bind_not_out_of_fuel; [apply force_include_not_out_of_fuel|].
      intros e3 _. by rewrite dep_loop_nil.
    + apply IH. apply scan_progress in Hscan as [->|Hlt]; [done|].
      simpl in *. lia.
Qed.

Lemma scan_total e rules :
  Forall well_formed rules → ∃ e' new, scan e rules = Ok (e', new).
Proof.
  intros Hwf. unfold scan.
  destruct (for_each_total scan_step well_formed rules) with (b := (e, @nil sig))
    as [[e' new] H]; [|done|eauto].
  intros [e0 new0] r [[n Hn] [ds Hds]]. unfold scan_step, iter_depends, get_name.
  rewrite Hn, Hds. simpl. destruct (missing_dep _ _); eauto.
Qed.

Lemma force_include_total safe e rules :
  Forall well_formed rules → ∃ e', force_include safe e rules = Ok e'.
Proof.
  intros Hwf. unfold force_include. destruct safe; simpl; [eauto|].
  destruct (for_each_total mark_resolved well_formed rules) with (b := name_map e)
    as [nm ->]; [|done|simpl; eauto].
  intros nm r [[n Hn] _]. unfold mark_resolved, get_name. rewrite Hn. simpl. eauto.
Qed.

Lemma report_depends_total l :
  Forall well_formed l → ∃ errs, report_depends l = Ok errs.
Proof.
  intros Hwf. unfold report_depends.
  destruct (comprehension_total iter_depends well_formed l) as [ys ->];
    [|done|simpl; eauto].
  intros r [_ [ds Hds]]. unfold iter_depends. rewrite Hds. eauto.
Qed.

Lemma report_names_total l :
  Forall well_formed l → ∃ errs, report_names l = Ok errs.
Proof.
  intros Hwf. unfold report_names.
  apply (comprehension_total get_name well_formed); [|done].
  intros r [[n Hn] _]. unfold get_name. rewrite Hn. eauto.
Qed.

Lemma dep_loop_total report fuel :
  (∀ l, Forall well_formed l → ∃ errs, report l = Ok errs) →
  ∀ safe e rules, (length rules ≤ fuel)%nat → Forall well_formed rules →
    ∃ e', dep_loop report fuel safe e rules = Ok e'.
Proof.
  intros Hrep. induction fuel as [|fuel IH]; intros safe e rules Hlen Hwf.
  all: destruct rules as [|r rs]; [rewrite dep_loop_nil; eauto|].
  - simpl in Hlen. lia.
  - simpl. destruct (scan_total e (r :: rs) Hwf) as (e1 & new & Hscan).
    rewrite Hscan. simpl.
    destruct (bool_decide_reflect (r :: rs = new)) as [<-|Hne].
    + destruct (Hrep _ Hwf) as [errs ->]. simpl.
      destruct (force_include_total safe
                  (Env (name_map e1) (signature_list e1) (error_rules e1 ++ errs))
                  (r :: rs) Hwf) as [e3 ->].
      simpl. rewrite dep_loop_nil. eauto.
    + apply IH.
      * apply scan_progress in Hscan as [->|Hlt]; [done|]. simpl in *. lia.
      * apply scan_spec in Hscan as (placed & _ & _ & Hperm & _).
        rewrite <- Hperm in Hwf. by apply Forall_app in Hwf as [_ ?].
Qed.

(** ** Partition and sort *)

#[local] Arguments names_of : simpl never.

Lemma filter_snoc_bool (f : sig → bool) (acc l : list sig) (s : sig) :
  acc ++ filter (λ x, f x) (s :: l)
  = (if f s then acc ++ [s] else acc) ++ filter (λ x, f x) l.
Proof.
  rewrite filter_cons. destruct (f s); simpl; [|done].
  by rewrite <- app_assoc.
Qed.

Lemma names_of_filter_cons (f : sig → bool) (l : list sig) (s : sig) n :
  n ∈ names_of (filter (λ x, f x) (s :: l))
  ↔ (f s = true ∧ name s = Some n) ∨ n ∈ names_of (filter (λ x, f x) l).
Proof.
  rewrite filter_cons. destruct (f s); simpl.
  - rewrite elem_of_names_of_cons.
    rewrite (elem_of_names_of n [s]). split.
    + intros [(x & Hx & Hn)|?]; [|by right].
      apply list_elem_of_singleton in Hx. subst. by left.
    + intros [[_ Hn]|?]; [|by right]. left. exists s. split; [left|done].
  - naive_solver.
Qed.

Lemma for_each_classify_spec l : ∀ b0 nm0 b nm,
  for_each classify l (b0, nm0) = Ok (b, nm) →
  global_rules b = global_rules b0 ++ filter (λ s, is_global s) l
  ∧ private_rules_no_dep b
    = private_rules_no_dep b0 ++ filter (λ s, in_private_no_dep s) l
  ∧ private_rules_dep b
    = private_rules_dep b0 ++ filter (λ s, in_private_dep s) l
  ∧ rules_no_dep b = rules_no_dep b0 ++ filter (λ s, in_no_dep s) l
  ∧ rules_dep b = rules_dep b0 ++ filter (λ s, in_dep s) l
  ∧ (∀ n, resolved nm n
          ↔ resolved nm0 n
            ∨ n ∈ names_of (filter (λ s, is_global s) l)
            ∨ n ∈ names_of (filter (λ s, in_private_no_dep s) l)
            ∨ n ∈ names_of (filter (λ s, in_no_dep s) l)).
Proof.
  induction l as [|s l IH]; intros b0 nm0 b nm H; simpl in H.
  - inversion H; subst. rewrite !filter_nil, !app_nil_r.
    repeat split; try done; [by left|].
    intros [?|[Hn|[Hn|Hn]]]; try done; by apply elem_of_nil in Hn.
  - inv_bind H. destruct a as [b1 nm1].
    apply IH in H as (Hg & Hpn & Hpd & Hn & Hd & Hres). clear IH.
    rewrite !filter_snoc_bool.
    assert (Hstep :
      global_rules b1 = (if is_global s then global_rules b0 ++ [s]
                         else global_rules b0)
      ∧ private_rules_no_dep b1
        = (if in_private_no_dep s then private_rules_no_dep b0 ++ [s]
           else private_rules_no_dep b0)
      ∧ private_rules_dep b1
        = (if in_private_dep s then private_rules_dep b0 ++ [s]
           else private_rules_dep b0)
      ∧ rules_no_dep b1
        = (if in_no_dep s then rules_no_dep b0 ++ [s] else rules_no_dep b0)
      ∧ rules_dep b1
        = (if in_dep s then rules_dep b0 ++ [s] else rules_dep b0)
      ∧ (∀ n, resolved nm1 n
              ↔ resolved nm0 n
                ∨ (is_global s = true ∧ name s = Some n)
                ∨ (in_private_no_dep s = true ∧ name s = Some n)
                ∨ (in_no_dep s = true ∧ name s = Some n))).
    { unfold classify, in_private_no_dep, in_private_dep, in_no_dep, in_dep,
        get_name in *.
      destruct (is_global s), (is_private s), (no_depends s),
        (name s) as [k|]; simpl in *; try discriminate;
        inversion Hrun; subst; simpl; repeat split; try done;
        try (rewrite ?resolved_insert; naive_solver). }
    destruct Hstep as (Hg1 & Hpn1 & Hpd1 & Hn1 & Hd1 & Hres1).
    rewrite <- Hg1, <- Hpn1, <- Hpd1, <- Hn1, <- Hd1.
    repeat split; try done.
    + intros Hr. apply Hres in Hr. rewrite Hres1 in Hr.
      rewrite !names_of_filter_cons. tauto.
    + intros Hr. apply Hres. rewrite Hres1.
      rewrite !names_of_filter_cons in Hr. tauto.
Qed.

Lemma partition_spec l b nm :
  partition l = Ok (b, nm) →
  global_rules b = filter (λ s, is_global s) l
  ∧ private_rules_no_dep b = filter (λ s, in_private_no_dep s) l
  ∧ private_rules_dep b = filter (λ s, in_private_dep s) l
  ∧ rules_no_dep b = filter (λ s, in_no_dep s) l
  ∧ rules_dep b = filter (λ s, in_dep s) l
  ∧ (∀ n, resolved nm n
          ↔ n ∈ names_of (global_rules b ++ private_rules_no_dep b
                            ++ rules_no_dep b)).
Proof.
  intros H. apply for_each_classify_spec in H
    as (Hg & Hpn & Hpd & Hn & Hd & Hres). simpl in *.
  repeat split; try done.
  - intros Hr. apply Hres in Hr. rewrite Hg, Hpn, Hn, !names_of_app.
    rewrite !elem_of_app. destruct Hr as [Hr|Hr]; [|done].
    by apply resolved_empty in Hr.
  - intros Hr. apply Hres. right. rewrite Hg, Hpn, Hn, !names_of_app in Hr.
    by rewrite !elem_of_app in Hr.
Qed.

Lemma insert_by_key_perm k x l : insert_by_key k x l ≡ₚ (k, x) :: l.
Proof.
  induction l as [|[ky y] l IH]; simpl; [done|].
  destruct (String.leb k ky); [done|]. rewrite IH. apply perm_swap.
Qed.

Lemma sort_keyed_perm l : sort_keyed l ≡ₚ l.
Proof.
  induction l as [|[k x] l IH]; simpl; [done|].
  by rewrite insert_by_key_perm, IH.
Qed.

(** The sort puts the keys in ascending order. *)
Lemma insert_by_key_HdRel k x ky y l :
  String.leb ky k = true →
  HdRel (λ a b : string * sig, String.leb a.1 b.1 = true) (ky, y) l →
  HdRel (λ a b : string * sig, String.leb a.1 b.1 = true) (ky, y)
    (insert_by_key k x l).
Proof.
  intros Hle Hhd. destruct l as [|[kz z] l]; simpl.
  - by constructor.
  - destruct (String.leb k kz); constructor; [done|]. by inversion Hhd.
Qed.

Lemma insert_by_key_Sorted k x l :
  Sorted (λ a b : string * sig, String.leb a.1 b.1 = true) l →
  Sorted (λ a b : string * sig, String.leb a.1 b.1 = true) (insert_by_key k x l).
Proof.
  induction l as [|[ky y] l IH]; simpl; intros Hs.
  - by repeat constructor.
  - destruct (String.leb k ky) eqn:Hle.
    + constructor; [done|]. by constructor.
    + apply Sorted_inv in Hs as [Hs Hhd]. constructor; [by apply IH|].
      apply insert_by_key_HdRel; [|done].
      destruct (String.leb_total k ky); congruence.
Qed.

Lemma sort_keyed_Sorted l :
  Sorted (λ a b : string * sig, String.leb a.1 b.1 = true) (sort_keyed l).
Proof.
  induction l as [|[k x] l IH]; simpl; [constructor|].
  by apply insert_by_key_Sorted.
Qed.

Lemma sorted_by_rule_id_perm l l' : sorted_by_rule_id l = Ok l' → l' ≡ₚ l.
Proof.
  unfold sorted_by_rule_id. intros H. inv_bind H. inversion H; subst.
  rewrite sort_keyed_perm. rewrite snd_zip; [done|].
  apply comprehension_length in Hrun. lia.
Qed.

(** ** The whole sort *)

Lemma prepare_spec safe fetched dups b e :
  prepare safe fetched = Ok (dups, b, e) →
  dups = (if safe then (dedup fetched).2 else [])
  ∧ global_rules b ≡ₚ filter (λ s, is_global s) (resolution_input safe fetched)
  ∧ private_rules_no_dep b
    ≡ₚ filter (λ s, in_private_no_dep s) (resolution_input safe fetched)
  ∧ private_rules_dep b
    ≡ₚ filter (λ s, in_private_dep s) (resolution_input safe fetched)
  ∧ rules_no_dep b ≡ₚ filter (λ s, in_no_dep s) (resolution_input safe fetched)
  ∧ rules_dep b ≡ₚ filter (λ s, in_dep s) (resolution_input safe fetched)
  ∧ (∀ n, resolved (name_map e) n
          ↔ n ∈ names_of (global_rules b ++ private_rules_no_dep b
                            ++ rules_no_dep b))
  ∧ signature_list e = global_rules b ++ private_rules_no_dep b
  ∧ error_rules e = [].
Proof.
  unfold prepare, resolution_input. intros H.
  set (input := if safe then dict_values (dedup fetched).1 else fetched).
  assert (Hin : (if safe then let '(rules_map, dups) := dedup fetched in
                              (dict_values rules_map, dups)
                 else (fetched, []))
                = (input, if safe then (dedup fetched).2 else [])).
  { unfold input. destruct safe; [|done]. by destruct (dedup fetched). }
  rewrite Hin in H. clear Hin. inv_bind H. destruct a as [b0 nm].
  inv_bind H. inv_bind H. inv_bind H. inv_bind H. inv_bind H.
  inversion H; subst. clear H. simpl.
  apply partition_spec in Hrun as (Hg & Hpn & Hpd & Hn & Hd & Hres).
  apply sorted_by_rule_id_perm in Hrun0, Hrun1, Hrun2, Hrun3, Hrun4.
  rewrite <- Hg, <- Hpn, <- Hpd, <- Hn, <- Hd.
  repeat split; try done.
  - intros Hr. apply Hres in Hr. rewrite !names_of_app in *.
    by rewrite (names_of_perm _ _ Hrun0), (names_of_perm _ _ Hrun1),
      (names_of_perm _ _ Hrun2).
  - intros Hr. apply Hres. rewrite !names_of_app in *.
    by rewrite (names_of_perm _ _ Hrun0), (names_of_perm _ _ Hrun1),
      (names_of_perm _ _ Hrun2) in Hr.
Qed.

Lemma sort_rules_spec safe fetched bd :
  sort_rules safe fetched = Ok bd →
  ∃ b e0 placed_p stalled_p errs_p placed_g stalled_g errs_g,
    prepare safe fetched = Ok (bundle_duplicates bd, b, e0)
    ∧ bundle_rules bd
      = global_rules b ++ private_rules_no_dep b
          ++ (placed_p ++ if safe then [] else stalled_p)
          ++ rules_no_dep b
          ++ (placed_g ++ if safe then [] else stalled_g)
    ∧ placed_p ++ stalled_p ≡ₚ private_rules_dep b
    ∧ placed_g ++ stalled_g ≡ₚ rules_dep b
    ∧ dependencies_precede (resolved (name_map e0)) placed_p
    ∧ Forall (unresolvable (resolved (name_map e0)) placed_p) stalled_p
    ∧ dependencies_precede
        (λ d, resolved (name_map e0) d
              ∨ d ∈ names_of (placed_p ++ if safe then [] else stalled_p))
        placed_g
    ∧ Forall (unresolvable
                (λ d, resolved (name_map e0) d
                      ∨ d ∈ names_of (placed_p ++ if safe then [] else stalled_p))
                placed_g) stalled_g
    ∧ bundle_errors bd = errs_p ++ errs_g
    ∧ (stalled_p = [] → errs_p = [])
    ∧ (stalled_p ≠ [] → report_depends stalled_p = Ok errs_p)
    ∧ (stalled_g = [] → errs_g = [])
    ∧ (stalled_g ≠ [] → report_names stalled_g = Ok errs_g).
Proof.
  unfold sort_rules. intros H. inv_bind H. destruct a as [[dups b] e0].
  inv_bind H. rename a into e1. inv_bind H. rename a into e2.
  inversion H; subst. clear H. simpl.
  pose proof (prepare_spec _ _ _ _ _ Hrun) as (_ & _ & _ & _ & _ & _ & _
                                                & Hsl0 & Herr0).
  rewrite private_loop_dep_loop in Hrun0. rewrite general_loop_dep_loop in Hrun1.
  apply dep_loop_spec in Hrun0 as (placed_p & stalled_p & errs_p & Hsl1 & Hperm1
                                   & Hdp1 & Hst1 & Hres1 & Herr1 & Hnil1 & Hrep1).
  apply dep_loop_spec in Hrun1 as (placed_g & stalled_g & errs_g & Hsl2 & Hperm2
                                   & Hdp2 & Hst2 & Hres2 & Herr2 & Hnil2 & Hrep2).
  simpl in *.
  exists b, e0, placed_p, stalled_p, errs_p, placed_g, stalled_g, errs_g.
  repeat split; try done.
  - by rewrite Hsl2, Hsl1, Hsl0, <- !app_assoc.
  - eapply dependencies_precede_weaken; [|exact Hdp2]. intros d. apply Hres1.
  - eapply Forall_impl; [exact Hst2|]. intros k.
    apply unresolvable_weaken. intros d [Hd|Hd]; [|by right].
    left. by apply Hres1.
  - by rewrite Herr2, Herr1, Herr0.
Qed.

Lemma elem_of_perm_filter (f : sig → bool) (l input : list sig) (s : sig) :
  l ≡ₚ filter (λ s, f s) input → s ∈ l → s ∈ input.
Proof.
  intros Hperm Hs. rewrite Hperm in Hs.
  by apply list_elem_of_filter in Hs as [_ ?].
Qed.

(** Every record of the bundle is one of the records that were partitioned. *)
Lemma bundle_rules_input safe fetched bd s :
  sort_rules safe fetched = Ok bd →
  s ∈ bundle_rules bd → s ∈ resolution_input safe fetched.
Proof.
  intros H Hs. apply sort_rules_spec in H
    as (b & e0 & placed_p & stalled_p & errs_p & placed_g & stalled_g & errs_g
        & Hprep & Hbundle & Hperm_p & Hperm_g & _).
  apply prepare_spec in Hprep as (_ & Hg & Hpn & Hpd & Hn & Hd & _).
  assert (Hp : ∀ x, x ∈ placed_p ++ stalled_p →
                    x ∈ resolution_input safe fetched).
  { intros x Hx. rewrite Hperm_p in Hx.
    exact (elem_of_perm_filter _ _ _ _ Hpd Hx). }
  assert (Hgen : ∀ x, x ∈ placed_g ++ stalled_g →
                      x ∈ resolution_input safe fetched).
  { intros x Hx. rewrite Hperm_g in Hx.
    exact (elem_of_perm_filter _ _ _ _ Hd Hx). }
  rewrite Hbundle in Hs. rewrite !elem_of_app in Hs.
  destruct Hs as [Hs|[Hs|[[Hs|Hs]|[Hs|[Hs|Hs]]]]].
  - exact (elem_of_perm_filter _ _ _ _ Hg Hs).
  - exact (elem_of_perm_filter _ _ _ _ Hpn Hs).
  - apply Hp, elem_of_app. by left.
  - destruct safe; [by apply elem_of_nil in Hs|]. apply Hp, elem_of_app. by right.
  - exact (elem_of_perm_filter _ _ _ _ Hn Hs).
  - apply Hgen, elem_of_app. by left.
  - destruct safe; [by apply elem_of_nil in Hs|].
    apply Hgen, elem_of_app. by right.
Qed.

(** ** Dependency resolution: order of the output *)

(** C1 (amended). For every input list, every starting state and every safe
    flag, a finished dependency-resolution loop (private or general) has
    appended to the bundle the records it placed, followed in non-safe mode
    by the records of the stalled round; placed and stalled records together
    are a permutation of the loop's input; every dependency name of a placed
    record is a name resolved when the loop started or the name of a record
    placed before it; and every stalled record has a dependency name that is
    neither. So in safe mode the whole output is in dependency order and
    lacks the stalled records only, and in non-safe mode the output is a
    permutation of the input whose stalled tail has unmet dependencies. *)
Theorem resolution_output_ordered (fuel : nat) (safe : bool) (e e' : env)
    (rules : list sig) :
  private_loop fuel safe e rules = Ok e'
  ∨ general_loop fuel safe e rules = Ok e' →
  ∃ placed stalled,
    signature_list e'
      = signature_list e ++ placed ++ (if safe then [] else stalled)
    ∧ placed ++ stalled ≡ₚ rules
    ∧ dependencies_precede (resolved (name_map e)) placed
    ∧ Forall (unresolvable (resolved (name_map e)) placed) stalled.
Proof.
  intros [H|H].
  - rewrite private_loop_dep_loop in H. apply dep_loop_spec in H
      as (placed & stalled & errs & H1 & H2 & H3 & H4 & _).
    by exists placed, stalled.
  - rewrite general_loop_dep_loop in H. apply dep_loop_spec in H
      as (placed & stalled & errs & H1 & H2 & H3 & H4 & _).
    by exists placed, stalled.
Qed.

Lemma resolution_output_ordered_witness :
  ∃ placed stalled,
    [rule_c; rule_b; rule_a]
      = [rule_c] ++ placed ++ (if true then [] else stalled)
    ∧ placed ++ stalled ≡ₚ [rule_a; rule_b]
    ∧ dependencies_precede (resolved (<["C" := true]> ∅)) placed
    ∧ Forall (unresolvable (resolved (<["C" := true]> ∅)) placed) stalled.
Proof.
  assert (Hrun : general_loop 2 true (Env (<["C" := true]> ∅) [rule_c] [])
                   [rule_a; rule_b]
                 = Ok (Env (<["A" := true]> (<["B" := true]> (<["C" := true]> ∅)))
                         [rule_c; rule_b; rule_a] []))
    by (vm_compute; reflexivity).
  exact (resolution_output_ordered 2 true _ _ _ (or_intror Hrun)).
Defined.

(** In non-safe mode the output can hold a record whose dependency is
    nowhere: the stalled record A, depending on the missing name B, is
    appended all the same. *)
Lemma resolution_output_ordered_counterexample :
  general_loop 1 false (Env ∅ [] []) [rule_a]
    = Ok (Env (<["A" := true]> ∅) [rule_a] ["A"])
  ∧ ¬ dependencies_precede (resolved ∅) [rule_a].
Proof.
  split; [vm_compute; reflexivity|].
  intros H. destruct (H [] rule_a [] "B" eq_refl) as [Hr|Hn].
  - left.
  - by apply resolved_empty in Hr.
  - by apply elem_of_nil in Hn.
Qed.

(** ** A stalled round *)

Lemma dep_loop_stalled report fuel safe e rules e1 e' :
  rules ≠ [] → scan e rules = Ok (e1, rules) →
  dep_loop report (S fuel) safe e rules = Ok e' →
  ∃ errs,
    report rules = Ok errs
    ∧ force_include safe
        (Env (name_map e) (signature_list e) (error_rules e ++ errs)) rules
      = Ok e'.
Proof.
  intros Hne Hscan H. destruct rules as [|r rs]; [done|].
  simpl in H. rewrite Hscan in H. simpl in H.
  rewrite bool_decide_eq_true_2 in H by done.
  inv_bind H. rename a into errs. inv_bind H. rewrite dep_loop_nil in H.
  inversion H; subst. apply scan_no_progress in Hscan as [-> _].
  by exists errs.
Qed.

Lemma report_depends_Ok rules errs :
  report_depends rules = Ok errs → errs = concat (depends_of <$> rules).
Proof.
  unfold report_depends. intros H. inv_bind H. inversion H; subst. f_equal.
  apply comprehension_inv in Hrun. clear H.
  induction Hrun as [|r ds rules dss Hr _ IH]; [done|]. simpl. f_equal; [|done].
  unfold iter_depends in Hr. unfold depends_of.
  destruct (depends r); by inversion Hr.
Qed.

Lemma report_names_Ok rules errs :
  report_names rules = Ok errs →
  errs = names_of rules ∧ Forall2 (λ r n, name r = Some n) rules errs.
Proof.
  unfold report_names. intros H. apply comprehension_inv in H.
  induction H as [|r n rules ns Hr _ [IH1 IH2]]; [done|].
  unfold get_name in Hr. destruct (name r) as [k|] eqn:Hk; inversion Hr; subst.
  split; [|by constructor].
  unfold names_of. simpl. rewrite Hk. by f_equal.
Qed.

Lemma stalled_private_report (fuel : nat) (safe : bool) (e e1 e' : env)
    (rules : list sig) :
  rules ≠ [] → scan e rules = Ok (e1, rules) →
  private_loop (S fuel) safe e rules = Ok e' →
  error_rules e' = error_rules e ++ concat (depends_of <$> rules).
Proof.
  intros Hne Hscan H. rewrite private_loop_dep_loop in H.
  destruct (dep_loop_stalled _ _ _ _ _ _ _ Hne Hscan H) as (errs & Hrep & Hinc).
  apply report_depends_Ok in Hrep. subst errs.
  by apply force_include_spec in Hinc as (_ & Herr & _).
Qed.

Lemma elem_of_concat_depends (rules : list sig) (a : sig) (d : string) :
  a ∈ rules → d ∈ depends_of a → d ∈ concat (depends_of <$> rules).
Proof.
  intros Ha Hd. apply list_elem_of_In, in_concat. exists (depends_of a).
  split; apply list_elem_of_In; [|done].
  apply list_elem_of_fmap. by exists a.
Qed.

(** A private record with a dependency name that no partitioned record
    carries is found stalled, and all its dependency names are reported. *)
Lemma private_missing_dependency (safe : bool) (fetched : list sig)
    (bd : bundle) (a : sig) (b : string) :
  sort_rules safe fetched = Ok bd →
  a ∈ resolution_input safe fetched → in_private_dep a = true →
  b ∈ depends_of a → b ∉ names_of (resolution_input safe fetched) →
  ∀ d, d ∈ depends_of a → d ∈ bundle_errors bd.
Proof.
  intros H Ha Hpriv Hb Hmissing d Hd. apply sort_rules_spec in H
    as (bk & e0 & placed_p & stalled_p & errs_p & placed_g & stalled_g & errs_g
        & Hprep & _ & Hperm_p & _ & Hdp & _ & _ & _ & Herr & _ & Hrep & _).
  apply prepare_spec in Hprep as (_ & Hg & Hpn & Hpd & Hn & _ & Hres & _).
  assert (Hsub : ∀ x, x ∈ placed_p ++ stalled_p →
                      x ∈ resolution_input safe fetched).
  { intros x Hx. rewrite Hperm_p in Hx.
    exact (elem_of_perm_filter _ _ _ _ Hpd Hx). }
  assert (Hin : a ∈ placed_p ++ stalled_p).
  { rewrite Hperm_p, Hpd. apply list_elem_of_filter. split; [|done].
    by rewrite Hpriv. }
  apply elem_of_app in Hin as [Hin|Hin].
  - exfalso. apply Hmissing.
    apply list_elem_of_split in Hin as (pre & post & ->).
    destruct (Hdp pre a post b eq_refl Hb) as [Hr|Hr].
    + apply Hres in Hr. apply elem_of_names_of in Hr as (s & Hs & Hname).
      apply elem_of_names_of. exists s. split; [|done].
      rewrite !elem_of_app in Hs. destruct Hs as [Hs|[Hs|Hs]].
      * exact (elem_of_perm_filter _ _ _ _ Hg Hs).
      * exact (elem_of_perm_filter _ _ _ _ Hpn Hs).
      * exact (elem_of_perm_filter _ _ _ _ Hn Hs).
    + apply elem_of_names_of in Hr as (s & Hs & Hname).
      apply elem_of_names_of. exists s. split; [|done].
      apply Hsub. rewrite !elem_of_app. left. by left.
  - assert (Hne : stalled_p ≠ []).
    { intros ->. by apply elem_of_nil in Hin. }
    specialize (Hrep Hne). apply report_depends_Ok in Hrep.
    rewrite Herr, Hrep. apply elem_of_app. left.
    by apply elem_of_concat_depends with a.
Qed.

(** C2 (amended). For every round of the private loop that makes no
    progress, the names added to the unresolved-dependency report are all
    the dependency names of the stalled records, satisfied or not, record by
    record in list order; in particular, if a private record depends on a
    name that no record of the filtered set carries, the report lists that
    name, together with the record's other dependency names. *)
Theorem private_stall_reports_depends (fuel : nat) (safe : bool)
    (e e1 e' : env) (rules fetched : list sig) (bd : bundle) (a : sig)
    (b : string) :
  (rules ≠ [] → scan e rules = Ok (e1, rules) →
   private_loop (S fuel) safe e rules = Ok e' →
   error_rules e' = error_rules e ++ concat (depends_of <$> rules))
  ∧ (sort_rules safe fetched = Ok bd →
     a ∈ resolution_input safe fetched → in_private_dep a = true →
     b ∈ depends_of a → b ∉ names_of (resolution_input safe fetched) →
     b ∈ bundle_errors bd ∧ ∀ d, d ∈ depends_of a → d ∈ bundle_errors bd).
Proof.
  split.
  - apply stalled_private_report.
  - intros H Ha Hpriv Hb Hmissing.
    pose proof (private_missing_dependency _ _ _ _ _ H Ha Hpriv Hb Hmissing).
    auto.
Qed.

Lemma private_stall_reports_depends_witness :
  error_rules (Env (<["G" := true]> ∅) [global_g] ["G"; "B"])
    = error_rules (Env (<["G" := true]> ∅) [global_g] [])
        ++ concat (depends_of <$> [private_a])
  ∧ "B" ∈ bundle_errors (Bundle [global_g] [] ["G"; "B"])
  ∧ ∀ d, d ∈ depends_of private_a →
         d ∈ bundle_errors (Bundle [global_g] [] ["G"; "B"]).
Proof.
  assert (Hne : [private_a] ≠ []) by done.
  assert (Hscan : scan (Env (<["G" := true]> ∅) [global_g] []) [private_a]
                  = Ok (Env (<["G" := true]> ∅) [global_g] [], [private_a]))
    by (vm_compute; reflexivity).
  assert (Hloop : private_loop 1 true (Env (<["G" := true]> ∅) [global_g] [])
                    [private_a]
                  = Ok (Env (<["G" := true]> ∅) [global_g] ["G"; "B"]))
    by (vm_compute; reflexivity).
  assert (Hrun : sort_rules true [private_a; global_g]
                 = Ok (Bundle [global_g] [] ["G"; "B"]))
    by (vm_compute; reflexivity).
  assert (Hinput : resolution_input true [private_a; global_g]
                   = [private_a; global_g]) by (vm_compute; reflexivity).
  assert (Ha : private_a ∈ resolution_input true [private_a; global_g]).
  { rewrite Hinput. left. }
  assert (Hb : "B" ∈ depends_of private_a) by (right; left).
  assert (Hmissing : "B" ∉ names_of (resolution_input true [private_a; global_g])).
  { rewrite Hinput. intros Hin. apply elem_of_names_of in Hin as (s & Hs & Hn).
    apply elem_of_cons in Hs as [->|Hs]; [discriminate|].
    apply list_elem_of_singleton in Hs. subst. discriminate. }
  split.
  - exact (proj1 (private_stall_reports_depends 0 true _ _ _ _
                    [private_a; global_g] (Bundle [global_g] [] ["G"; "B"])
                    private_a "B") Hne Hscan Hloop).
  - exact (proj2 (private_stall_reports_depends 0 true
                    (Env (<["G" := true]> ∅) [global_g] [])
                    (Env (<["G" := true]> ∅) [global_g] [])
                    (Env (<["G" := true]> ∅) [global_g] ["G"; "B"])
                    [private_a] _ _ _ _) Hrun Ha eq_refl Hb Hmissing).
Defined.

(** The stalled private record A depends on G, which is resolved, and on B,
    which is not: the report gets both names, not the unsatisfied one
    alone. *)
Lemma private_stall_reports_depends_counterexample :
  scan (Env (<["G" := true]> ∅) [global_g] []) [private_a]
    = Ok (Env (<["G" := true]> ∅) [global_g] [], [private_a])
  ∧ private_loop 1 true (Env (<["G" := true]> ∅) [global_g] []) [private_a]
    = Ok (Env (<["G" := true]> ∅) [global_g] ["G"; "B"])
  ∧ unsatisfied_depends (<["G" := true]> ∅) private_a = ["B"]
  ∧ ["G"; "B"] ≠ [] ++ unsatisfied_depends (<["G" := true]> ∅) private_a.
Proof. repeat split; try (vm_compute; reflexivity). vm_compute. discriminate. Qed.

(** The general loop reports the stalled records by their own names
    (line 358). *)
Lemma general_stall_reports_names (fuel : nat) (safe : bool)
    (e e1 e' : env) (rules : list sig) :
  rules ≠ [] → scan e rules = Ok (e1, rules) →
  general_loop (S fuel) safe e rules = Ok e' →
  error_rules e' = error_rules e ++ names_of rules.
Proof.
  intros Hne Hscan H. rewrite general_loop_dep_loop in H.
  destruct (dep_loop_stalled _ _ _ _ _ _ _ Hne Hscan H) as (errs & Hrep & Hinc).
  apply report_names_Ok in Hrep as [-> _].
  by apply force_include_spec in Hinc as (_ & Herr & _).
Qed.

Example general_stall_reports_own_name :
  sort_rules true [rule_a] = Ok (Bundle [] [] ["A"]).
Proof. vm_compute. reflexivity. Qed.

(** C5. For every round of either loop that makes no progress, the loop ends
    at once: in safe mode the bundle is left as it was before the round, so
    none of the remaining records is appended, and the resolved names are
    unchanged; in non-safe mode all the remaining records are appended to the
    bundle, in their order, and each of their names is added to the resolved
    names. *)
Theorem stalled_round_disposal (fuel : nat) (safe : bool) (e e1 e' : env)
    (rules : list sig) :
  rules ≠ [] → scan e rules = Ok (e1, rules) →
  private_loop (S fuel) safe e rules = Ok e'
  ∨ general_loop (S fuel) safe e rules = Ok e' →
  signature_list e' = signature_list e ++ (if safe then [] else rules)
  ∧ (∀ n, resolved (name_map e') n
          ↔ resolved (name_map e) n ∨ (safe = false ∧ n ∈ names_of rules)).
Proof.
  intros Hne Hscan H.
  assert (Hinc : ∃ errs report,
    force_include safe
      (Env (name_map e) (signature_list e) (error_rules e ++ errs)) rules
    = Ok e' ∧ report rules = Ok errs).
  { destruct H as [H|H].
    - rewrite private_loop_dep_loop in H.
      destruct (dep_loop_stalled _ _ _ _ _ _ _ Hne Hscan H) as (errs & ? & ?).
      by exists errs, report_depends.
    - rewrite general_loop_dep_loop in H.
      destruct (dep_loop_stalled _ _ _ _ _ _ _ Hne Hscan H) as (errs & ? & ?).
      by exists errs, report_names. }
  destruct Hinc as (errs & report & Hinc & _).
  apply force_include_spec in Hinc as (Hsl & _ & Hres). simpl in *.
  split; [done|]. intros n. rewrite Hres. destruct safe.
  - split; [intros [?|Hn]; [by left|by apply elem_of_nil in Hn]|].
    intros [?|[? _]]; [by left|done].
  - split; [intros [?|?]; [by left|by right]|].
    intros [?|[_ ?]]; [by left|by right].
Qed.

Lemma stalled_round_disposal_witness :
  (signature_list (Env ∅ [] ["A"]) = signature_list (Env ∅ [] []) ++ []
   ∧ (∀ n, resolved (name_map (Env ∅ [] ["A"])) n
           ↔ resolved (name_map (Env ∅ [] [])) n
             ∨ (true = false ∧ n ∈ names_of [rule_a])))
  ∧ (signature_list (Env (<["A" := true]> ∅) [rule_a] ["A"])
       = signature_list (Env ∅ [] []) ++ [rule_a]
     ∧ (∀ n, resolved (name_map (Env (<["A" := true]> ∅) [rule_a] ["A"])) n
             ↔ resolved (name_map (Env ∅ [] [])) n
               ∨ (false = false ∧ n ∈ names_of [rule_a]))).
Proof.
  assert (Hne : [rule_a] ≠ []) by done.
  assert (Hscan : scan (Env ∅ [] []) [rule_a] = Ok (Env ∅ [] [], [rule_a]))
    by (vm_compute; reflexivity).
  assert (Hsafe : general_loop 1 true (Env ∅ [] []) [rule_a]
                  = Ok (Env ∅ [] ["A"])) by (vm_compute; reflexivity).
  assert (Hforce : general_loop 1 false (Env ∅ [] []) [rule_a]
                   = Ok (Env (<["A" := true]> ∅) [rule_a] ["A"]))
    by (vm_compute; reflexivity).
  split.
  - exact (stalled_round_disposal 0 true _ _ _ _ Hne Hscan (or_intror Hsafe)).
  - exact (stalled_round_disposal 0 false _ _ _ _ Hne Hscan (or_intror Hforce)).
Defined.

(** ** The names resolved when the private loop starts *)

(** C4 (amended). For every input and every safe flag, the private loop
    starts with a resolved-names set that holds exactly the names of the
    records of the global, private no-dependency and standard
    no-dependency buckets: the name of a standard record without
    dependencies is resolved before the private loop runs. *)
Theorem private_pass_seed (safe : bool) (fetched : list sig)
    (dups : list string) (b : buckets) (e : env) (n : string) :
  prepare safe fetched = Ok (dups, b, e) →
  resolved (name_map e) n
  ↔ n ∈ names_of (global_rules b ++ private_rules_no_dep b ++ rules_no_dep b).
Proof.
  intros H. apply prepare_spec in H as (_ & _ & _ & _ & _ & _ & Hres & _).
  apply Hres.
Qed.

Lemma private_pass_seed_witness :
  resolved (name_map (Env (<["C" := true]> (<["G" := true]> ∅)) [global_g] [])) "C"
  ↔ "C" ∈ names_of (global_rules (Buckets [global_g] [] [] [rule_c] [])
                      ++ private_rules_no_dep (Buckets [global_g] [] [] [rule_c] [])
                      ++ rules_no_dep (Buckets [global_g] [] [] [rule_c] [])).
Proof.
  assert (Hrun : prepare false [global_g; rule_c]
                 = Ok ([], Buckets [global_g] [] [] [rule_c] [],
                       Env (<["C" := true]> (<["G" := true]> ∅)) [global_g] []))
    by (vm_compute; reflexivity).
  exact (private_pass_seed false _ _ _ _ "C" Hrun).
Defined.

(** The name of the standard record C, which has no dependencies, is
    resolved when the private loop starts, although C is neither in the
    global nor in the private no-dependency bucket. *)
Lemma private_pass_seed_counterexample :
  prepare true [global_g; rule_c]
    = Ok ([], Buckets [global_g] [] [] [rule_c] [],
          Env (<["C" := true]> (<["G" := true]> ∅)) [global_g] [])
  ∧ resolved (<["C" := true]> (<["G" := true]> ∅)) "C"
  ∧ "C" ∉ names_of ([global_g] ++ []).
Proof.
  split; [vm_compute; reflexivity|]. split; [vm_compute; reflexivity|].
  intros H. apply elem_of_names_of in H as (s & Hs & Hn).
  apply list_elem_of_singleton in Hs. subst. discriminate.
Qed.

(** ** Termination *)

Lemma classify_not_out_of_fuel st s : classify st s ≠ OutOfFuel.
Proof.
  destruct st as [b nm]. unfold classify, get_name.
  destruct (is_global s), (is_private s), (no_depends s), (name s); done.
Qed.

Lemma sorted_by_rule_id_not_out_of_fuel l : sorted_by_rule_id l ≠ OutOfFuel.
Proof.
  unfold sorted_by_rule_id. apply bind_not_out_of_fuel; [|done].
  apply comprehension_not_out_of_fuel. intros k. unfold sort_key.
  by destruct (meta k).
Qed.

Lemma prepare_not_out_of_fuel safe fetched : prepare safe fetched ≠ OutOfFuel.
Proof.
  unfold prepare.
  destruct (if safe then _ else _) as [input dups].
  apply bind_not_out_of_fuel.
  { apply for_each_not_out_of_fuel, classify_not_out_of_fuel. }
  intros [b nm] _.
  repeat (apply bind_not_out_of_fuel;
          [apply sorted_by_rule_id_not_out_of_fuel|intros ? _]).
  done.
Qed.

Lemma sort_rules_terminates safe fetched : sort_rules safe fetched ≠ OutOfFuel.
Proof.
  unfold sort_rules. apply bind_not_out_of_fuel; [apply prepare_not_out_of_fuel|].
  intros [[dups b] e0] _.
  apply bind_not_out_of_fuel.
  { rewrite private_loop_dep_loop.
    apply dep_loop_terminates; [apply report_depends_not_out_of_fuel|done]. }
  intros e1 _. apply bind_not_out_of_fuel; [|done].
  rewrite general_loop_dep_loop.
  apply dep_loop_terminates; [apply report_names_not_out_of_fuel|done].
Qed.

(** C8. For every list of candidate records, every starting state and every
    safe flag, both dependency-resolution loops end when given at least as
    much fuel as the list is long (the handler gives exactly that, so the
    whole sort never runs out): a round either keeps every record, after
    which the loop ends with nothing left, or leaves strictly fewer records
    than it was given; and on records that have a name and a dependency list
    both loops return a state. *)
Theorem loops_terminate (fuel : nat) (safe : bool) (e : env) (rules : list sig) :
  (length rules ≤ fuel)%nat →
  private_loop fuel safe e rules ≠ OutOfFuel
  ∧ general_loop fuel safe e rules ≠ OutOfFuel
  ∧ (∀ e1 new, scan e rules = Ok (e1, new) →
               new = rules ∨ (length new < length rules)%nat)
  ∧ (Forall well_formed rules →
     (∃ e', private_loop fuel safe e rules = Ok e')
     ∧ (∃ e', general_loop fuel safe e rules = Ok e'))
  ∧ (∀ fetched, sort_rules safe fetched ≠ OutOfFuel).
Proof.
  intros Hlen. repeat split.
  - rewrite private_loop_dep_loop.
    apply dep_loop_terminates; [apply report_depends_not_out_of_fuel|done].
  - rewrite general_loop_dep_loop.
    apply dep_loop_terminates; [apply report_names_not_out_of_fuel|done].
  - intros e1 new. apply scan_progress.
  - rewrite private_loop_dep_loop.
    apply dep_loop_total; [apply report_depends_total|done|done].
  - rewrite general_loop_dep_loop.
    apply dep_loop_total; [apply report_names_total|done|done].
  - intros fetched. apply sort_rules_terminates.
Qed.

Lemma loops_terminate_witness :
  prepare false mixed_fetched
  = Ok ([], Buckets [global_g] [] [private_p; private_q] [rule_c]
              [rule_a; rule_b], private_start)
  ∧ private_loop 2 false private_start [private_p; private_q] ≠ OutOfFuel
  ∧ scan private_start [private_p; private_q]
    = Ok (Env (<["Q" := true]> (name_map private_start))
            [global_g; private_q] [], [private_p])
  ∧ ([private_p] = [private_p; private_q]
     ∨ (length [private_p] < length [private_p; private_q])%nat)
  ∧ (∃ e', private_loop 2 false private_start [private_p; private_q] = Ok e')
  ∧ private_loop 2 false private_start [private_p; private_q]
    = Ok (Env (name_map general_start) [global_g; private_q; private_p] [])
  ∧ general_loop 2 false general_start [rule_a; rule_b] ≠ OutOfFuel
  ∧ scan general_start [rule_a; rule_b]
    = Ok (Env (<["B" := true]> (name_map general_start))
            [global_g; private_q; private_p; rule_c; rule_b] [], [rule_a])
  ∧ ([rule_a] = [rule_a; rule_b]
     ∨ (length [rule_a] < length [rule_a; rule_b])%nat)
  ∧ (∃ e', general_loop 2 false general_start [rule_a; rule_b] = Ok e')
  ∧ sort_rules false mixed_fetched ≠ OutOfFuel.
Proof.
  assert (Hprep : prepare false mixed_fetched
                  = Ok ([], Buckets [global_g] [] [private_p; private_q]
                              [rule_c] [rule_a; rule_b], private_start))
    by (vm_compute; reflexivity).
  assert (HlenP : (length [private_p; private_q] ≤ 2)%nat) by (simpl; lia).
  assert (HlenG : (length [rule_a; rule_b] ≤ 2)%nat) by (simpl; lia).
  assert (HwfP : Forall well_formed [private_p; private_q])
    by (repeat constructor; by eexists).
  assert (HwfG : Forall well_formed [rule_a; rule_b])
    by (repeat constructor; by eexists).
  assert (HscanP : scan private_start [private_p; private_q]
                   = Ok (Env (<["Q" := true]> (name_map private_start))
                           [global_g; private_q] [], [private_p]))
    by (vm_compute; reflexivity).
  assert (HscanG : scan general_start [rule_a; rule_b]
                   = Ok (Env (<["B" := true]> (name_map general_start))
                           [global_g; private_q; private_p; rule_c; rule_b] [],
                         [rule_a]))
    by (vm_compute; reflexivity).
  destruct (loops_terminate 2 false private_start [private_p; private_q] HlenP)
    as (HP1 & _ & HP3 & HP4 & HP5).
  destruct (loops_terminate 2 false general_start [rule_a; rule_b] HlenG)
    as (_ & HG2 & HG3 & HG4 & _).
  split; [exact Hprep|].
  split; [exact HP1|].
  split; [exact HscanP|].
  split; [exact (HP3 _ _ HscanP)|].
  split; [exact (proj1 (HP4 HwfP))|].
  split; [vm_compute; reflexivity|].
  split; [exact HG2|].
  split; [exact HscanG|].
  split; [exact (HG3 _ _ HscanG)|].
  split; [exact (proj2 (HG4 HwfG))|].
  exact (HP5 mixed_fetched).
Defined.

(** ** Global rules come first *)

Lemma Forall_perm_filter (f : sig → bool) (P : sig → Prop) (l input : list sig) :
  l ≡ₚ filter (λ s, f s) input → (∀ s, f s = true → P s) → Forall P l.
Proof.
  intros Hperm HP. rewrite Hperm. apply Forall_forall. intros s Hs.
  apply list_elem_of_filter in Hs as [Hf _]. apply HP. by destruct (f s).
Qed.

Lemma Forall_perm_app_l (P : sig → Prop) (l1 l2 l : list sig) :
  l1 ++ l2 ≡ₚ l → Forall P l → Forall P l1 ∧ Forall P l2.
Proof. intros Hperm Hl. rewrite <- Hperm in Hl. by apply Forall_app in Hl. Qed.

(** C9. For every input and every safe flag, the bundle is the sorted global
    bucket followed by records none of which is global, so every global
    record comes before every private and every standard record, whatever
    the dependencies between them. *)
Theorem globals_first (safe : bool) (fetched : list sig) (bd : bundle) :
  sort_rules safe fetched = Ok bd →
  ∃ globals rest,
    bundle_rules bd = globals ++ rest
    ∧ globals ≡ₚ filter (λ s, is_global s) (resolution_input safe fetched)
    ∧ Forall (λ s, is_global s = false) rest
    ∧ (∀ i j g s,
         bundle_rules bd !! i = Some g → bundle_rules bd !! j = Some s →
         is_global g = true → is_global s = false → (i < j)%nat).
Proof.
  intros H. apply sort_rules_spec in H
    as (b & e0 & placed_p & stalled_p & errs_p & placed_g & stalled_g & errs_g
        & Hprep & Hbundle & Hperm_p & Hperm_g & _).
  apply prepare_spec in Hprep as (_ & Hg & Hpn & Hpd & Hn & Hd & _).
  set (rest := private_rules_no_dep b
                 ++ (placed_p ++ if safe then [] else stalled_p)
                 ++ rules_no_dep b
                 ++ (placed_g ++ if safe then [] else stalled_g)).
  assert (Hrest : Forall (λ s, is_global s = false) rest).
  { assert (Hpn' := Forall_perm_filter _ (λ s, is_global s = false) _ _ Hpn).
    assert (Hpd' := Forall_perm_filter _ (λ s, is_global s = false) _ _ Hpd).
    assert (Hn' := Forall_perm_filter _ (λ s, is_global s = false) _ _ Hn).
    assert (Hd' := Forall_perm_filter _ (λ s, is_global s = false) _ _ Hd).
    unfold in_private_no_dep, in_private_dep, in_no_dep, in_dep in *.
    destruct (Forall_perm_app_l (λ s, is_global s = false) _ _ _ Hperm_p)
      as [Hpp Hsp].
    { apply Hpd'. intros s. by destruct (is_global s). }
    destruct (Forall_perm_app_l (λ s, is_global s = false) _ _ _ Hperm_g)
      as [Hpg Hsg].
    { apply Hd'. intros s. by destruct (is_global s). }
    unfold rest. rewrite !Forall_app. repeat split; try done.
    - apply Hpn'. intros s. by destruct (is_global s).
    - by destruct safe.
    - apply Hn'. intros s. by destruct (is_global s).
    - by destruct safe. }
  assert (Hglob : Forall (λ s, is_global s = true) (global_rules b)).
  { apply (Forall_perm_filter _ _ _ _ Hg). done. }
  exists (global_rules b), rest. repeat split; try done.
  intros i j g s Hi Hj Hgt Hsf. rewrite Hbundle in Hi, Hj.
  fold rest in Hi, Hj.
  destruct (decide (i < length (global_rules b))%nat) as [Hlt|Hge].
  - destruct (decide (j < length (global_rules b))%nat) as [Hjlt|Hjge]; [|lia].
    rewrite lookup_app_l in Hj by done.
    rewrite Forall_forall in Hglob.
    assert (is_global s = true); [|congruence].
    apply Hglob. by eapply list_elem_of_lookup_2.
  - rewrite lookup_app_r in Hi by lia.
    rewrite Forall_forall in Hrest.
    assert (is_global g = false); [|congruence].
    apply Hrest. by eapply list_elem_of_lookup_2.
Qed.

Lemma globals_first_witness :
  ∃ globals rest,
    bundle_rules (Bundle [global_g; rule_c; rule_b] [] []) = globals ++ rest
    ∧ globals ≡ₚ filter (λ s, is_global s)
                   (resolution_input false [rule_b; rule_c; global_g])
    ∧ Forall (λ s, is_global s = false) rest
    ∧ (∀ i j g s,
         bundle_rules (Bundle [global_g; rule_c; rule_b] [] []) !! i = Some g →
         bundle_rules (Bundle [global_g; rule_c; rule_b] [] []) !! j = Some s →
         is_global g = true → is_global s = false → (i < j)%nat).
Proof.
  assert (Hrun : sort_rules false [rule_b; rule_c; global_g]
                 = Ok (Bundle [global_g; rule_c; rule_b] [] []))
    by (vm_compute; reflexivity).
  exact (globals_first false _ _ Hrun).
Defined.

(** ** Records without a name *)

Lemma dedup_filter_named fetched :
  dedup fetched = dedup (filter (λ s, named s) fetched).
Proof. apply fold_dedup_filter. Qed.

Lemma fold_dedup_dups_nonempty l : ∀ st,
  Forall (λ n, n ≠ "") st.2 →
  Forall (λ n, n ≠ "") (fold_left dedup_step l st).2.
Proof.
  induction l as [|s l IH]; intros st Hst; [done|]. simpl. apply IH.
  destruct st as [rm dups]. destruct (named s) eqn:Hnamed.
  - apply named_spec in Hnamed as (k & Hk & Hkne).
    rewrite (dedup_step_named _ _ _ k) by done.
    destruct (_ <? _); simpl; [|done].
    apply Forall_app. split; [done|]. by constructor.
  - by rewrite dedup_step_unnamed.
Qed.

(** C10. In safe mode, for every input, the records whose name is absent or
    empty are skipped before duplicate resolution: the outcome of the sort
    (bundle, duplicate report and unresolved-dependency report, or the
    exception raised) is the outcome for the input without them, no such
    record is in the bundle, and the duplicate report holds no empty name. *)
Theorem unnamed_skipped (fetched : list sig) :
  sort_rules true fetched = sort_rules true (filter (λ s, named s) fetched)
  ∧ (∀ bd, sort_rules true fetched = Ok bd →
       (∀ r, named r = false → r ∉ bundle_rules bd)
       ∧ (∀ n, n ∈ bundle_duplicates bd → n ≠ "")).
Proof.
  split.
  - unfold sort_rules, prepare. by rewrite <- dedup_filter_named.
  - intros bd H. split.
    + intros r Hr Hin. apply (bundle_rules_input _ _ _ _ H) in Hin.
      unfold resolution_input in Hin.
      apply (well_keyed_values_named _ _ (dedup_well_keyed fetched)) in Hin.
      congruence.
    + apply sort_rules_spec in H as (b & e0 & ? & ? & ? & ? & ? & ? & Hprep & _).
      apply prepare_spec in Hprep as (Hdups & _). rewrite Hdups.
      apply Forall_forall. by apply fold_dedup_dups_nonempty.
Qed.

Lemma unnamed_skipped_witness :
  sort_rules true [unnamed_rule; rule_c; empty_named_rule; rule_b]
    = sort_rules true
        (filter (λ s, named s) [unnamed_rule; rule_c; empty_named_rule; rule_b])
  ∧ (∀ r, named r = false → r ∉ bundle_rules (Bundle [rule_c; rule_b] [] []))
  ∧ (∀ n, n ∈ bundle_duplicates (Bundle [rule_c; rule_b] [] []) → n ≠ "").
Proof.
  assert (Hrun : sort_rules true [unnamed_rule; rule_c; empty_named_rule; rule_b]
                 = Ok (Bundle [rule_c; rule_b] [] []))
    by (vm_compute; reflexivity).
  split.
  - exact (proj1 (unnamed_skipped _)).
  - exact (proj2 (unnamed_skipped _) _ Hrun).
Defined.

(** ** Three revisions of one name *)

Lemma dedup_three_revisions_witness :
  dict_get "X" (dedup ([rule_c] ++ rule_x1 :: [] ++ rule_x2 :: [rule_a]
                         ++ rule_x3 :: [])).1 = Some rule_x2
  ∧ (∀ s, s ∈ dict_values (dedup ([rule_c] ++ rule_x1 :: [] ++ rule_x2 :: [rule_a]
                                    ++ rule_x3 :: [])).1 →
          name s = Some "X" → s = rule_x2)
  ∧ filter (λ n, n = "X")
      (dedup ([rule_c] ++ rule_x1 :: [] ++ rule_x2 :: [rule_a]
                ++ rule_x3 :: [])).2 = ["X"]
  ∧ dedup ([rule_c] ++ [rule_x1])
    = (dict_set "X" rule_x1 (dedup [rule_c]).1, (dedup [rule_c]).2)
  ∧ dict_get "X" (dedup ([rule_c] ++ rule_x1 :: [])).1 = Some rule_x1
  ∧ dedup (([rule_c] ++ rule_x1 :: []) ++ [rule_x2])
    = (dict_set "X" rule_x2 (dedup ([rule_c] ++ rule_x1 :: [])).1,
       (dedup ([rule_c] ++ rule_x1 :: [])).2)
  ∧ dict_get "X" (dedup ([rule_c] ++ rule_x1 :: [] ++ rule_x2 :: [rule_a])).1
    = Some rule_x2
  ∧ filter (λ n, n = "X")
      (dedup ([rule_c] ++ rule_x1 :: [] ++ rule_x2 :: [rule_a])).2 = []
  ∧ dedup (([rule_c] ++ rule_x1 :: [] ++ rule_x2 :: [rule_a]) ++ [rule_x3])
    = ((dedup ([rule_c] ++ rule_x1 :: [] ++ rule_x2 :: [rule_a])).1,
       (dedup ([rule_c] ++ rule_x1 :: [] ++ rule_x2 :: [rule_a])).2 ++ ["X"]).
Proof.
  assert (Hx : "X" ≠ "") by done.
  assert (Hothers : ∀ s, s ∈ [rule_c] ++ [] ++ [rule_a] ++ [] →
                         name s ≠ Some "X").
  { intros s Hs. simpl in Hs. apply elem_of_cons in Hs as [->|Hs]; [done|].
    apply list_elem_of_singleton in Hs. by subst. }
  exact (dedup_three_revisions [rule_c] [] [rule_a] [] rule_x1 rule_x2 rule_x3
           "X" Hx eq_refl eq_refl eq_refl eq_refl eq_refl eq_refl Hothers).
Defined.

(** On R1 (revision 1), R2 (revision 3), R3 (revision 2), all named X, the
    duplicate report holds one entry, not two. *)
Lemma dedup_three_revisions_counterexample :
  sort_rules true [rule_x1; rule_x2; rule_x3]
    = Ok (Bundle [rule_x2] ["X"] [])
  ∧ (dedup [rule_x1; rule_x2; rule_x3]).2 = ["X"]
  ∧ (dedup [rule_x1; rule_x2; rule_x3]).2 ≠ ["X"; "X"].
Proof. repeat split; try (vm_compute; reflexivity). vm_compute. discriminate. Qed.

Lemma dedup_keeps_last_maximal_witness :
  (∃ r l1 l2,
      dict_get "X" (dedup [rule_x1; rule_x2; rule_c; rule_x3]).1 = Some r
      ∧ [rule_x1; rule_x2; rule_c; rule_x3] = l1 ++ r :: l2
      ∧ name r = Some "X"
      ∧ (∀ s, s ∈ l1 → name s = Some "X" → version s ≤ version r)
      ∧ (∀ s, s ∈ l2 → name s = Some "X" → version s < version r)
      ∧ (∀ s, s ∈ dict_values (dedup [rule_x1; rule_x2; rule_c; rule_x3]).1 →
              name s = Some "X" → s = r))
  ∧ (∀ rules_map dups h s,
        dict_get "X" rules_map = Some h → name s = Some "X" →
        1 ≤ version s → version s < version h →
        (dedup_step (rules_map, dups) s).1 = rules_map).
Proof.
  assert (Hpos : ∀ s, s ∈ [rule_x1; rule_x2; rule_c; rule_x3] → 1 ≤ version s).
  { intros s Hs. repeat (apply elem_of_cons in Hs as [->|Hs]; [by vm_compute|]).
    by apply elem_of_nil in Hs. }
  assert (Hx : "X" ≠ "") by done.
  assert (Hex : ∃ s, s ∈ [rule_x1; rule_x2; rule_c; rule_x3]
                     ∧ name s = Some "X").
  { exists rule_x1. split; [left|done]. }
  exact (dedup_keeps_last_maximal _ "X" Hpos Hx Hex).
Defined.

(** ** The cache *)

Section DownloadProperties.

Variable sha256_hexdigest : string → string.
Variable dump_rule_file : list sig → string.

(** C7. When a call of the handler has returned a document, a second call
    with the same fingerprint (query text, access scope and
    last-modification stamp, whatever the safe flag and whatever the
    datastore now holds) returns the same response, document included, and
    its only use of a collaborator is one read of the cache: it takes no
    lock, fetches nothing, computes no bundle and leaves the cache as it
    is. *)
Theorem second_call_served_from_cache (w w1 : world) (st1 st2 : storage)
    (args1 args2 : request_args) (access1 access2 : string) (r1 : response) :
  fingerprint sha256_hexdigest (query_of args1) access1
    (get_signature_last_modified st1)
  = fingerprint sha256_hexdigest (query_of args2) access2
      (get_signature_last_modified st2) →
  download_signatures sha256_hexdigest dump_rule_file w st1 args1 access1
  = (w1, Ok r1) →
  download_signatures sha256_hexdigest dump_rule_file w1 st2 args2 access2
  = (World (signature_cache w1)
       (trace w1 ++ [CacheGet (fingerprint sha256_hexdigest (query_of args2)
                                 access2 (get_signature_last_modified st2))]),
     Ok r1).
Proof.
  unfold download_signatures, query_of. intros <-.
  set (h := fingerprint _ _ _ _).
  unfold _get_cached_signatures. simpl.
  destruct (signature_cache w !! h) as [doc|] eqn:Hget; simpl.
  - intros H. inversion H; subst. simpl. by rewrite Hget.
  - rewrite Hget.
    destruct (sort_rules _ _) as [b| |]; intros H; inversion H; subst.
    simpl. by rewrite lookup_insert_eq.
Qed.

End DownloadProperties.

Lemma second_call_served_from_cache_witness :
  download_signatures (λ s, s) (λ _, "rules")
    (World (<["q.user.2020" := header "q" "" "2020" "q.user.2020" +:+ "rules"]> ∅)
       [CacheGet "q.user.2020"; LockAcquire "q.user.2020.yar";
        CacheGet "q.user.2020"; Search "q" "user"; CacheSave "q.user.2020"])
    (Storage "2020" (λ _ _, [rule_a])) (RequestArgs (Some "q") None) "user"
  = (World (<["q.user.2020" := header "q" "" "2020" "q.user.2020" +:+ "rules"]> ∅)
       ([CacheGet "q.user.2020"; LockAcquire "q.user.2020.yar";
         CacheGet "q.user.2020"; Search "q" "user"; CacheSave "q.user.2020"]
          ++ [CacheGet "q.user.2020"]),
     Ok (make_file_response
           (header "q" "" "2020" "q.user.2020" +:+ "rules") "q.user.2020")).
Proof.
  assert (Hrun :
    download_signatures (λ s, s) (λ _, "rules") (World ∅ [])
      (Storage "2020" (λ _ _, [rule_c])) (RequestArgs (Some "q") (Some "true"))
      "user"
    = (World (<["q.user.2020"
                := header "q" "" "2020" "q.user.2020" +:+ "rules"]> ∅)
         [CacheGet "q.user.2020"; LockAcquire "q.user.2020.yar";
          CacheGet "q.user.2020"; Search "q" "user"; CacheSave "q.user.2020"],
       Ok (make_file_response
             (header "q" "" "2020" "q.user.2020" +:+ "rules") "q.user.2020")))
    by (vm_compute; reflexivity).
  exact (second_call_served_from_cache (λ s, s) (λ _, "rules") _ _
           (Storage "2020" (λ _ _, [rule_c])) (Storage "2020" (λ _ _, [rule_a]))
           (RequestArgs (Some "q") (Some "true")) (RequestArgs (Some "q") None)
           "user" "user" _ eq_refl Hrun).
Defined.

(** * Further properties of the sort *)

(** ** Nothing is lost between the partition and the bundle *)

Lemma buckets_cover (l : list sig) :
  filter (λ s, is_global s) l ++ filter (λ s, in_private_no_dep s) l
    ++ filter (λ s, in_private_dep s) l ++ filter (λ s, in_no_dep s) l
    ++ filter (λ s, in_dep s) l ≡ₚ l.
Proof.
  induction l as [|s l IH]; [done|].
  rewrite !filter_cons.
  unfold in_private_no_dep, in_private_dep, in_no_dep, in_dep in *.
  destruct (is_global s), (is_private s), (no_depends s); simpl;
    rewrite <- ?Permutation_middle; by rewrite IH.
Qed.

(** The records of the bundle and the records of the two stalled rounds
    (which safe mode leaves out) are the partitioned records. *)
Lemma sort_rules_conservation safe fetched bd :
  sort_rules safe fetched = Ok bd →
  ∃ dropped,
    bundle_rules bd ++ dropped ≡ₚ resolution_input safe fetched
    ∧ (safe = false → dropped = []).
Proof.
  intros H. apply sort_rules_spec in H
    as (b & e0 & placed_p & stalled_p & errs_p & placed_g & stalled_g & errs_g
        & Hprep & Hbundle & Hperm_p & Hperm_g & _).
  apply prepare_spec in Hprep as (_ & Hg & Hpn & Hpd & Hn & Hd & _).
  exists (if safe then stalled_p ++ stalled_g else []).
  split; [|by intros ->].
  rewrite <- (buckets_cover (resolution_input safe fetched)).
  rewrite <- Hg, <- Hpn, <- Hpd, <- Hn, <- Hd, <- Hperm_p, <- Hperm_g, Hbundle.
  destruct safe; rewrite ?app_nil_r; [|done].
  solve_Permutation.
Qed.

(** X1. In non-safe mode the bundle is a permutation of the fetched
    records: every fetched record is in the bundle exactly as often as it was
    fetched, duplicates and stalled records included. *)
Theorem non_safe_bundle_permutation (fetched : list sig) (bd : bundle) :
  sort_rules false fetched = Ok bd → bundle_rules bd ≡ₚ fetched.
Proof.
  intros H. apply sort_rules_conservation in H as (dropped & Hperm & Hnil).
  rewrite (Hnil eq_refl), app_nil_r in Hperm. exact Hperm.
Qed.

Lemma non_safe_bundle_permutation_witness :
  bundle_rules (Bundle [global_g; rule_x1; rule_x2; rule_c; rule_a] [] ["A"])
  ≡ₚ [rule_a; rule_x2; rule_c; global_g; rule_x1].
Proof.
  assert (Hrun : sort_rules false [rule_a; rule_x2; rule_c; global_g; rule_x1]
                 = Ok (Bundle [global_g; rule_x1; rule_x2; rule_c; rule_a] []
                         ["A"]))
    by (vm_compute; reflexivity).
  exact (non_safe_bundle_permutation _ _ Hrun).
Defined.

(** ** Names in the safe-mode bundle *)

Lemma well_keyed_names m : well_keyed m → names_of (dict_values m) = m.*1.
Proof.
  intros [_ Hall]. unfold names_of, dict_values.
  induction Hall as [|[k v] m [Hk _] _ IH]; [done|].
  simpl in *. rewrite Hk. f_equal. exact IH.
Qed.

Lemma names_of_length l :
  (∀ r, r ∈ l → is_Some (name r)) → length (names_of l) = length l.
Proof.
  unfold names_of. induction l as [|r l IH]; intros H; [done|].
  destruct (H r) as [n Hn]; [left|]. simpl. rewrite Hn. simpl. f_equal.
  apply IH. intros r' Hr'. apply H. by right.
Qed.

(** X2. In safe mode every rule of the bundle has a non-empty name and no
    two rules of the bundle have the same name. *)
Theorem safe_bundle_names_distinct (fetched : list sig) (bd : bundle) :
  sort_rules true fetched = Ok bd →
  NoDup (names_of (bundle_rules bd))
  ∧ length (names_of (bundle_rules bd)) = length (bundle_rules bd)
  ∧ "" ∉ names_of (bundle_rules bd).
Proof.
  intros H.
  assert (Hnamed : ∀ r, r ∈ bundle_rules bd → named r = true).
  { intros r Hr. apply (bundle_rules_input _ _ _ _ H) in Hr.
    by apply (well_keyed_values_named _ _ (dedup_well_keyed fetched)) in Hr. }
  repeat split.
  - apply sort_rules_conservation in H as (dropped & Hperm & _).
    apply names_of_perm in Hperm. unfold resolution_input in Hperm.
    rewrite well_keyed_names, names_of_app in Hperm
      by apply dedup_well_keyed.
    destruct (dedup_well_keyed fetched) as [Hnd _].
    rewrite <- Hperm in Hnd. by apply NoDup_app in Hnd as [? _].
  - apply names_of_length. intros r Hr. apply Hnamed, named_spec in Hr
      as (n & Hn & _). by exists n.
  - intros Hin. apply elem_of_names_of in Hin as (r & Hr & Hn).
    apply Hnamed, named_spec in Hr as (n & Hn' & Hne). congruence.
Qed.

Lemma safe_bundle_names_distinct_witness :
  NoDup (names_of (bundle_rules (Bundle [rule_x2; rule_c] ["X"; "X"] [])))
  ∧ length (names_of (bundle_rules (Bundle [rule_x2; rule_c] ["X"; "X"] [])))
    = length (bundle_rules (Bundle [rule_x2; rule_c] ["X"; "X"] []))
  ∧ "" ∉ names_of (bundle_rules (Bundle [rule_x2; rule_c] ["X"; "X"] [])).
Proof.
  assert (Hrun : sort_rules true [rule_x2; rule_c; rule_x1; empty_named_rule;
                                  rule_x3]
                 = Ok (Bundle [rule_x2; rule_c] ["X"; "X"] []))
    by (vm_compute; reflexivity).
  exact (safe_bundle_names_distinct _ _ Hrun).
Defined.

(** ** When the sort raises *)

Lemma bind_not_raise {A B} (m : outcome A) (f : A → outcome B) (x : exn) :
  m ≠ Raise x → (∀ a, m = Ok a → f a ≠ Raise x) → m ≫= f ≠ Raise x.
Proof.
  destruct m; simpl; intros H1 H2; [auto| |done].
  intros Heq. apply H1. by inversion Heq.
Qed.

Lemma get_name_not_type_error r : get_name r ≠ Raise TypeError.
Proof. unfold get_name. by destruct (name r). Qed.

Lemma classify_not_type_error st s : classify st s ≠ Raise TypeError.
Proof.
  destruct st as [b nm]. unfold classify, get_name.
  destruct (is_global s), (is_private s), (no_depends s), (name s); done.
Qed.

Lemma for_each_not_raise {A B} (body : B → A → outcome B) (P : A → Prop)
    (x : exn) (l : list A) :
  (∀ b a, P a → body b a ≠ Raise x) → Forall P l →
  ∀ b, for_each body l b ≠ Raise x.
Proof.
  intros Hbody. induction 1 as [|a l Ha _ IH]; intros b; simpl; [done|].
  apply bind_not_raise; auto.
Qed.

Lemma comprehension_not_raise {A B} (f : A → outcome B) (P : A → Prop)
    (x : exn) (l : list A) :
  (∀ a, P a → f a ≠ Raise x) → Forall P l → comprehension f l ≠ Raise x.
Proof.
  intros Hf. induction 1 as [|a l Ha _ IH]; unfold comprehension;
    fold (@comprehension A B); [done|].
  apply bind_not_raise; [auto|]. intros y _.
  apply bind_not_raise; [done|]. done.
Qed.

Lemma Forall_True {A} (l : list A) : Forall (λ _, True) l.
Proof. by apply Forall_forall. Qed.

Lemma sorted_by_rule_id_not_type_error l :
  sorted_by_rule_id l ≠ Raise TypeError.
Proof.
  unfold sorted_by_rule_id. apply bind_not_raise; [|done].
  apply (comprehension_not_raise _ (λ _, True)); [|apply Forall_True].
  intros k _. unfold sort_key. by destruct (meta k).
Qed.

Lemma prepare_not_type_error safe fetched :
  prepare safe fetched ≠ Raise TypeError.
Proof.
  unfold prepare.
  destruct (if safe then _ else _) as [input dups].
  apply bind_not_raise.
  { apply (for_each_not_raise _ (λ _, True)); [|apply Forall_True].
    intros. apply classify_not_type_error. }
  intros [b nm] _.
  repeat (apply bind_not_raise;
          [apply sorted_by_rule_id_not_type_error|intros ? _]).
  done.
Qed.

(** The records of the two dependency buckets have a dependency list. *)
Lemma in_private_dep_depends s : in_private_dep s = true → is_Some (depends s).
Proof.
  unfold in_private_dep, no_depends. destruct (depends s) as [[|]|]; eauto;
    destruct (is_global s), (is_private s); done.
Qed.

Lemma in_dep_depends s : in_dep s = true → is_Some (depends s).
Proof.
  unfold in_dep, no_depends. destruct (depends s) as [[|]|]; eauto;
    destruct (is_global s), (is_private s); done.
Qed.

Lemma scan_not_type_error e rules :
  Forall (λ r, is_Some (depends r)) rules → scan e rules ≠ Raise TypeError.
Proof.
  intros Hdeps. unfold scan.
  apply (for_each_not_raise _ (λ r, is_Some (depends r))); [|done].
  intros [e0 new0] r [ds Hds]. unfold scan_step, iter_depends. rewrite Hds.
  simpl. destruct (missing_dep _ _); [done|].
  apply bind_not_raise; [apply get_name_not_type_error|done].
Qed.

Lemma force_include_not_type_error safe e rules :
  force_include safe e rules ≠ Raise TypeError.
Proof.
  unfold force_include. destruct safe; simpl; [done|].
  apply bind_not_raise; [|done].
  apply (for_each_not_raise _ (λ _, True)); [|apply Forall_True].
  intros nm r _. unfold mark_resolved.
  apply bind_not_raise; [apply get_name_not_type_error|done].
Qed.

Lemma report_depends_not_type_error rules :
  Forall (λ r, is_Some (depends r)) rules →
  report_depends rules ≠ Raise TypeError.
Proof.
  intros Hdeps. unfold report_depends. apply bind_not_raise; [|done].
  apply (comprehension_not_raise _ (λ r, is_Some (depends r))); [|done].
  intros r [ds Hds]. unfold iter_depends. by rewrite Hds.
Qed.

Lemma report_names_not_type_error rules : report_names rules ≠ Raise TypeError.
Proof.
  unfold report_names.
  apply (comprehension_not_raise _ (λ _, True)); [|apply Forall_True].
  intros r _. apply get_name_not_type_error.
Qed.

Lemma dep_loop_not_type_error report fuel :
  (∀ l, Forall (λ r, is_Some (depends r)) l → report l ≠ Raise TypeError) →
  ∀ safe e rules, Forall (λ r, is_Some (depends r)) rules →
    dep_loop report fuel safe e rules ≠ Raise TypeError.
Proof.
  intros Hrep. induction fuel as [|fuel IH]; intros safe e rules Hdeps.
  all: destruct rules as [|r rs]; [by rewrite dep_loop_nil|].
  - done.
  - simpl. apply bind_not_raise; [by apply scan_not_type_error|].
    intros [e1 new] Hscan.
    destruct (bool_decide_reflect (r :: rs = new)) as [<-|Hne].
    + apply bind_not_raise; [by apply Hrep|]. intros errs _.
      apply bind_not_raise; [apply force_include_not_type_error|].
      intros e3 _. by rewrite dep_loop_nil.
    + apply IH. apply scan_spec in Hscan as (placed & _ & _ & Hperm & _).
      rewrite <- Hperm in Hdeps. by apply Forall_app in Hdeps as [_ ?].
Qed.

Lemma for_each_classify_named l : ∀ st st',
  for_each classify l st = Ok st' →
  ∀ r, r ∈ l → is_global r = true ∨ no_depends r = true → is_Some (name r).
Proof.
  induction l as [|s l IH]; intros st st' H r Hr Hb; simpl in H.
  - by apply elem_of_nil in Hr.
  - inv_bind H. apply elem_of_cons in Hr as [->|Hr]; [|by eapply IH].
    destruct st as [b nm]. unfold classify, get_name in Hrun.
    destruct (name s); [eauto|]. exfalso.
    destruct (is_global s), (is_private s), (no_depends s);
      simpl in Hrun; try discriminate; by destruct Hb.
Qed.

Lemma sorted_by_rule_id_metas l l' :
  sorted_by_rule_id l = Ok l' → ∀ r, r ∈ l → is_Some (meta r).
Proof.
  unfold sorted_by_rule_id. intros H r Hr. inv_bind H.
  apply comprehension_inv in Hrun. clear H.
  induction Hrun as [|x k l ks Hx _ IH]; [by apply elem_of_nil in Hr|].
  apply elem_of_cons in Hr as [->|Hr]; [|by apply IH].
  unfold sort_key in Hx. destruct (meta x); [eauto|discriminate].
Qed.

Lemma for_each_scan_named rules : ∀ e new0 e' new',
  for_each scan_step rules (e, new0) = Ok (e', new') →
  ∀ r, r ∈ rules → r ∈ new' ∨ is_Some (name r).
Proof.
  induction rules as [|r0 rules IH]; intros e new0 e' new' H r Hr; simpl in H.
  - by apply elem_of_nil in Hr.
  - inv_bind H. destruct a as [e1 new1].
    apply elem_of_cons in Hr as [->|Hr]; [|by eapply IH].
    unfold scan_step in Hrun. destruct (iter_depends r0); simpl in Hrun;
      try discriminate.
    destruct (missing_dep _ _).
    + inversion Hrun; subst. left.
      apply for_each_scan_spec in H as (placed & kept & -> & _).
      rewrite !elem_of_app. left. right. left.
    + unfold get_name in Hrun. destruct (name r0); [eauto|discriminate].
Qed.

Lemma for_each_mark_resolved_named rules : ∀ nm nm',
  for_each mark_resolved rules nm = Ok nm' → ∀ r, r ∈ rules → is_Some (name r).
Proof.
  induction rules as [|r0 rules IH]; intros nm nm' H r Hr; simpl in H.
  - by apply elem_of_nil in Hr.
  - inv_bind H. apply elem_of_cons in Hr as [->|Hr]; [|by eapply IH].
    unfold mark_resolved, get_name in Hrun.
    destruct (name r0); [eauto|discriminate].
Qed.

(** In non-safe mode a loop that returns has read the name of every record
    it was given. *)
Lemma dep_loop_named report fuel : ∀ e rules e',
  dep_loop report fuel false e rules = Ok e' →
  ∀ r, r ∈ rules → is_Some (name r).
Proof.
  induction fuel as [|fuel IH]; intros e rules e' H r Hr.
  all: destruct rules as [|r0 rs]; [by apply elem_of_nil in Hr|].
  - discriminate.
  - simpl in H. inv_bind H. destruct a as [e1 new].
    destruct (bool_decide_reflect (r0 :: rs = new)) as [<-|Hne].
    + inv_bind H. inv_bind H. unfold force_include in Hrun1. simpl in Hrun1.
      inv_bind Hrun1.
      exact (for_each_mark_resolved_named (r0 :: rs) _ _ Hrun2 r Hr).
    + destruct (for_each_scan_named _ _ _ _ _ Hrun r Hr) as [Hnew|?]; [|done].
      eapply IH; eauto.
Qed.

Lemma prepare_inv safe fetched dups b e :
  prepare safe fetched = Ok (dups, b, e) →
  ∃ b0 nm,
    partition (resolution_input safe fetched) = Ok (b0, nm)
    ∧ sorted_by_rule_id (global_rules b0) = Ok (global_rules b)
    ∧ sorted_by_rule_id (private_rules_no_dep b0) = Ok (private_rules_no_dep b)
    ∧ sorted_by_rule_id (rules_no_dep b0) = Ok (rules_no_dep b)
    ∧ sorted_by_rule_id (private_rules_dep b0) = Ok (private_rules_dep b)
    ∧ sorted_by_rule_id (rules_dep b0) = Ok (rules_dep b).
Proof.
  unfold prepare, resolution_input. intros H.
  set (input := if safe then dict_values (dedup fetched).1 else fetched).
  assert (Hin : (if safe then let '(rules_map, dups) := dedup fetched in
                              (dict_values rules_map, dups)
                 else (fetched, []))
                = (input, if safe then (dedup fetched).2 else [])).
  { unfold input. destruct safe; [|done]. by destruct (dedup fetched). }
  rewrite Hin in H. clear Hin. inv_bind H. destruct a as [b0 nm].
  inv_bind H. inv_bind H. inv_bind H. inv_bind H. inv_bind H.
  inversion H; subst. clear H. simpl. by exists b0, nm.
Qed.

Lemma fold_dedup_values_fetched l : ∀ st (P : sig → Prop),
  (∀ s, s ∈ l → P s) → Forall (λ kv, P kv.2) st.1 →
  Forall (λ kv, P kv.2) (fold_left dedup_step l st).1.
Proof.
  induction l as [|s l IH]; intros st P Hl Hst; [done|]. simpl.
  apply IH; [intros s' Hs'; apply Hl; by right|].
  destruct st as [rm dups]. destruct (named s) eqn:Hnamed.
  - apply named_spec in Hnamed as (k & Hk & Hkne).
    rewrite (dedup_step_named _ _ _ k) by done.
    destruct (_ <? _); simpl; [done|].
    apply dict_set_Forall; [|done]. apply Hl. left.
  - by rewrite dedup_step_unnamed.
Qed.

(** The records kept by duplicate resolution are named records of the
    input. *)
Lemma dedup_values_fetched fetched r :
  r ∈ dict_values (dedup fetched).1 → r ∈ fetched ∧ named r = true.
Proof.
  intros Hr. split; [|by eapply well_keyed_values_named, Hr;
                        apply dedup_well_keyed].
  unfold dict_values in Hr. apply list_elem_of_fmap in Hr as (kv & -> & Hkv).
  assert (Hall : Forall (λ kv : string * sig, kv.2 ∈ fetched) (dedup fetched).1).
  { apply (fold_dedup_values_fetched fetched ([], []) (λ s, s ∈ fetched));
      [done|constructor]. }
  rewrite Forall_forall in Hall. by apply Hall.
Qed.

Lemma sort_rules_Ok_named_meta safe fetched bd :
  sort_rules safe fetched = Ok bd →
  ∀ r, r ∈ resolution_input safe fetched → is_Some (name r) ∧ is_Some (meta r).
Proof.
  unfold sort_rules. intros H r Hr. inv_bind H. destruct a as [[dups b] e0].
  inv_bind H. inv_bind H. clear H.
  pose proof (prepare_spec _ _ _ _ _ Hrun) as (_ & _ & _ & Hpd & _ & Hd & _).
  apply prepare_inv in Hrun as (b0 & nm & Hpart & Hs1 & Hs2 & Hs3 & Hs4 & Hs5).
  pose proof (partition_spec _ _ _ Hpart) as (Hg0 & Hpn0 & Hpd0 & Hn0 & Hd0 & _).
  assert (Hbucket : r ∈ global_rules b0 ∨ r ∈ private_rules_no_dep b0
                    ∨ r ∈ private_rules_dep b0 ∨ r ∈ rules_no_dep b0
                    ∨ r ∈ rules_dep b0).
  { rewrite <- (buckets_cover (resolution_input safe fetched)) in Hr.
    rewrite !elem_of_app in Hr. rewrite Hg0, Hpn0, Hpd0, Hn0, Hd0. tauto. }
  split.
  - destruct safe.
    { apply dedup_values_fetched in Hr as [_ Hn].
      apply named_spec in Hn as (n & Hn & _). eauto. }
    destruct (is_global r) eqn:Hglob.
    { eapply for_each_classify_named; [exact Hpart|done|by left]. }
    destruct (no_depends r) eqn:Hnd.
    { eapply for_each_classify_named; [exact Hpart|done|by right]. }
    destruct (is_private r) eqn:Hpriv.
    + rewrite private_loop_dep_loop in Hrun0.
      apply (dep_loop_named _ _ _ _ _ Hrun0). rewrite Hpd.
      apply list_elem_of_filter. split; [|done].
      unfold in_private_dep. by rewrite Hglob, Hpriv, Hnd.
    + rewrite general_loop_dep_loop in Hrun1.
      apply (dep_loop_named _ _ _ _ _ Hrun1). rewrite Hd.
      apply list_elem_of_filter. split; [|done].
      unfold in_dep. by rewrite Hglob, Hpriv, Hnd.
  - destruct Hbucket as [?|[?|[?|[?|?]]]];
      eauto using sorted_by_rule_id_metas.
Qed.

Lemma partition_total l :
  (∀ r, r ∈ l → is_Some (name r)) → ∃ st, partition l = Ok st.
Proof.
  intros Hl. unfold partition.
  apply (for_each_total classify (λ r, is_Some (name r))); [|by apply Forall_forall].
  intros [b nm] r [n Hn]. unfold classify, get_name. rewrite Hn. simpl.
  destruct (is_global r), (is_private r), (no_depends r); eauto.
Qed.

Lemma sorted_by_rule_id_total l :
  (∀ r, r ∈ l → is_Some (meta r)) → ∃ l', sorted_by_rule_id l = Ok l'.
Proof.
  intros Hl. unfold sorted_by_rule_id.
  destruct (comprehension_total sort_key (λ r, is_Some (meta r)) l) as [ks ->];
    [|by apply Forall_forall|simpl; eauto].
  intros r [m Hm]. unfold sort_key. rewrite Hm. eauto.
Qed.

(** X3. Whenever the sort returns a bundle, every partitioned record (the
    fetched records in non-safe mode, the records kept by duplicate
    resolution in safe mode) has a name and a meta block: a record that
    lacks either is never left out of a returned bundle, it makes the sort
    fail. *)
Theorem bundle_needs_name_and_meta (safe : bool) (fetched : list sig)
    (bd : bundle) :
  sort_rules safe fetched = Ok bd →
  ∀ r, r ∈ resolution_input safe fetched →
       is_Some (name r) ∧ is_Some (meta r).
Proof. apply sort_rules_Ok_named_meta. Qed.

Lemma bundle_needs_name_and_meta_witness :
  sort_rules true [rule_x1; rule_x2; unnamed_rule; rule_a]
  = Ok (Bundle [rule_x2] [] ["A"])
  ∧ ∀ r, r ∈ resolution_input true [rule_x1; rule_x2; unnamed_rule; rule_a] →
         is_Some (name r) ∧ is_Some (meta r).
Proof.
  assert (Hrun : sort_rules true [rule_x1; rule_x2; unnamed_rule; rule_a]
                 = Ok (Bundle [rule_x2] [] ["A"]))
    by (vm_compute; reflexivity).
  split; [exact Hrun|].
  exact (bundle_needs_name_and_meta true _ _ Hrun).
Defined.

(** ** The sort of a bucket *)

Lemma leb_refl (k : string) : String.leb k k = true.
Proof. by destruct (String.leb_total k k). Qed.

Lemma insert_by_key_filter k kx x l :
  filter (λ p : string * sig, p.1 = k) (insert_by_key kx x l)
  = filter (λ p : string * sig, p.1 = k) ((kx, x) :: l).
Proof.
  induction l as [|[ky y] l IH]; simpl; [done|].
  destruct (String.leb kx ky) eqn:Hle; [done|].
  assert (Hne : ky ≠ kx).
  { intros ->. by rewrite leb_refl in Hle. }
  rewrite (filter_cons _ (ky, y)), IH, !filter_cons. simpl.
  destruct (decide (ky = k)) as [->|]; [|done].
  by rewrite !decide_False by done.
Qed.

Lemma sort_keyed_filter k l :
  filter (λ p : string * sig, p.1 = k) (sort_keyed l)
  = filter (λ p : string * sig, p.1 = k) l.
Proof.
  induction l as [|[kx x] l IH]; simpl; [done|].
  by rewrite insert_by_key_filter, !filter_cons, IH.
Qed.

Lemma comprehension_sort_key l keys :
  comprehension sort_key l = Ok keys →
  zip keys l = (λ r, (rule_id_of r, r)) <$> l.
Proof.
  intros H. apply comprehension_inv in H.
  induction H as [|r k l ks Hr _ IH]; [done|]. simpl. rewrite IH. f_equal.
  unfold sort_key in Hr. unfold rule_id_of.
  destruct (meta r); inversion Hr; by subst.
Qed.

Lemma keyed_snd_Sorted (s : list (string * sig)) :
  Forall (λ p, p.1 = rule_id_of p.2) s →
  Sorted (λ a b : string * sig, String.leb a.1 b.1 = true) s →
  Sorted (λ a b, String.leb (rule_id_of a) (rule_id_of b) = true) s.*2.
Proof.
  intros Hcons Hs. induction Hs as [|p s Hs IH Hhd]; [constructor|].
  apply Forall_cons in Hcons as [Hp Hcons]. simpl. constructor; [by apply IH|].
  destruct Hhd as [|q s' Hpq]; simpl; constructor.
  apply Forall_cons in Hcons as [Hq _]. by rewrite <- Hp, <- Hq.
Qed.

Lemma keyed_snd_filter k (s : list (string * sig)) :
  Forall (λ p, p.1 = rule_id_of p.2) s →
  filter (λ r, rule_id_of r = k) s.*2
  = (filter (λ p : string * sig, p.1 = k) s).*2.
Proof.
  induction 1 as [|p s Hp _ IH]; [done|].
  rewrite fmap_cons, !filter_cons, IH, <- Hp.
  by destruct (decide (p.1 = k)).
Qed.

(** X5. Sorting a bucket returns its records in ascending order of rule id,
    as a permutation of the bucket, and records with the same rule id stay
    in the order they had (the sort is stable). *)
Theorem sorted_by_rule_id_stable (l l' : list sig) :
  sorted_by_rule_id l = Ok l' →
  l' ≡ₚ l
  ∧ Sorted (λ a b, String.leb (rule_id_of a) (rule_id_of b) = true) l'
  ∧ (∀ k, filter (λ r, rule_id_of r = k) l' = filter (λ r, rule_id_of r = k) l).
Proof.
  intros H. split; [by apply sorted_by_rule_id_perm|].
  unfold sorted_by_rule_id in H. inv_bind H. inversion H; subst. clear H.
  apply comprehension_sort_key in Hrun. rewrite Hrun.
  assert (Hcons : Forall (λ p : string * sig, p.1 = rule_id_of p.2)
                    (sort_keyed ((λ r, (rule_id_of r, r)) <$> l))).
  { rewrite sort_keyed_perm. apply Forall_fmap, Forall_forall. done. }
  split.
  - apply keyed_snd_Sorted; [done|apply sort_keyed_Sorted].
  - intros k. rewrite keyed_snd_filter, sort_keyed_filter by done.
    rewrite <- keyed_snd_filter.
    + f_equal. rewrite <- list_fmap_compose. apply list_fmap_id.
    + apply Forall_fmap, Forall_forall. done.
Qed.

Lemma sorted_by_rule_id_stable_witness :
  [rule_x1; rule_a; rule_c] ≡ₚ [rule_c; rule_x1; rule_a]
  ∧ Sorted (λ a b, String.leb (rule_id_of a) (rule_id_of b) = true)
      [rule_x1; rule_a; rule_c]
  ∧ (∀ k, filter (λ r, rule_id_of r = k) [rule_x1; rule_a; rule_c]
          = filter (λ r, rule_id_of r = k) [rule_c; rule_x1; rule_a]).
Proof.
  assert (Hrun : sorted_by_rule_id [rule_c; rule_x1; rule_a]
                 = Ok [rule_x1; rule_a; rule_c]) by (vm_compute; reflexivity).
  exact (sorted_by_rule_id_stable _ _ Hrun).
Defined.

(** ** Resolution is complete *)

Lemma first_in (l stalled : list sig) :
  (∃ x, x ∈ l ∧ x ∈ stalled) →
  ∃ pre r post, l = pre ++ r :: post ∧ r ∈ stalled
                ∧ ∀ x, x ∈ pre → x ∉ stalled.
Proof.
  induction l as [|a l IH]; intros (x & Hx & Hs).
  - by apply elem_of_nil in Hx.
  - destruct (decide (a ∈ stalled)) as [Ha|Ha].
    + exists [], a, l. repeat split; [done|].
      intros y Hy. by apply elem_of_nil in Hy.
    + apply elem_of_cons in Hx as [->|Hx]; [done|].
      destruct IH as (pre & r & post & -> & Hr & Hpre); [eauto|].
      exists (a :: pre), r, post. repeat split; [done|].
      intros y Hy. apply elem_of_cons in Hy as [->|Hy]; auto.
Qed.

Lemma dep_loop_complete report fuel safe e rules e' ord :
  dep_loop report fuel safe e rules = Ok e' →
  ord ≡ₚ rules → dependencies_precede (resolved (name_map e)) ord →
  ∃ placed,
    signature_list e' = signature_list e ++ placed
    ∧ placed ≡ₚ rules
    ∧ dependencies_precede (resolved (name_map e)) placed
    ∧ error_rules e' = error_rules e.
Proof.
  intros H Hord Hdp. apply dep_loop_spec in H
    as (placed & stalled & errs & Hsl & Hperm & Hdp' & Hst & _ & Herr & Hnil & _).
  assert (Hstalled : stalled = []).
  { destruct stalled as [|s0 stalled']; [done|]. exfalso.
    destruct (first_in ord (s0 :: stalled')) as (pre & r & post & -> & Hr & Hpre).
    { exists s0. split; [|left]. rewrite Hord, <- Hperm.
      apply elem_of_app. right. left. }
    rewrite Forall_forall in Hst.
    destruct (Hst r Hr) as (d & Hd & Hno). apply Hno.
    destruct (Hdp pre r post d eq_refl Hd) as [?|Hin]; [by left|right].
    apply elem_of_names_of in Hin as (p & Hp & Hn).
    apply elem_of_names_of. exists p. split; [|done].
    assert (Hin : p ∈ placed ++ s0 :: stalled').
    { rewrite Hperm, <- Hord. apply elem_of_app. by left. }
    apply elem_of_app in Hin as [?|Hin]; [done|]. by destruct (Hpre p Hp). }
  subst stalled. exists placed. rewrite app_nil_r in Hperm.
  repeat split; try done.
  - rewrite Hsl. by destruct safe; rewrite app_nil_r.
  - by rewrite Herr, (Hnil eq_refl), app_nil_r.
Qed.

(** X6. Whenever the records given to a dependency-resolution loop can be
    put in some order in which every dependency name is resolved at the start
    or carried by an earlier record, the loop finds such an order: it places
    every record, in dependency order, drops none and reports nothing, in
    safe and in non-safe mode. *)
Theorem resolution_complete (fuel : nat) (safe : bool) (e e' : env)
    (rules ord : list sig) :
  private_loop fuel safe e rules = Ok e'
  ∨ general_loop fuel safe e rules = Ok e' →
  ord ≡ₚ rules → dependencies_precede (resolved (name_map e)) ord →
  ∃ placed,
    signature_list e' = signature_list e ++ placed
    ∧ placed ≡ₚ rules
    ∧ dependencies_precede (resolved (name_map e)) placed
    ∧ error_rules e' = error_rules e.
Proof.
  intros [H|H] Hord Hdp.
  - rewrite private_loop_dep_loop in H. by eapply dep_loop_complete.
  - rewrite general_loop_dep_loop in H. by eapply dep_loop_complete.
Qed.

Lemma resolution_complete_witness :
  ∃ placed,
    signature_list
      (Env (<["A" := true]> (<["B" := true]> (<["C" := true]> ∅)))
         [rule_c; rule_b; rule_a] [])
    = signature_list (Env (<["C" := true]> ∅) [rule_c] []) ++ placed
    ∧ placed ≡ₚ [rule_a; rule_b]
    ∧ dependencies_precede (resolved (name_map (Env (<["C" := true]> ∅)
                                                  [rule_c] []))) placed
    ∧ error_rules
        (Env (<["A" := true]> (<["B" := true]> (<["C" := true]> ∅)))
           [rule_c; rule_b; rule_a] [])
      = error_rules (Env (<["C" := true]> ∅) [rule_c] []).
Proof.
  assert (Hrun : general_loop 2 true (Env (<["C" := true]> ∅) [rule_c] [])
                   [rule_a; rule_b]
                 = Ok (Env (<["A" := true]> (<["B" := true]> (<["C" := true]> ∅)))
                         [rule_c; rule_b; rule_a] []))
    by (vm_compute; reflexivity).
  assert (Hord : [rule_b; rule_a] ≡ₚ [rule_a; rule_b]) by apply perm_swap.
  assert (Hdp : dependencies_precede (resolved (<["C" := true]> ∅))
                  [rule_b; rule_a]).
  { apply dependencies_precede_cons.
    - intros d Hd. apply list_elem_of_singleton in Hd. subst.
      vm_compute. reflexivity.
    - apply dependencies_precede_cons; [|apply dependencies_precede_nil].
      intros d Hd. apply list_elem_of_singleton in Hd. subst.
      right. apply elem_of_names_of. exists rule_b. split; [left|done]. }
  exact (resolution_complete 2 true _ _ _ _ (or_intror Hrun) Hord Hdp).
Defined.

(** ** Duplicate report *)

Lemma dict_set_keeps k v m n :
  is_Some (dict_get n m) → is_Some (dict_get n (dict_set k v m)).
Proof.
  intros H. destruct (decide (n = k)) as [->|Hne].
  - rewrite dict_get_set_eq. eauto.
  - by rewrite dict_get_set_ne.
Qed.

Lemma fold_dedup_reported l : ∀ st,
  (∀ s, s ∈ l → 0 ≤ version s) →
  Forall (λ n, is_Some (dict_get n st.1)) st.2 →
  Forall (λ n, is_Some (dict_get n (fold_left dedup_step l st).1))
    (fold_left dedup_step l st).2.
Proof.
  induction l as [|s l IH]; intros st Hl Hst; [done|]. simpl.
  apply IH; [intros s' Hs'; apply Hl; by right|].
  destruct st as [rm dups]. simpl in Hst. destruct (named s) eqn:Hnamed.
  - apply named_spec in Hnamed as (k & Hk & Hkne).
    rewrite (dedup_step_named _ _ _ k) by done.
    destruct (Z.ltb_spec (version s) (pversion (dict_get k rm))) as [Hlt|_];
      simpl.
    + apply Forall_app. split; [done|]. constructor; [|constructor].
      destruct (dict_get k rm); [eauto|].
      unfold pversion in Hlt. simpl in Hlt.
      assert (0 ≤ version s) by (apply Hl; left). lia.
    + eapply Forall_impl; [exact Hst|]. intros n. apply dict_set_keeps.
  - by rewrite dedup_step_unnamed.
Qed.

(** X7. In safe mode, when no fetched record has a negative revision, every
    name of the duplicate report is non-empty and is the name of a record
    that duplicate resolution kept: reporting a duplicate never removes its
    name from the records passed on. *)
Theorem reported_duplicate_has_holder (fetched : list sig) (n : string) :
  (∀ s, s ∈ fetched → 0 ≤ version s) →
  n ∈ (dedup fetched).2 →
  n ≠ ""
  ∧ ∃ r, dict_get n (dedup fetched).1 = Some r
         ∧ r ∈ resolution_input true fetched ∧ name r = Some n.
Proof.
  intros Hpos Hn. split.
  - pose proof (fold_dedup_dups_nonempty fetched ([], []) (Forall_nil_2 _)) as H.
    rewrite Forall_forall in H. by apply H.
  - pose proof (fold_dedup_reported fetched ([], []) Hpos (Forall_nil_2 _)) as H.
    rewrite Forall_forall in H. destruct (H n Hn) as [r Hr].
    exists r. split; [done|]. apply dict_get_elem in Hr.
    destruct (dedup_well_keyed fetched) as [_ Hall].
    rewrite Forall_forall in Hall. destruct (Hall _ Hr) as [Hname _].
    split; [|done]. unfold resolution_input, dict_values.
    apply list_elem_of_fmap. by exists (n, r).
Qed.

Lemma reported_duplicate_has_holder_witness :
  "X" ≠ ""
  ∧ ∃ r, dict_get "X" (dedup [rule_x1; rule_x2; rule_x3]).1 = Some r
         ∧ r ∈ resolution_input true [rule_x1; rule_x2; rule_x3]
         ∧ name r = Some "X".
Proof.
  assert (Hpos : ∀ s, s ∈ [rule_x1; rule_x2; rule_x3] → 0 ≤ version s).
  { intros s Hs. repeat (apply elem_of_cons in Hs as [->|Hs]; [by vm_compute|]).
    by apply elem_of_nil in Hs. }
  assert (Hn : "X" ∈ (dedup [rule_x1; rule_x2; rule_x3]).2).
  { vm_compute. left. }
  exact (reported_duplicate_has_holder _ "X" Hpos Hn).
Defined.

(** ** The handler: cache writes and the empty bundle *)

Lemma sort_rules_unnamed (fetched : list sig) :
  (∀ r, r ∈ fetched → named r = false) →
  sort_rules true fetched = Ok (Bundle [] [] []).
Proof.
  intros Hall.
  assert (Hnil : filter (λ s, named s) fetched = []).
  { induction fetched as [|s l IH]; [done|].
    rewrite filter_cons. rewrite (Hall s) by left. simpl.
    apply IH. intros r Hr. apply Hall. by right. }
  unfold sort_rules, prepare. by rewrite dedup_filter_named, Hnil.
Qed.

Section HandlerProperties.

Variable sha256_hexdigest : string → string.
Variable dump_rule_file : list sig → string.

(** X8. Whatever it returns, the handler leaves every existing cache entry
    as it is and writes at no other key than the fingerprint of the request;
    when it raises, the cache is unchanged; and it only ever adds events at
    the end of the trace. *)
Theorem download_cache_frame (w w' : world) (st : storage)
    (args : request_args) (access : string) (o : outcome response) :
  download_signatures sha256_hexdigest dump_rule_file w st args access
  = (w', o) →
  (∀ k doc, signature_cache w !! k = Some doc →
            signature_cache w' !! k = Some doc)
  ∧ (∀ k, k ≠ fingerprint sha256_hexdigest (query_of args) access
                (get_signature_last_modified st) →
          signature_cache w' !! k = signature_cache w !! k)
  ∧ ((∀ r, o ≠ Ok r) → signature_cache w' = signature_cache w)
  ∧ ∃ events, trace w' = trace w ++ events.
Proof.
  unfold download_signatures, _get_cached_signatures.
  set (h := fingerprint _ _ _ _). simpl.
  destruct (signature_cache w !! h) as [doc|] eqn:Hget; simpl.
  - intros H. inversion H; subst. simpl. repeat split; eauto.
  - rewrite Hget.
    destruct (sort_rules _ _) as [b| |]; intros H; inversion H; subst; simpl.
    + repeat split.
      * intros k doc Hk. rewrite lookup_insert_ne; [done|]. congruence.
      * intros k Hk. by rewrite lookup_insert_ne.
      * intros Hno. by destruct (Hno (make_file_response
                                        (header (query_of args)
                                           (error_text
                                              (bool_decide
                                                 (default "false" (arg_safe args)
                                                  = "true"))
                                              (bundle_duplicates b)
                                              (bundle_errors b))
                                           (get_signature_last_modified st) h
                                         +:+ dump_rule_file (bundle_rules b)) h)).
      * rewrite <- !app_assoc. eauto.
    + repeat split; eauto. rewrite <- !app_assoc. eauto.
    + repeat split; eauto. rewrite <- !app_assoc. eauto.
Qed.

(** X9. On a cache miss, when the search returns no record, or in safe mode
    only records without a name, the document is the header with an empty
    error block followed by the serialisation of no rule, and it is cached
    under the fingerprint: an empty result is not an error. *)
Theorem empty_bundle_document (w : world) (st : storage) (args : request_args)
    (access : string) :
  signature_cache w
    !! fingerprint sha256_hexdigest (query_of args) access
         (get_signature_last_modified st) = None →
  search_multiget st (query_of args) access = []
  ∨ (safe_of args = true
     ∧ ∀ r, r ∈ search_multiget st (query_of args) access → named r = false) →
  ∃ w',
    download_signatures sha256_hexdigest dump_rule_file w st args access
    = (w', Ok (make_file_response
                 (header (query_of args) "" (get_signature_last_modified st)
                    (fingerprint sha256_hexdigest (query_of args) access
                       (get_signature_last_modified st))
                  +:+ dump_rule_file [])
                 (fingerprint sha256_hexdigest (query_of args) access
                    (get_signature_last_modified st))))
    ∧ signature_cache w'
        !! fingerprint sha256_hexdigest (query_of args) access
             (get_signature_last_modified st)
      = Some (header (query_of args) "" (get_signature_last_modified st)
                (fingerprint sha256_hexdigest (query_of args) access
                   (get_signature_last_modified st))
              +:+ dump_rule_file []).
Proof.
  intros Hmiss Hempty.
  assert (Hsort : sort_rules (safe_of args)
                    (search_multiget st (query_of args) access)
                  = Ok (Bundle [] [] [])).
  { destruct Hempty as [->|[-> Hall]].
    - by destruct (safe_of args).
    - by apply sort_rules_unnamed. }
  unfold download_signatures, _get_cached_signatures.
  fold (safe_of args). simpl. rewrite Hmiss. simpl. rewrite Hmiss, Hsort. simpl.
  eexists. split; [reflexivity|]. simpl. by rewrite lookup_insert_eq.
Qed.

End HandlerProperties.

Lemma download_cache_frame_witness :
  (∀ k doc, signature_cache (World (<["other" := "kept"]> ∅) []) !! k = Some doc →
            signature_cache
              (World (<["q.user.2020"
                        := header "q" "" "2020" "q.user.2020" +:+ "rules"]>
                        (<["other" := "kept"]> ∅))
                 [CacheGet "q.user.2020"; LockAcquire "q.user.2020.yar";
                  CacheGet "q.user.2020"; Search "q" "user";
                  CacheSave "q.user.2020"]) !! k = Some doc)
  ∧ (∀ k, k ≠ fingerprint (λ s, s) (query_of (RequestArgs (Some "q") None))
                  "user"
                  (get_signature_last_modified
                     (Storage "2020" (λ _ _, [rule_c]))) →
          signature_cache
            (World (<["q.user.2020"
                      := header "q" "" "2020" "q.user.2020" +:+ "rules"]>
                      (<["other" := "kept"]> ∅))
               [CacheGet "q.user.2020"; LockAcquire "q.user.2020.yar";
                CacheGet "q.user.2020"; Search "q" "user";
                CacheSave "q.user.2020"]) !! k
          = signature_cache (World (<["other" := "kept"]> ∅) []) !! k)
  ∧ ((∀ r, Ok (make_file_response
                 (header "q" "" "2020" "q.user.2020" +:+ "rules") "q.user.2020")
           ≠ Ok r) →
     signature_cache
       (World (<["q.user.2020"
                 := header "q" "" "2020" "q.user.2020" +:+ "rules"]>
                 (<["other" := "kept"]> ∅))
          [CacheGet "q.user.2020"; LockAcquire "q.user.2020.yar";
           CacheGet "q.user.2020"; Search "q" "user"; CacheSave "q.user.2020"])
     = signature_cache (World (<["other" := "kept"]> ∅) []))
  ∧ ∃ events,
      trace (World (<["q.user.2020"
                      := header "q" "" "2020" "q.user.2020" +:+ "rules"]>
                      (<["other" := "kept"]> ∅))
               [CacheGet "q.user.2020"; LockAcquire "q.user.2020.yar";
                CacheGet "q.user.2020"; Search "q" "user";
                CacheSave "q.user.2020"])
      = trace (World (<["other" := "kept"]> ∅) []) ++ events.
Proof.
  assert (Hrun :
    download_signatures (λ s, s) (λ _, "rules")
      (World (<["other" := "kept"]> ∅) [])
      (Storage "2020" (λ _ _, [rule_c])) (RequestArgs (Some "q") None) "user"
    = (World (<["q.user.2020"
                := header "q" "" "2020" "q.user.2020" +:+ "rules"]>
                (<["other" := "kept"]> ∅))
         [CacheGet "q.user.2020"; LockAcquire "q.user.2020.yar";
          CacheGet "q.user.2020"; Search "q" "user"; CacheSave "q.user.2020"],
       Ok (make_file_response
             (header "q" "" "2020" "q.user.2020" +:+ "rules") "q.user.2020")))
    by (vm_compute; reflexivity).
  exact (download_cache_frame (λ s, s) (λ _, "rules") _ _ _ _ _ _ Hrun).
Defined.

Lemma empty_bundle_document_witness :
  ∃ w',
    download_signatures (λ s, s) (λ _, "") (World ∅ [])
      (Storage "2020" (λ _ _, [unnamed_rule; empty_named_rule]))
      (RequestArgs None (Some "true")) "user"
    = (w', Ok (make_file_response
                 (header (query_of (RequestArgs None (Some "true"))) ""
                    (get_signature_last_modified
                       (Storage "2020" (λ _ _, [unnamed_rule; empty_named_rule])))
                    (fingerprint (λ s, s)
                       (query_of (RequestArgs None (Some "true"))) "user"
                       (get_signature_last_modified
                          (Storage "2020"
                             (λ _ _, [unnamed_rule; empty_named_rule]))))
                  +:+ (λ _ : list sig, "") [])
                 (fingerprint (λ s, s)
                    (query_of (RequestArgs None (Some "true"))) "user"
                    (get_signature_last_modified
                       (Storage "2020"
                          (λ _ _, [unnamed_rule; empty_named_rule]))))))
    ∧ signature_cache w'
        !! fingerprint (λ s, s) (query_of (RequestArgs None (Some "true")))
             "user"
             (get_signature_last_modified
                (Storage "2020" (λ _ _, [unnamed_rule; empty_named_rule])))
      = Some (header (query_of (RequestArgs None (Some "true"))) ""
                (get_signature_last_modified
                   (Storage "2020" (λ _ _, [unnamed_rule; empty_named_rule])))
                (fingerprint (λ s, s)
                   (query_of (RequestArgs None (Some "true"))) "user"
                   (get_signature_last_modified
                      (Storage "2020"
                         (λ _ _, [unnamed_rule; empty_named_rule]))))
              +:+ (λ _ : list sig, "") []).
Proof.
  assert (Hmiss : signature_cache (World ∅ [])
                    !! fingerprint (λ s, s)
                         (query_of (RequestArgs None (Some "true"))) "user"
                         (get_signature_last_modified
                            (Storage "2020"
                               (λ _ _, [unnamed_rule; empty_named_rule])))
                  = None) by (vm_compute; reflexivity).
  assert (Hunnamed : ∀ r, r ∈ [unnamed_rule; empty_named_rule] →
                          named r = false).
  { intros r Hr. repeat (apply elem_of_cons in Hr as [->|Hr]; [done|]).
    by apply elem_of_nil in Hr. }
  exact (empty_bundle_document (λ s, s) (λ _, "") (World ∅ [])
           (Storage "2020" (λ _ _, [unnamed_rule; empty_named_rule]))
           (RequestArgs None (Some "true")) "user" Hmiss
           (or_intror (conj eq_refl Hunnamed))).
Defined.

(** * Service configurations *)

(** X10. Adding a non-empty configuration under a free name succeeds, reading
    the name back returns exactly that configuration, no other service is
    touched, and a second add under the same name is refused with status 400
    and leaves the first configuration in place. *)
Theorem add_service_round_trip (store : gmap string (gmap string json))
    (n : string) (data data' : gmap string json) :
  store !! n = None → data ≠ ∅ →
  api_status (add_service store n data).2 = 200%nat
  ∧ get_service (add_service store n data).1 n
    = ApiResponse (ServiceData data) "" 200
  ∧ (∀ m, m ≠ n → (add_service store n data).1 !! m = store !! m)
  ∧ (add_service (add_service store n data).1 n data').1
    = (add_service store n data).1
  ∧ api_status (add_service (add_service store n data).1 n data').2 = 400%nat.
Proof.
  intros Hfree Hne.
  assert (Hadd : add_service store n data
                 = (<[n := data]> store, ApiResponse (Success true) "" 200)).
  { unfold add_service. by rewrite Hfree. }
  rewrite Hadd. simpl. repeat split.
  - unfold get_service. rewrite lookup_insert_eq. simpl.
    by rewrite bool_decide_eq_true_2.
  - intros m Hm. by rewrite lookup_insert_ne.
  - unfold add_service. by rewrite lookup_insert_eq.
  - unfold add_service. by rewrite lookup_insert_eq.
Qed.

Lemma add_service_round_trip_witness :
  api_status (add_service ∅ "Extract" {["stage" := JStr "EXTRACT"]}).2 = 200%nat
  ∧ get_service (add_service ∅ "Extract" {["stage" := JStr "EXTRACT"]}).1
      "Extract"
    = ApiResponse (ServiceData {["stage" := JStr "EXTRACT"]}) "" 200
  ∧ (∀ m, m ≠ "Extract" →
          (add_service ∅ "Extract" {["stage" := JStr "EXTRACT"]}).1 !! m
          = (∅ : gmap string (gmap string json)) !! m)
  ∧ (add_service (add_service ∅ "Extract" {["stage" := JStr "EXTRACT"]}).1
       "Extract" ∅).1
    = (add_service ∅ "Extract" {["stage" := JStr "EXTRACT"]}).1
  ∧ api_status
      (add_service (add_service ∅ "Extract" {["stage" := JStr "EXTRACT"]}).1
         "Extract" ∅).2 = 400%nat.
Proof.
  assert (Hfree : (∅ : gmap string (gmap string json)) !! "Extract" = None)
    by apply lookup_empty.
  assert (Hne : ({["stage" := JStr "EXTRACT"]} : gmap string json) ≠ ∅).
  { apply insert_non_empty. }
  exact (add_service_round_trip ∅ "Extract" _ ∅ Hfree Hne).
Defined.

Lemma set_service_accepted (store : gmap string (gmap string json))
    (n : string) (data cur : gmap string json) :
  store !! n = Some cur → cur ≠ ∅ →
  (∀ v, data !! "name" = Some v → v = JStr n) →
  set_service store n data
  = (<[n := data ∪ cur]> store, ApiResponse (Success true) "" 200).
Proof.
  intros Hcur Hne Hname. unfold set_service. rewrite Hcur. simpl.
  rewrite bool_decide_eq_true_2 by done. simpl.
  destruct (data !! "name") as [v|] eqn:Hv; [|done].
  rewrite (Hname v eq_refl). simpl. by rewrite bool_decide_eq_false_2 by auto.
Qed.

Lemma set_service_inv (store store' : gmap string (gmap string json))
    (n : string) (data : gmap string json) (r : api_response) :
  set_service store n data = (store', r) →
  (store' = store ∧ api_status r ≠ 200%nat)
  ∨ (∃ cur, store !! n = Some cur ∧ cur ≠ ∅
            ∧ (∀ v, data !! "name" = Some v → v = JStr n)
            ∧ store' = <[n := data ∪ cur]> store
            ∧ r = ApiResponse (Success true) "" 200).
Proof.
  unfold set_service. destruct (store !! n) as [cur|] eqn:Hcur; simpl.
  - destruct (bool_decide_reflect (cur ≠ ∅)) as [Hne|Hempty]; simpl.
    + destruct (data !! "name") as [v|] eqn:Hv.
      * destruct (differs_from n v) eqn:Hd; intros H; inversion H; subst.
        -- left. by split.
        -- right. exists cur. repeat split; try done.
           intros v' Hv'. inversion Hv'; subst. unfold differs_from in Hd.
           destruct v'; try discriminate.
           apply bool_decide_eq_false in Hd. f_equal.
           destruct (decide (n = s)); [done|]. by destruct Hd.
      * intros H; inversion H; subst. right. exists cur. by repeat split.
    + intros H; inversion H; subst. left. by split.
  - intros H; inversion H; subst. left. by split.
Qed.

(** X11. When the service exists and the request does not rename it,
    [set_service] stores the merge of the request over the current
    configuration: every key of the request takes the request's value, every
    other key keeps its current value, and no other service is touched. *)
Theorem set_service_merges (store : gmap string (gmap string json))
    (n : string) (data cur : gmap string json) :
  store !! n = Some cur → cur ≠ ∅ →
  (∀ v, data !! "name" = Some v → v = JStr n) →
  api_status (set_service store n data).2 = 200%nat
  ∧ (∃ merged,
       (set_service store n data).1 !! n = Some merged
       ∧ ∀ k, merged !! k = match data !! k with
                            | Some v => Some v
                            | None => cur !! k
                            end)
  ∧ (∀ m, m ≠ n → (set_service store n data).1 !! m = store !! m).
Proof.
  intros Hcur Hne Hname. rewrite (set_service_accepted _ _ _ cur) by done.
  simpl. repeat split.
  - exists (data ∪ cur). split; [by rewrite lookup_insert_eq|].
    intros k. rewrite lookup_union. by destruct (data !! k), (cur !! k).
  - intros m Hm. by rewrite lookup_insert_ne.
Qed.

Lemma set_service_merges_witness :
  api_status
    (set_service {["Extract" := {["stage" := JStr "EXTRACT"]}]} "Extract"
       {["timeout" := JNum 60]}).2 = 200%nat
  ∧ (∃ merged,
       (set_service {["Extract" := {["stage" := JStr "EXTRACT"]}]} "Extract"
          {["timeout" := JNum 60]}).1 !! "Extract" = Some merged
       ∧ ∀ k, merged !! k
              = match ({["timeout" := JNum 60]} : gmap string json) !! k with
                | Some v => Some v
                | None => ({["stage" := JStr "EXTRACT"]} : gmap string json) !! k
                end)
  ∧ (∀ m, m ≠ "Extract" →
          (set_service {["Extract" := {["stage" := JStr "EXTRACT"]}]} "Extract"
             {["timeout" := JNum 60]}).1 !! m
          = ({["Extract" := {["stage" := JStr "EXTRACT"]}]}
               : gmap string (gmap string json)) !! m).
Proof.
  assert (Hcur : ({["Extract" := {["stage" := JStr "EXTRACT"]}]}
                    : gmap string (gmap string json)) !! "Extract"
                 = Some {["stage" := JStr "EXTRACT"]})
    by apply lookup_singleton_eq.
  assert (Hne : ({["stage" := JStr "EXTRACT"]} : gmap string json) ≠ ∅)
    by apply insert_non_empty.
  assert (Hname : ∀ v, ({["timeout" := JNum 60]} : gmap string json) !! "name"
                       = Some v → v = JStr "Extract").
  { intros v Hv. by rewrite lookup_singleton_ne in Hv. }
  exact (set_service_merges _ "Extract" _ _ Hcur Hne Hname).
Defined.

(** X12. [set_service] keeps the naming invariant: if every stored
    configuration that has a [name] is stored under that name, this is still
    so after the call, whatever the request holds. *)
Theorem set_service_keeps_names (store : gmap string (gmap string json))
    (n : string) (data : gmap string json) :
  name_consistent store → name_consistent (set_service store n data).1.
Proof.
  intros Hcons.
  destruct (set_service store n data) as [store' r] eqn:Hset. simpl.
  apply set_service_inv in Hset
    as [[-> _]|(cur & Hcur & Hne & Hname & -> & _)]; [done|].
  intros m d v Hm Hd. destruct (decide (m = n)) as [->|Hmn].
  - rewrite lookup_insert_eq in Hm. inversion Hm; subst.
    rewrite lookup_union in Hd.
    destruct (data !! "name") as [w|] eqn:Hw.
    + rewrite (Hname w eq_refl) in Hd.
      destruct (cur !! "name"); simpl in Hd; by inversion Hd.
    + destruct (cur !! "name") as [w|] eqn:Hc; simpl in Hd; [|done].
      inversion Hd; subst. by eapply Hcons.
  - rewrite lookup_insert_ne in Hm by done. by eapply Hcons.
Qed.

Lemma set_service_keeps_names_witness :
  name_consistent
    (set_service {["Extract" := {["name" := JStr "Extract"]}]} "Extract"
       {["timeout" := JNum 60]}).1.
Proof.
  assert (Hcons : name_consistent {["Extract" := {["name" := JStr "Extract"]}]}).
  { intros n d v Hn Hd. apply lookup_singleton_Some in Hn as [<- <-].
    apply lookup_singleton_Some in Hd as [_ <-]. done. }
  exact (set_service_keeps_names _ "Extract" {["timeout" := JNum 60]} Hcons).
Defined.

(** X13. Setting the same configuration twice is the same as setting it
    once: the second call returns the same response and leaves the store as
    the first call left it. *)
Theorem set_service_idempotent (store : gmap string (gmap string json))
    (n : string) (data : gmap string json) :
  set_service (set_service store n data).1 n data
  = ((set_service store n data).1, (set_service store n data).2).
Proof.
  destruct (set_service store n data) as [store' r] eqn:Hset. simpl.
  pose proof Hset as Hinv. apply set_service_inv in Hinv
    as [[-> _]|(cur & Hcur & Hne & Hname & -> & ->)]; [done|].
  rewrite (set_service_accepted _ _ _ (data ∪ cur)).
  - f_equal. rewrite insert_insert_eq. f_equal.
    apply map_eq. intros k. rewrite !lookup_union.
    by destruct (data !! k), (cur !! k).
  - by rewrite lookup_insert_eq.
  - intros Hempty. apply Hne. apply map_eq. intros k.
    assert (Hk : (data ∪ cur) !! k = None) by by rewrite Hempty, lookup_empty.
    rewrite lookup_union in Hk. rewrite lookup_empty.
    by destruct (data !! k), (cur !! k).
  - done.
Qed.

(** X14. A request that is refused changes nothing: whenever [add_service],
    [set_service] or [remove_service] answers with a status other than 200,
    the store is as it was; and after a removal that succeeds the service is
    gone, reading it answers 404, and no other service is touched. *)
Theorem service_refusals_change_nothing (store : gmap string (gmap string json))
    (n : string) (data : gmap string json) :
  (api_status (add_service store n data).2 ≠ 200%nat →
   (add_service store n data).1 = store)
  ∧ (api_status (set_service store n data).2 ≠ 200%nat →
     (set_service store n data).1 = store)
  ∧ (api_status (remove_service store n).2 ≠ 200%nat →
     (remove_service store n).1 = store)
  ∧ (api_status (remove_service store n).2 = 200%nat →
     (remove_service store n).1 !! n = None
     ∧ api_status (get_service (remove_service store n).1 n) = 404%nat
     ∧ ∀ m, m ≠ n → (remove_service store n).1 !! m = store !! m).
Proof.
  repeat split.
  - unfold add_service. by destruct (store !! n).
  - destruct (set_service store n data) as [store' r] eqn:Hset. simpl.
    apply set_service_inv in Hset as [[-> _]|(cur & _ & _ & _ & _ & ->)];
      [done|]. simpl. done.
  - unfold remove_service. by destruct (store !! n).
  - unfold remove_service in *. destruct (store !! n); simpl in *; [|lia].
    apply lookup_delete_eq.
  - unfold remove_service in *. destruct (store !! n); simpl in *; [|lia].
    unfold get_service. by rewrite lookup_delete_eq.
  - intros m Hm. unfold remove_service in *.
    destruct (store !! n); simpl in *; [|lia]. by rewrite lookup_delete_ne.
Qed.

(** * Signature documents: status changes and deletion *)

Lemma prefix_app (s t : string) : String.prefix s (s +:+ t) = true.
Proof.
  induction s as [|a s IH]; simpl; [by destruct t|].
  destruct (Ascii.ascii_dec a a); [done|congruence].
Qed.

Lemma signature_key_prefix sid rev : String.prefix sid (signature_key sid rev) = true.
Proof. apply prefix_app. Qed.

Lemma document_key_set_status today un status d :
  document_key (set_status today un status d) = document_key d.
Proof. done. Qed.

Lemma foldl_disable_other_miss today un (os : list document) :
  ∀ (st : gmap string document) k,
    k ∉ document_key <$> os →
    foldl (disable_other today un) st os !! k = st !! k.
Proof.
  induction os as [|o os IH] using rev_ind; intros st k Hk; [done|].
  rewrite foldl_app. simpl. unfold disable_other at 1.
  rewrite fmap_app in Hk. simpl in Hk.
  rewrite lookup_insert_ne.
  - apply IH. intros Hin. apply Hk. apply elem_of_app. by left.
  - intros Heq. apply Hk. apply elem_of_app. right. rewrite Heq. left.
Qed.

Lemma foldl_disable_other_hit today un (os : list document) :
  ∀ (st : gmap string document) k,
    k ∈ document_key <$> os →
    ∃ o, o ∈ os ∧ document_key o = k
         ∧ foldl (disable_other today un) st os !! k
           = Some (set_status today un "DISABLED" o).
Proof.
  induction os as [|o os IH] using rev_ind; intros st k Hk.
  - by apply elem_of_nil in Hk.
  - rewrite foldl_app. simpl. unfold disable_other at 1.
    destruct (decide (document_key o = k)) as [<-|Hne].
    + exists o. rewrite lookup_insert_eq.
      split; [apply elem_of_app; right; left|]. by split.
    + rewrite lookup_insert_ne by done.
      rewrite fmap_app in Hk. apply elem_of_app in Hk as [Hk|Hk].
      * destruct (IH st k Hk) as (o' & Ho' & Hkey & Hlook).
        exists o'. split; [apply elem_of_app; by left|]. by split.
      * simpl in Hk. apply list_elem_of_singleton in Hk. congruence.
Qed.

(** The other revisions that [change_status] fetches. *)
Lemma elem_of_other_revisions (store : gmap string document)
    (status sid key : string) (o : document) :
  o ∈ multiget store (search_other_revisions store status sid key)
  ↔ ∃ k, store !! k = Some o ∧ doc_al_status o = status
         ∧ String.prefix sid k = true ∧ k ≠ key.
Proof.
  unfold multiget, search_other_revisions. rewrite list_elem_of_omap. split.
  - intros (k & Hk & Ho). exists k. split; [done|].
    apply list_elem_of_fmap in Hk as ([k' d] & -> & Hkd).
    apply list_elem_of_filter in Hkd as [(Hs & Hp & Hne) Hkd].
    apply elem_of_map_to_list in Hkd. simpl in *.
    assert (d = o) by congruence. by subst.
  - intros (k & Ho & Hs & Hp & Hne). exists k. split; [|done].
    apply list_elem_of_fmap. exists (k, o). split; [done|].
    apply list_elem_of_filter. split; [done|]. by apply elem_of_map_to_list.
Qed.

Section SignatureHandlerProperties.

Variable DEPLOYED_STATUSES STALE_STATUSES DRAFT_STATUSES : list string.
Variable UNRESTRICTED : string.
Variable is_accessible : string → string → bool.

Lemma change_status_inv (store store' : gmap string document) (u : user)
    (today sid rev status : string) (r : api_response) :
  change_status DEPLOYED_STATUSES STALE_STATUSES DRAFT_STATUSES UNRESTRICTED
    is_accessible store u today sid rev status = (store', r) →
  (store' = store ∧ api_status r ≠ 200%nat)
  ∨ (∃ data,
       status ∈ DEPLOYED_STATUSES ++ DRAFT_STATUSES
       ∧ (is_admin u = true ∨ status ∉ DEPLOYED_STATUSES)
       ∧ store !! signature_key sid rev = Some data
       ∧ may_access UNRESTRICTED is_accessible u data = true
       ∧ (doc_al_status data ∈ STALE_STATUSES → status ∈ DRAFT_STATUSES)
       ∧ (doc_al_status data ∈ DEPLOYED_STATUSES → status ∉ DRAFT_STATUSES)
       ∧ store'
         = <[signature_key sid rev := set_status today (uname u) status data]>
             (if bool_decide (status ∉ ["DISABLED"; "INVALID"; "TESTING"])
              then foldl (disable_other today (uname u)) store
                     (multiget store
                        (search_other_revisions store status sid
                           (signature_key sid rev)))
              else store)
       ∧ r = ApiResponse (Success true) "" 200).
Proof.
  unfold change_status.
  destruct (bool_decide_reflect (status ∉ DEPLOYED_STATUSES ++ DRAFT_STATUSES))
    as [Hno|Hposs].
  { intros H; inversion H; subst. left. by split. }
  destruct (is_admin u) eqn:Hadmin; simpl.
  2: destruct (bool_decide_reflect (status ∈ DEPLOYED_STATUSES)) as [Hdep|Hndep].
  2: { intros H; inversion H; subst. left. by split. }
  all: destruct (store !! signature_key sid rev) as [data|] eqn:Hdata.
  2, 4: intros H; inversion H; subst; left; by split.
  all: destruct (may_access UNRESTRICTED is_accessible u data) eqn:Hacc; simpl.
  2, 4: intros H; inversion H; subst; left; by split.
  all: destruct (bool_decide_reflect (doc_al_status data ∈ STALE_STATUSES))
         as [Hstale|Hnstale]; simpl.
  all: destruct (bool_decide_reflect (status ∉ DRAFT_STATUSES))
         as [Hndraft|Hdraft]; simpl.
  all: try (intros H; inversion H; subst; left; by split).
  all: destruct (bool_decide_reflect (doc_al_status data ∈ DEPLOYED_STATUSES))
         as [Hd|Hnd]; simpl.
  all: try (rewrite bool_decide_eq_true_2 by (by apply dec_stable));
       try (rewrite bool_decide_eq_false_2 by done); simpl.
  all: try (intros H; inversion H; subst; left; by split).
  all: intros H; inversion H; subst; right; exists data.
  all: repeat split; try done; try (by left); try (by right).
  all: try (apply dec_stable; done); try (intros; by apply dec_stable).
  all: try (intros; done).
Qed.

(** X15. [change_status] answers 200 only when every guard holds: the new
    status is a deployed or a draft status, a deployed status is asked for by
    an admin, the signature exists and the user may access it, a stale
    signature only goes to a draft status and a deployed signature never goes
    to a draft status; the signature is then stored with the new status, the
    date and the user's name, its other keys unchanged. *)
Theorem change_status_guards (store store' : gmap string document) (u : user)
    (today sid rev status : string) (r : api_response) :
  change_status DEPLOYED_STATUSES STALE_STATUSES DRAFT_STATUSES UNRESTRICTED
    is_accessible store u today sid rev status = (store', r) →
  api_status r = 200%nat →
  status ∈ DEPLOYED_STATUSES ++ DRAFT_STATUSES
  ∧ (is_admin u = true ∨ status ∉ DEPLOYED_STATUSES)
  ∧ ∃ data,
      store !! signature_key sid rev = Some data
      ∧ may_access UNRESTRICTED is_accessible u data = true
      ∧ (doc_al_status data ∈ STALE_STATUSES → status ∈ DRAFT_STATUSES)
      ∧ (doc_al_status data ∈ DEPLOYED_STATUSES → status ∉ DRAFT_STATUSES)
      ∧ store' !! signature_key sid rev
        = Some (Document (doc_name data) (doc_type data)
                  (doc_classification data) (doc_rule_id data)
                  (doc_rule_version data) status (Some today) (Some (uname u))).
Proof.
  intros H Hok. apply change_status_inv in H
    as [[_ Hno]|(data & H1 & H2 & H3 & H4 & H5 & H6 & -> & _)]; [done|].
  repeat split; try done. exists data. repeat split; try done.
  by rewrite lookup_insert_eq.
Qed.

(** X16. A status change that is refused (any status other than 200) leaves
    the datastore as it was. *)
Theorem change_status_refused (store store' : gmap string document) (u : user)
    (today sid rev status : string) (r : api_response) :
  change_status DEPLOYED_STATUSES STALE_STATUSES DRAFT_STATUSES UNRESTRICTED
    is_accessible store u today sid rev status = (store', r) →
  api_status r ≠ 200%nat → store' = store.
Proof.
  intros H Hno. apply change_status_inv in H
    as [[-> _]|(data & _ & _ & _ & _ & _ & _ & _ & ->)]; [done|].
  by destruct Hno.
Qed.

(** X17. In a datastore whose documents are stored under their rule id and
    revision, after a status change to a status other than DISABLED, INVALID
    and TESTING has succeeded, the signature is the only document whose id
    starts with [sid] that has that status; the documents whose id does not
    start with [sid] are untouched; and the documents are still stored under
    their rule id and revision. *)
Theorem change_status_single_revision (store store' : gmap string document)
    (u : user) (today sid rev status : string) (r : api_response) :
  keyed_by_revision store →
  change_status DEPLOYED_STATUSES STALE_STATUSES DRAFT_STATUSES UNRESTRICTED
    is_accessible store u today sid rev status = (store', r) →
  api_status r = 200%nat →
  status ∉ ["DISABLED"; "INVALID"; "TESTING"] →
  (∀ k d, store' !! k = Some d → String.prefix sid k = true →
          doc_al_status d = status → k = signature_key sid rev)
  ∧ (∀ k, String.prefix sid k = false → store' !! k = store !! k)
  ∧ keyed_by_revision store'.
Proof.
  intros Hkeyed H Hok Hstatus. apply change_status_inv in H
    as [[_ Hno]|(data & _ & _ & Hdata & _ & _ & _ & -> & _)]; [done|].
  rewrite bool_decide_eq_true_2 by done.
  set (key := signature_key sid rev).
  set (others := multiget store (search_other_revisions store status sid key)).
  assert (Hothers : ∀ o, o ∈ others →
            store !! document_key o = Some o ∧ doc_al_status o = status
            ∧ String.prefix sid (document_key o) = true ∧ document_key o ≠ key).
  { intros o Ho. apply elem_of_other_revisions in Ho as (k & Hk & Hs & Hp & Hne).
    rewrite <- (Hkeyed k o Hk). done. }
  repeat split.
  - intros k d Hk Hp Hs. destruct (decide (k = key)) as [|Hne]; [done|].
    exfalso. rewrite lookup_insert_ne in Hk by done.
    destruct (decide (k ∈ document_key <$> others)) as [Hin|Hnin].
    + destruct (foldl_disable_other_hit today (uname u) others store k Hin)
        as (o & _ & _ & Hlook).
      rewrite Hlook in Hk. inversion Hk; subst. simpl in Hstatus.
      apply Hstatus. left.
    + rewrite foldl_disable_other_miss in Hk by done.
      apply Hnin. apply list_elem_of_fmap. exists d.
      split; [by apply Hkeyed|].
      apply elem_of_other_revisions. by exists k.
  - intros k Hp.
    assert (Hne : k ≠ key).
    { intros ->. unfold key in Hp. by rewrite signature_key_prefix in Hp. }
    rewrite lookup_insert_ne by done.
    apply foldl_disable_other_miss. intros Hin.
    apply list_elem_of_fmap in Hin as (o & -> & Ho).
    destruct (Hothers o Ho) as (_ & _ & Hpo & _). congruence.
  - intros k d Hk. destruct (decide (k = key)) as [->|Hne].
    + rewrite lookup_insert_eq in Hk. inversion Hk; subst.
      rewrite document_key_set_status. by apply Hkeyed.
    + rewrite lookup_insert_ne in Hk by done.
      destruct (decide (k ∈ document_key <$> others)) as [Hin|Hnin].
      * destruct (foldl_disable_other_hit today (uname u) others store k Hin)
          as (o & _ & Hkey & Hlook).
        rewrite Hlook in Hk. inversion Hk; subst. done.
      * rewrite foldl_disable_other_miss in Hk by done. by apply Hkeyed.
Qed.

(** X18. [delete_signature] answers 200 only for a stored signature that the
    user may access; the signature is then gone, reading it answers 404 and
    no other document is touched; a refused deletion leaves the datastore as
    it was. *)
Theorem delete_signature_effect (store : gmap string document) (u : user)
    (sid rev : string) :
  (api_status (delete_signature UNRESTRICTED is_accessible store u sid rev).2
   = 200%nat →
   (∃ data, store !! signature_key sid rev = Some data
            ∧ may_access UNRESTRICTED is_accessible u data = true)
   ∧ (delete_signature UNRESTRICTED is_accessible store u sid rev).1
       !! signature_key sid rev = None
   ∧ api_status
       (get_signature UNRESTRICTED is_accessible
          (delete_signature UNRESTRICTED is_accessible store u sid rev).1 u
          sid rev) = 404%nat
   ∧ ∀ k, k ≠ signature_key sid rev →
          (delete_signature UNRESTRICTED is_accessible store u sid rev).1 !! k
          = store !! k)
  ∧ (api_status (delete_signature UNRESTRICTED is_accessible store u sid rev).2
     ≠ 200%nat →
     (delete_signature UNRESTRICTED is_accessible store u sid rev).1 = store).
Proof.
  unfold delete_signature, get_signature.
  destruct (store !! signature_key sid rev) as [data|] eqn:Hdata.
  - destruct (may_access UNRESTRICTED is_accessible u data) eqn:Hacc; simpl.
    + split; [|done]. intros _. rewrite lookup_delete_eq. repeat split; eauto.
      intros k Hk. by rewrite lookup_delete_ne.
    + split; [intros; lia|done].
  - simpl. split; [intros; lia|done].
Qed.

End SignatureHandlerProperties.

Lemma two_revisions_keyed : keyed_by_revision two_revisions.
Proof.
  intros k d H. unfold two_revisions in H.
  apply lookup_insert_Some in H as [[<- <-]|[_ H]]; [by vm_compute|].
  apply lookup_insert_Some in H as [[<- <-]|[_ H]]; [by vm_compute|].
  by rewrite lookup_empty in H.
Qed.

Lemma change_status_deploys :
  change_status ["DEPLOYED"; "NOISY"] ["STAGING"] ["TESTING"; "DISABLED"; "INVALID"]
    "U" (λ _ _, true) two_revisions admin "2020-01-01" "ORG_000001" "2"
    "DEPLOYED"
  = (two_revisions_deployed, ApiResponse (Success true) "" 200).
Proof. vm_compute. reflexivity. Qed.

Lemma change_status_guards_witness :
  "DEPLOYED" ∈ ["DEPLOYED"; "NOISY"] ++ ["TESTING"; "DISABLED"; "INVALID"]
  ∧ (is_admin admin = true ∨ "DEPLOYED" ∉ ["DEPLOYED"; "NOISY"])
  ∧ ∃ data,
      two_revisions !! signature_key "ORG_000001" "2" = Some data
      ∧ may_access "U" (λ _ _, true) admin data = true
      ∧ (doc_al_status data ∈ ["STAGING"] →
         "DEPLOYED" ∈ ["TESTING"; "DISABLED"; "INVALID"])
      ∧ (doc_al_status data ∈ ["DEPLOYED"; "NOISY"] →
         "DEPLOYED" ∉ ["TESTING"; "DISABLED"; "INVALID"])
      ∧ two_revisions_deployed !! signature_key "ORG_000001" "2"
        = Some (Document (doc_name data) (doc_type data)
                  (doc_classification data) (doc_rule_id data)
                  (doc_rule_version data) "DEPLOYED" (Some "2020-01-01")
                  (Some (uname admin))).
Proof.
  exact (change_status_guards _ _ _ _ _ _ _ _ _ _ _ _ _
           change_status_deploys eq_refl).
Defined.

Lemma change_status_refused_witness : two_revisions = two_revisions.
Proof.
  assert (Hrun :
    change_status ["DEPLOYED"; "NOISY"] ["STAGING"]
      ["TESTING"; "DISABLED"; "INVALID"] "U" (λ _ _, true) two_revisions
      analyst "2020-01-01" "ORG_000001" "2" "DEPLOYED"
    = (two_revisions,
       ApiResponse NoData
         "Only admins are allowed to change the signature status to a deployed status."
         403)) by (vm_compute; reflexivity).
  assert (Hno : api_status
                  (ApiResponse NoData
                     "Only admins are allowed to change the signature status to a deployed status."
                     403) ≠ 200%nat) by (simpl; lia).
  exact (change_status_refused _ _ _ _ _ _ _ _ _ _ _ _ _ Hrun Hno).
Defined.

Lemma change_status_single_revision_witness :
  (∀ k d, two_revisions_deployed !! k = Some d →
          String.prefix "ORG_000001" k = true →
          doc_al_status d = "DEPLOYED" → k = signature_key "ORG_000001" "2")
  ∧ (∀ k, String.prefix "ORG_000001" k = false →
          two_revisions_deployed !! k = two_revisions !! k)
  ∧ keyed_by_revision two_revisions_deployed.
Proof.
  assert (Hstatus : "DEPLOYED" ∉ ["DISABLED"; "INVALID"; "TESTING"]).
  { intros H. repeat (apply elem_of_cons in H as [H|H]; [discriminate|]).
    by apply elem_of_nil in H. }
  exact (change_status_single_revision _ _ _ _ _ _ _ _ _ _ _ _ _
           two_revisions_keyed change_status_deploys eq_refl Hstatus).
Defined.

Lemma delete_signature_effect_witness :
  ((∃ data, two_revisions !! signature_key "ORG_000001" "1" = Some data
            ∧ may_access "U" (λ _ _, true) admin data = true)
   ∧ (delete_signature "U" (λ _ _, true) two_revisions admin "ORG_000001" "1").1
       !! signature_key "ORG_000001" "1" = None
   ∧ api_status
       (get_signature "U" (λ _ _, true)
          (delete_signature "U" (λ _ _, true) two_revisions admin
             "ORG_000001" "1").1 admin "ORG_000001" "1") = 404%nat
   ∧ ∀ k, k ≠ signature_key "ORG_000001" "1" →
          (delete_signature "U" (λ _ _, true) two_revisions admin
             "ORG_000001" "1").1 !! k = two_revisions !! k)
  ∧ (delete_signature "U" (λ _ _, false) two_revisions analyst "ORG_000001"
       "1").1 = two_revisions.
Proof.
  split.
  - apply (proj1 (delete_signature_effect "U" (λ _ _, true) two_revisions admin
                    "ORG_000001" "1")).
    vm_compute. reflexivity.
  - apply (proj2 (delete_signature_effect "U" (λ _ _, false) two_revisions
                    analyst "ORG_000001" "1")).
    vm_compute. lia.
Defined.

Lemma service_refusals_change_nothing_witness :
  (add_service {["Extract" := {["stage" := JStr "EXTRACT"]}]} "Extract" ∅).1
  = {["Extract" := {["stage" := JStr "EXTRACT"]}]}
  ∧ (set_service {["Extract" := {["stage" := JStr "EXTRACT"]}]} "Extract"
       {["name" := JStr "Other"]}).1
    = {["Extract" := {["stage" := JStr "EXTRACT"]}]}
  ∧ (remove_service {["Extract" := {["stage" := JStr "EXTRACT"]}]} "Other").1
    = {["Extract" := {["stage" := JStr "EXTRACT"]}]}
  ∧ ((remove_service {["Extract" := {["stage" := JStr "EXTRACT"]}]}
        "Extract").1 !! "Extract" = None
     ∧ api_status
         (get_service
            (remove_service {["Extract" := {["stage" := JStr "EXTRACT"]}]}
               "Extract").1 "Extract") = 404%nat
     ∧ ∀ m, m ≠ "Extract" →
            (remove_service {["Extract" := {["stage" := JStr "EXTRACT"]}]}
               "Extract").1 !! m
            = ({["Extract" := {["stage" := JStr "EXTRACT"]}]}
                 : gmap string (gmap string json)) !! m).
Proof.
  repeat apply conj.
  - apply (proj1 (service_refusals_change_nothing _ "Extract" ∅)).
    vm_compute. lia.
  - apply (proj1 (proj2 (service_refusals_change_nothing _ "Extract"
                           {["name" := JStr "Other"]}))).
    vm_compute. lia.
  - apply (proj1 (proj2 (proj2 (service_refusals_change_nothing _ "Other" ∅)))).
    vm_compute. lia.
  - apply (proj2 (proj2 (proj2 (service_refusals_change_nothing _ "Extract" ∅)))).
    vm_compute. reflexivity.
  - apply (proj2 (proj2 (proj2 (service_refusals_change_nothing _ "Extract" ∅)))).
    vm_compute. reflexivity.
  - apply (proj2 (proj2 (proj2 (service_refusals_change_nothing _ "Extract" ∅)))).
    vm_compute. reflexivity.
Defined.

(** * Safe mode: the bundle carries its own dependencies *)

(** X19. In safe mode every rule of the bundle that was filed in a
    dependency bucket (a private or standard rule with a non-empty dependency
    list) has all its dependency names among the names of the rules of the
    bundle: a rule is never kept without the rules it depends on. *)
Theorem safe_bundle_dependencies_closed (fetched : list sig) (bd : bundle)
    (r : sig) (d : string) :
  sort_rules true fetched = Ok bd →
  r ∈ bundle_rules bd → in_private_dep r = true ∨ in_dep r = true →
  d ∈ depends_of r → d ∈ names_of (bundle_rules bd).
Proof.
  intros H Hr Hbucket Hd. apply sort_rules_spec in H
    as (b & e0 & placed_p & stalled_p & errs_p & placed_g & stalled_g & errs_g
        & Hprep & Hbundle & _ & _ & Hdp_p & _ & Hdp_g & _).
  apply prepare_spec in Hprep as (_ & Hg & Hpn & _ & Hn & _ & Hres & _).
  rewrite !app_nil_r in Hbundle. rewrite app_nil_r in Hdp_g.
  assert (Hnot : ∀ (f : sig → bool) l,
            l ≡ₚ filter (λ s, f s) (resolution_input true fetched) →
            (∀ s, f s = true → in_private_dep s = false ∧ in_dep s = false) →
            r ∉ l).
  { intros f l Hl Hf Hin. rewrite Hl in Hin.
    apply list_elem_of_filter in Hin as [Hfr _].
    destruct (Hf r) as [? ?]; [by destruct (f r)|].
    destruct Hbucket; congruence. }
  assert (Hseed : ∀ x, resolved (name_map e0) x → x ∈ names_of (bundle_rules bd)).
  { intros x Hx. apply Hres in Hx. rewrite Hbundle, !names_of_app in *.
    rewrite !elem_of_app in *. tauto. }
  rewrite Hbundle in Hr. rewrite !elem_of_app in Hr.
  destruct Hr as [Hr|[Hr|[Hr|[Hr|Hr]]]].
  - exfalso. revert Hr. apply (Hnot _ _ Hg).
    unfold in_private_dep, in_dep. intros s ->. done.
  - exfalso. revert Hr. apply (Hnot _ _ Hpn).
    unfold in_private_no_dep, in_private_dep, in_dep. intros s.
    destruct (is_global s), (is_private s), (no_depends s); done.
  - apply list_elem_of_split in Hr as (pre & post & ->).
    destruct (Hdp_p pre r post d eq_refl Hd) as [Hs|Hpre]; [by apply Hseed|].
    rewrite Hbundle, !names_of_app, !elem_of_app. tauto.
  - exfalso. revert Hr. apply (Hnot _ _ Hn).
    unfold in_no_dep, in_private_dep, in_dep. intros s.
    destruct (is_global s), (is_private s), (no_depends s); done.
  - apply list_elem_of_split in Hr as (pre & post & ->).
    destruct (Hdp_g pre r post d eq_refl Hd) as [[Hs|Hp]|Hpre];
      [by apply Hseed| |].
    + rewrite Hbundle, !names_of_app, !elem_of_app. tauto.
    + rewrite Hbundle, !names_of_app, !elem_of_app. tauto.
Qed.

Lemma safe_bundle_dependencies_closed_witness :
  "C" ∈ names_of (bundle_rules (Bundle [rule_c; rule_b] [] [])).
Proof.
  assert (Hrun : sort_rules true [rule_b; rule_c]
                 = Ok (Bundle [rule_c; rule_b] [] [])).
  { vm_compute. reflexivity. }
  assert (Hr : rule_b ∈ bundle_rules (Bundle [rule_c; rule_b] [] [])).
  { right. left. }
  assert (Hd : "C" ∈ depends_of rule_b) by left.
  exact (safe_bundle_dependencies_closed _ _ rule_b "C" Hrun Hr
           (or_intror eq_refl) Hd).
Defined.
